(** * Bracket placement, round-1 pairing and handicap arithmetic

    A shallow embedding of the tournament core of the R&TC draw plugin:
    - [seedParticipants] and its helpers (the seeding engine);
    - [buildRound1] (the pairing engine);
    - [calculateTeamHandicap] and [getAdjustmentFactor] (IRTPA doubles rule);
    - [getEventClassBounds] and [roundHandicapForClass] (class rounding).

    JavaScript numbers are IEEE-754 binary64 values, which is what Rocq's
    primitive floats are, so handicaps are [float]s and the arithmetic of the
    source is kept bit for bit.  Counts, lengths and indices are integers in
    the source and are [nat] or [Z] here.  [Math.random] is an explicit tape of
    draws threaded through a small state monad. *)

From Stdlib Require Import ZArith Floats Ascii String.
From stdpp Require Import base list strings pretty.

Set Warnings "-inexact-float".

(* ================================================================== *)
(** * Part I: the program *)
(* ================================================================== *)

(** ** JavaScript numbers *)

Definition number := float.

(** [a === b] on numbers: NaN differs from everything, [-0 === 0]. *)
Definition num_eq (a b : number) : bool := PrimFloat.eqb a b.
Definition num_lt (a b : number) : bool := PrimFloat.ltb a b.
Definition num_le (a b : number) : bool := PrimFloat.leb a b.
Definition num_gt (a b : number) : bool := PrimFloat.ltb b a.
Definition num_ge (a b : number) : bool := PrimFloat.leb b a.

Definition is_nan (a : number) : bool := negb (PrimFloat.eqb a a).

Definition is_neg_zero (a : number) : bool :=
  match Prim2SF a with S754_zero true => true | _ => false end.

(** [Math.min(a, b)]: NaN if either argument is NaN, and [-0] counts as
    smaller than [+0]. *)
Definition Math_min (a b : number) : number :=
  if is_nan a then a
  else if is_nan b then b
  else if PrimFloat.ltb a b then a
  else if PrimFloat.ltb b a then b
  else if is_neg_zero a then a else b.

Definition Math_abs (a : number) : number := PrimFloat.abs a.

(** The number that the integer [z] denotes (exact below 2^53). *)
Definition num_of_Z (z : Z) : number :=
  if (z <? 0)%Z then PrimFloat.opp (PrimFloat.of_uint63 (Uint63.of_Z (- z)))
  else PrimFloat.of_uint63 (Uint63.of_Z z).

Definition num_of_nat (n : nat) : number := num_of_Z (Z.of_nat n).

(** [Math.round(x)] as an integer: the integer closest to the exact value of
    [x], ties going up, i.e. the floor of [x + 1/2] in exact arithmetic.  A
    finite float is [(-1)^s * m * 2^e].  NaN and the infinities have no
    integer value; the engine only rounds quotients in [0, playInMatchCount]. *)
Definition Math_round (x : number) : Z :=
  match Prim2SF x with
  | S754_finite s m e =>
      let v := if s then Z.neg m else Z.pos m in
      if (0 <=? e)%Z then (v * 2 ^ e)%Z
      else ((2 * v + 2 ^ (- e)) / 2 ^ (1 - e))%Z
  | _ => 0%Z
  end.

(** ** Arrays *)

(** [arr[i] = v].  Inside the array this is an update; past its end a
    JavaScript array grows, the cells in between being holes, which [hole]
    stands for.  The engine's arrays are created with [bracketSize] cells and
    none of its writes falls past the end ([placeByAvailability_filling]). *)
Definition array_set {A} (hole : A) (i : nat) (v : A) (arr : list A) : list A :=
  if decide (i < length arr) then <[i := v]> arr
  else arr ++ replicate (i - length arr) hole ++ [v].

(** The index that [Array.prototype.slice] derives from an argument [k]. *)
Definition slice_index (len : nat) (k : Z) : nat :=
  if (k <? 0)%Z then Z.to_nat (Z.max (Z.of_nat len + k) 0)
  else Nat.min (Z.to_nat k) len.

(** [arr.slice(0, k)] and [arr.slice(k)]. *)
Definition slice_to {A} (k : Z) (arr : list A) : list A :=
  take (slice_index (length arr) k) arr.
Definition slice_from {A} (k : Z) (arr : list A) : list A :=
  drop (slice_index (length arr) k) arr.

(** ** Randomness *)

(** The draws of [Math.random] are read off a tape.  A draw [r] used as
    [Math.floor(Math.random() * n)] yields [r mod n], so every index below
    [n] can come out; an exhausted tape keeps yielding 0. *)
Definition tape := list nat.
Definition Rand (A : Type) : Type := tape -> A * tape.

Definition ret {A} (a : A) : Rand A := fun t => (a, t).
Definition bind {A B} (m : Rand A) (k : A -> Rand B) : Rand B :=
  fun t => let (a, t') := m t in k a t'.

Notation "x <~ m ; k" := (bind m (fun x => k))
  (at level 20, m at level 100, k at level 200, only parsing).

Definition randomBelow (n : nat) : Rand nat :=
  fun t => match t with
           | [] => (0, [])
           | r :: t' => (r mod n, t')
           end.

(** [[arr[i], arr[j]] = [arr[j], arr[i]]], for indices inside the array (as
    they are in [shuffle]): [arr[i]] is assigned first, [arr[j]] second. *)
Definition swap {A} (i j : nat) (arr : list A) : list A :=
  match arr !! i, arr !! j with
  | Some x, Some y => <[j := x]> (<[i := y]> arr)
  | _, _ => arr
  end.

(** The loop of [shuffle], entered with index [i] and counting down to 1. *)
Fixpoint shuffle_from {A} (i : nat) (arr : list A) : Rand (list A) :=
  match i with
  | 0 => ret arr
  | S i' => j <~ randomBelow (i + 1); shuffle_from i' (swap i j arr)
  end.

Definition shuffle {A} (array : list A) : Rand (list A) :=
  shuffle_from (length array - 1) array.

(* ------------------------------------------------------------------ *)
(** ** The seeding engine *)
(* ------------------------------------------------------------------ *)

(** A participant object.  Fields a script object does not carry read as
    [None] (for [isBye]: [false]). *)
Record Participant := mkParticipant {
  name : string;
  isBye : bool;
  seed : option nat;
  availability : option string;
  singlesHandicap : option number;
  doublesHandicap : option number
}.

(** A bracket cell: [None] is JavaScript's [null]. *)
Abbreviation cell := (option Participant).
Abbreviation slots := (list (option Participant)).

Definition createBye : Participant :=
  {| name := "BYE"; isBye := true; seed := None; availability := None;
     singlesHandicap := None; doublesHandicap := None |}.

(** [{ ...p, seed: s }] *)
Definition withSeed (p : Participant) (s : nat) : Participant :=
  {| name := name p; isBye := isBye p; seed := Some s;
     availability := availability p;
     singlesHandicap := singlesHandicap p;
     doublesHandicap := doublesHandicap p |}.

(** [result[pos] = { ...p, seed: pos + 1 }] and [result[pos] = createBye()] *)
Definition place (pos : nat) (p : Participant) (result : slots) : slots :=
  array_set None pos (Some (withSeed p (pos + 1))) result.
Definition placeBye (pos : nat) (result : slots) : slots :=
  array_set None pos (Some createBye) result.

(** [p.availability === tag] *)
Definition hasTag (tag : string) (p : Participant) : bool :=
  match availability p with
  | Some a => String.eqb a tag
  | None => false
  end.

(** The [forEach] that separates the participants by availability. *)
Definition dayOf (participants : list Participant) : list Participant :=
  List.filter (hasTag "D") participants.
Definition nightOf (participants : list Participant) : list Participant :=
  List.filter (fun p => negb (hasTag "D" p) && hasTag "N" p) participants.

(** One round of the loop over play-in match slots: the next two members of
    [group], if there are any left, take both cells of match [slot].  The
    source writes this loop three times (Day, Night with [base = halfSize],
    and the random placement); [idx] is its running index. *)
Definition playInStep (base : nat) (group : list Participant)
    (st : nat * slots) (slot : nat) : nat * slots :=
  let '(idx, result) := st in
  let pos1 := base + slot * 2 in
  let pos2 := base + slot * 2 + 1 in
  let '(idx, result) :=
    match group !! idx with
    | Some p => (idx + 1, place pos1 p result)
    | None => (idx, result)
    end in
  match group !! idx with
  | Some p => (idx + 1, place pos2 p result)
  | None => (idx, result)
  end.

Definition placePlayInMatches (base : nat) (matchSlots : list nat)
    (group : list Participant) (result : slots) : slots :=
  snd (foldl (playInStep base group) (0, result) matchSlots).

(** One round of the loop over bye match slots: the next member of [group]
    with a BYE beside it, or two BYEs once the group is used up. *)
Definition byeStep (base : nat) (group : list Participant)
    (st : nat * slots) (slot : nat) : nat * slots :=
  let '(idx, result) := st in
  let pos1 := base + slot * 2 in
  let pos2 := base + slot * 2 + 1 in
  match group !! idx with
  | Some p => (idx + 1, placeBye pos2 (place pos1 p result))
  | None => (idx, placeBye pos2 (placeBye pos1 result))
  end.

Definition placeByeMatches (base : nat) (matchSlots : list nat)
    (group : list Participant) (result : slots) : slots :=
  snd (foldl (byeStep base group) (0, result) matchSlots).

(** [for (i < bracketSize) if (result[i] === null) result[i] = createBye()] *)
Definition fillNulls (bracketSize : nat) (result : slots) : slots :=
  imap (fun i c =>
          match c with
          | None => if decide (i < bracketSize) then Some createBye else None
          | Some p => Some p
          end) result.

(** The statistics every placement path reports. *)
Record Stats := mkStats {
  dayPlayers : nat;
  nightPlayers : nat;
  playInMatches : Z;
  byeCount : Z
}.

(** What a placement function returns ([success] is [true] in all of them). *)
Record Placement := mkPlacement {
  placed : slots;
  participantCount : nat;
  bracketSize : nat;
  stats : Stats
}.

(** [shuffled.map((p, i) => ({ ...p, seed: i + 1 }))] *)
Definition seedInOrder (shuffled : list Participant) : slots :=
  imap (fun i p => Some (withSeed p (i + 1))) shuffled.

(** [players[0]], [players[1]], ... go to [pos], [pos + 1], ... *)
Fixpoint placeRun (pos : nat) (players : list Participant) (result : slots)
    : slots :=
  match players with
  | [] => result
  | p :: rest => placeRun (S pos) rest (place pos p result)
  end.

(** Day overflow: a member is placed at [overflowCursor] only if that cell is
    [null], and only then does the cursor move. *)
Definition dayOverflowStep (st : nat * slots) (p : Participant) : nat * slots :=
  let '(overflowCursor, result) := st in
  match result !! overflowCursor with
  | Some None => (overflowCursor + 1, place overflowCursor p result)
  | _ => (overflowCursor, result)
  end.

(** [while (idx < bracketSize && result[idx] !== null) idx++], run for at most
    [n] rounds. *)
Fixpoint skipTaken (n bracketSize idx : nat) (result : slots) : nat :=
  match n with
  | 0 => idx
  | S n' =>
      if decide (idx < bracketSize) then
        match result !! idx with
        | Some None => idx
        | _ => skipTaken n' bracketSize (S idx) result
        end
      else idx
  end.

Definition nightOverflowStep (bracketSize : nat) (st : nat * slots)
    (p : Participant) : nat * slots :=
  let '(nightOverflowIdx, result) := st in
  let idx := skipTaken (bracketSize - nightOverflowIdx) bracketSize
               nightOverflowIdx result in
  if decide (idx < bracketSize) then (idx, place idx p result)
  else (idx, result).

Definition placeFullBracket (participants : list Participant)
    (bracketSize : nat) : Rand Placement :=
  let dayPlayers := dayOf participants in
  let nightPlayers := nightOf participants in
  let hasAvailability :=
    (0 <? length dayPlayers) || (0 <? length nightPlayers) in
  if negb hasAvailability then
    shuffled <~ shuffle participants;
    ret {| placed := seedInOrder shuffled;
           participantCount := length participants;
           bracketSize := bracketSize;
           stats := mkStats 0 0 (Z.of_nat (bracketSize / 2)) 0 |}
  else
    shuffledDay <~ shuffle dayPlayers;
    shuffledNight <~ shuffle nightPlayers;
    let result := replicate bracketSize None in
    let halfSize := bracketSize / 2 in
    let result := placeRun 0 (take halfSize shuffledDay) result in
    let result := placeRun halfSize (take halfSize shuffledNight) result in
    let overflowCursor :=
      if length shuffledDay <? halfSize then length shuffledDay else halfSize in
    let result :=
      snd (foldl dayOverflowStep (overflowCursor, result)
             (drop halfSize shuffledDay)) in
    let result :=
      snd (foldl (nightOverflowStep bracketSize) (halfSize, result)
             (drop halfSize shuffledNight)) in
    ret {| placed := result;
           participantCount := length participants;
           bracketSize := bracketSize;
           stats := mkStats (length dayPlayers) (length nightPlayers)
                      (Z.of_nat (bracketSize / 2)) 0 |}.

Definition pureRandomPlayInPlacement (participants : list Participant)
    (bracketSize : nat) (playInMatchCount : Z) : Rand Placement :=
  shuffled <~ shuffle participants;
  let result := replicate bracketSize None in
  let round1Matches := bracketSize / 2 in
  result <~
    (if (playInMatchCount <=? 0)%Z then
       shuffledSlots <~ shuffle (seq 0 round1Matches);
       let result :=
         foldl (fun res '(p, slot) =>
                  placeBye (slot * 2 + 1) (place (slot * 2) p res))
           result (zip shuffled shuffledSlots) in
       ret (foldl (fun res slot =>
                     placeBye (slot * 2 + 1) (placeBye (slot * 2) res))
              result (drop (length shuffled) shuffledSlots))
     else
       let playInParticipantCount := (playInMatchCount * 2)%Z in
       let playInGroup := slice_to playInParticipantCount shuffled in
       let byeGroup := slice_from playInParticipantCount shuffled in
       shuffledSlots <~ shuffle (seq 0 round1Matches);
       let playInSlots := slice_to playInMatchCount shuffledSlots in
       let byeSlots := slice_from playInMatchCount shuffledSlots in
       let result := placePlayInMatches 0 playInSlots playInGroup result in
       ret (placeByeMatches 0 byeSlots byeGroup result));
  let result := fillNulls bracketSize result in
  ret {| placed := result;
         participantCount := length participants;
         bracketSize := bracketSize;
         stats := mkStats 0 0 playInMatchCount
                    (Z.of_nat bracketSize - Z.of_nat (length participants)) |}.

(** [Math.round(playInMatchCount * (dayPlayers.length / totalPlayers))] *)
Definition dayShare (playInMatchCount : Z) (dayCount totalPlayers : nat) : Z :=
  Math_round
    (PrimFloat.mul (num_of_Z playInMatchCount)
       (PrimFloat.div (num_of_nat dayCount) (num_of_nat totalPlayers))).

(** The adjustment of the play-in head counts when the two groups do not
    supply enough play-in participants between them. *)
Definition adjustPlayIn (totalPlayInNeeded : Z) (dayCount nightCount : nat)
    (dayPlayInPlayers nightPlayInPlayers : Z) : Z * Z :=
  if (dayPlayInPlayers + nightPlayInPlayers <? totalPlayInNeeded)%Z then
    let shortfall :=
      (totalPlayInNeeded - (dayPlayInPlayers + nightPlayInPlayers))%Z in
    if (shortfall <=? Z.of_nat dayCount - dayPlayInPlayers)%Z then
      ((dayPlayInPlayers + shortfall)%Z, nightPlayInPlayers)
    else if (shortfall <=? Z.of_nat nightCount - nightPlayInPlayers)%Z then
      (dayPlayInPlayers, (nightPlayInPlayers + shortfall)%Z)
    else (dayPlayInPlayers, nightPlayInPlayers)
  else (dayPlayInPlayers, nightPlayInPlayers).

(** [Math.ceil(k / 2)] for an integer [k]. *)
Definition ceilHalf (k : Z) : Z := ((k + 1) / 2)%Z.

(** [bracketSize / 2] and [round1Matches / 2] are whole numbers for the
    bracket sizes [seedParticipants] lets through, so the integer quotient is
    the quotient of the source. *)
Definition placeByAvailability (participants : list Participant)
    (bracketSize : nat) : Rand Placement :=
  let totalPlayers := length participants in
  let round1Matches := bracketSize / 2 in
  let round2Slots := round1Matches in
  if decide (totalPlayers = bracketSize) then
    placeFullBracket participants bracketSize
  else
    let playInMatchCount :=
      Z.max 0 (Z.of_nat totalPlayers - Z.of_nat round2Slots) in
    let playInParticipantCount := (playInMatchCount * 2)%Z in
    let dayPlayers := dayOf participants in
    let nightPlayers := nightOf participants in
    let hasAvailability :=
      (0 <? length dayPlayers) || (0 <? length nightPlayers) in
    if negb hasAvailability then
      pureRandomPlayInPlacement participants bracketSize playInMatchCount
    else
      shuffledDay <~ shuffle dayPlayers;
      shuffledNight <~ shuffle nightPlayers;
      let dayPlayInMatches :=
        dayShare playInMatchCount (length dayPlayers) totalPlayers in
      let nightPlayInMatches := (playInMatchCount - dayPlayInMatches)%Z in
      let dayPlayInPlayers :=
        Z.min (dayPlayInMatches * 2) (Z.of_nat (length dayPlayers)) in
      let nightPlayInPlayers :=
        Z.min (nightPlayInMatches * 2) (Z.of_nat (length nightPlayers)) in
      let '(actualDayPlayIn, actualNightPlayIn) :=
        adjustPlayIn playInParticipantCount (length dayPlayers)
          (length nightPlayers) dayPlayInPlayers nightPlayInPlayers in
      let dayPlayInGroup := slice_to actualDayPlayIn shuffledDay in
      let dayByeGroup := slice_from actualDayPlayIn shuffledDay in
      let nightPlayInGroup := slice_to actualNightPlayIn shuffledNight in
      let nightByeGroup := slice_from actualNightPlayIn shuffledNight in
      let result := replicate bracketSize None in
      let halfSize := bracketSize / 2 in
      let dayMatchCount := round1Matches / 2 in
      let nightMatchCount := round1Matches / 2 in
      shuffledDaySlots <~ shuffle (seq 0 dayMatchCount);
      let dayPlayInSlots := slice_to (ceilHalf actualDayPlayIn) shuffledDaySlots in
      let dayByeSlots := slice_from (ceilHalf actualDayPlayIn) shuffledDaySlots in
      shuffledNightSlots <~ shuffle (seq 0 nightMatchCount);
      let nightPlayInSlots :=
        slice_to (ceilHalf actualNightPlayIn) shuffledNightSlots in
      let nightByeSlots :=
        slice_from (ceilHalf actualNightPlayIn) shuffledNightSlots in
      let result := placePlayInMatches 0 dayPlayInSlots dayPlayInGroup result in
      let result := placeByeMatches 0 dayByeSlots dayByeGroup result in
      let result :=
        placePlayInMatches halfSize nightPlayInSlots nightPlayInGroup result in
      let result :=
        placeByeMatches halfSize nightByeSlots nightByeGroup result in
      let result := fillNulls bracketSize result in
      ret {| placed := result;
             participantCount := length participants;
             bracketSize := bracketSize;
             stats := mkStats (length dayPlayers) (length nightPlayers)
                        playInMatchCount
                        (Z.of_nat bracketSize - Z.of_nat totalPlayers) |}.

(** The result of [seedParticipants]: [{ success: false, error }] or
    [{ success: true, seeded, placed, participantCount, bracketSize, stats }]
    ([seeded] and [placed] are the same array).  The body of the source is
    wrapped in [try]/[catch]; over participant objects nothing in it throws,
    so the handler has no counterpart here. *)
Inductive SeedResult :=
| SeedFailure (error : string)
| SeedSuccess (r : Placement).

Definition noParticipantsError : string := "No participants to place".
Definition invalidSizeError : string :=
  "Invalid bracket size. Must be 8, 16, 32, 64, or 128".

Definition allowedSizes : list nat := [8; 16; 32; 64; 128].

(** [[8, 16, 32, 64, 128].includes(bracketSize)] *)
Definition isAllowedSize (bracketSize : nat) : bool :=
  existsb (Nat.eqb bracketSize) allowedSizes.

Definition seedParticipants (participants : list Participant)
    (bracketSize : nat) : Rand SeedResult :=
  if (length participants =? 0) then ret (SeedFailure noParticipantsError)
  else if (bracketSize =? 0) || negb (isAllowedSize bracketSize) then
    ret (SeedFailure invalidSizeError)
  else
    result <~ placeByAvailability participants bracketSize;
    ret (SeedSuccess result).

(* ------------------------------------------------------------------ *)
(** ** The pairing engine *)
(* ------------------------------------------------------------------ *)

Record Match := mkMatch {
  matchNumber : nat;
  player1 : cell;
  player2 : cell;
  winner : cell
}.

Record Round := mkRound {
  roundNumber : nat;
  roundName : string;
  matches : list Match
}.

(** [participants[i]] used as a condition or under [|| null]: a cell that is
    [null], or an index past the end (which reads [undefined]), gives [None]. *)
Definition readSlot (participants : slots) (i : nat) : cell :=
  match participants !! i with
  | Some c => c
  | None => None
  end.

(** The body of the loop of [buildRound1], for loop index [i]. *)
Definition buildMatch (participants : slots) (i : nat) : Match :=
  let player1 := readSlot participants (i * 2) in
  let player2 := readSlot participants (i * 2 + 1) in
  {| matchNumber := i + 1;
     player1 := player1;
     player2 := player2;
     winner :=
       match player1, player2 with
       | Some p1, Some p2 =>
           if isBye p2 then Some p1
           else if isBye p1 then Some p2
           else None
       | _, _ => None
       end |}.

(** [matchCount] is [participants.length / 2], a fraction for an odd length;
    the loop runs while [i < matchCount], that is for [2 * i < length]. *)
Definition buildRound1 (participants : slots) : Round :=
  {| roundNumber := 1;
     roundName := "Round 1";
     matches :=
       map (buildMatch participants) (seq 0 ((length participants + 1) / 2)) |}.

(* ------------------------------------------------------------------ *)
(** ** The team handicap calculator *)
(* ------------------------------------------------------------------ *)

Module teamHandicap.

Definition row (k : Z) (v : number) : Z * number := (k, v).
Arguments row k%_Z v%_float.

(** The adjustment table; the keys of the object literal are the decimal
    strings of 1 to 60. *)
Definition ADJUSTMENT_TABLE : list (Z * number) := [
  row 1 0.5; row 2 1.0; row 3 1.4; row 4 1.8; row 5 2.1;
  row 6 2.4; row 7 2.6; row 8 2.8; row 9 3.0; row 10 3.2;
  row 11 3.4; row 12 3.6; row 13 3.8; row 14 4.0; row 15 4.2;
  row 16 4.4; row 17 4.6; row 18 4.8; row 19 5.0; row 20 5.2;
  row 21 5.4; row 22 5.6; row 23 5.8; row 24 6.0; row 25 6.2;
  row 26 6.4; row 27 6.6; row 28 6.8; row 29 7.0; row 30 7.2;
  row 31 7.4; row 32 7.6; row 33 7.8; row 34 8.0; row 35 8.2;
  row 36 8.4; row 37 8.6; row 38 8.8; row 39 9.0; row 40 9.2;
  row 41 9.4; row 42 9.6; row 43 9.8; row 44 10.0; row 45 10.2;
  row 46 10.4; row 47 10.6; row 48 10.8; row 49 10.9; row 50 11.0;
  row 51 11.1; row 52 11.2; row 53 11.3; row 54 11.4; row 55 11.5;
  row 56 11.6; row 57 11.7; row 58 11.8; row 59 11.9; row 60 12.0
].

(** A player object: both spellings of each handicap property. *)
Record Player := mkPlayer {
  singlesHCAP : option number;
  singlesHandicap : option number;
  doublesHCAP : option number;
  doublesHandicap : option number
}.

(** [a ?? b] *)
Definition nullish {A} (a b : option A) : option A :=
  match a with
  | Some x => Some x
  | None => b
  end.

Definition getPlayerEffectiveHandicap (player : Player) : option number :=
  let singles := nullish (singlesHCAP player) (singlesHandicap player) in
  let doubles := nullish (doublesHCAP player) (doublesHandicap player) in
  match singles, doubles with
  | Some s, Some d => Some (Math_min s d)
  | _, _ => nullish singles doubles
  end.

(** [ADJUSTMENT_TABLE[difference]]: the property named by the decimal string
    of [difference].  That string is the key of [k] exactly when
    [difference] is the number [k]. *)
Definition tableLookup (difference : number) : option number :=
  match List.find (fun kv => num_eq difference (num_of_Z (fst kv)))
          ADJUSTMENT_TABLE with
  | Some kv => Some (snd kv)
  | None => None
  end.

Definition getAdjustmentFactor (difference : number) : number :=
  if num_eq difference 0%float then 0%float
  else if num_ge difference 60%float then 12.0%float
  else match tableLookup difference with
       | Some v => v
       | None => 12.0%float
       end.

Record TeamHandicap := mkTeamHandicap {
  teamHandicap : number;
  playerAHandicap : number;
  playerBHandicap : number;
  difference : number;
  adjustment : number;
  betterHandicap : number
}.

Inductive TeamResult :=
| TeamFailure (error : string) (handicapA handicapB : option number)
| TeamSuccess (r : TeamHandicap).

Definition missingHandicapError : string :=
  "Missing handicap data for one or both players".

Definition calculateTeamHandicap (playerA playerB : Player) : TeamResult :=
  let handicapA := getPlayerEffectiveHandicap playerA in
  let handicapB := getPlayerEffectiveHandicap playerB in
  match handicapA, handicapB with
  | Some a, Some b =>
      let difference := Math_abs (PrimFloat.sub a b) in
      let adjustment := getAdjustmentFactor difference in
      let betterHandicap := Math_min a b in
      let teamHandicap := PrimFloat.add betterHandicap adjustment in
      TeamSuccess
        {| teamHandicap := teamHandicap;
           playerAHandicap := a;
           playerBHandicap := b;
           difference := difference;
           adjustment := adjustment;
           betterHandicap := betterHandicap |}
  | _, _ => TeamFailure missingHandicapError handicapA handicapB
  end.

(** [validateAlgorithm().isValid] *)
Definition validateAlgorithm : bool :=
  let playerA := mkPlayer None None (Some 32%float) None in
  let playerB := mkPlayer None None (Some 45%float) None in
  match calculateTeamHandicap playerA playerB with
  | TeamSuccess r =>
      num_eq (difference r) 13%float && num_eq (adjustment r) 3.8%float
      && num_eq (teamHandicap r) 35.8%float
  | TeamFailure _ _ _ => false
  end.

End teamHandicap.

(* ------------------------------------------------------------------ *)
(** ** The handicap class rounder *)
(* ------------------------------------------------------------------ *)

Module handicapRounding.

(** Class bounds; a [min] of [None] is the source's [min: null]. *)
Record Bounds := mkBounds {
  min : option number;
  max : option number
}.

Definition bounds (lo hi : number) : option Bounds :=
  Some (mkBounds (Some lo) (Some hi)).
Arguments bounds lo%_float hi%_float.

(** The entries of [CLASS_BOUNDS] in the order [Object.entries] lists them. *)
Definition CLASS_BOUNDS : list (string * option Bounds) := [
  ("4th", bounds 40.0 49.0);
  ("4th class", bounds 40.0 49.0);
  ("3rd", bounds 30.0 39.0);
  ("3rd class", bounds 30.0 39.0);
  ("2nd", bounds 20.0 29.0);
  ("2nd class", bounds 20.0 29.0);
  ("1st", Some (mkBounds None (Some 19.0%float)));
  ("1st class", Some (mkBounds None (Some 19.0%float)));
  ("club", None);
  ("club championship", None);
  ("championship", None);
  ("champ", None);
  ("champs", None)
].

(** [toLowerCase] on the ASCII letters; event names are taken to be ASCII. *)
Definition lowerChar (c : ascii) : ascii :=
  let n := nat_of_ascii c in
  if (65 <=? n) && (n <=? 90) then ascii_of_nat (n + 32) else c.

Fixpoint toLowerCase (s : string) : string :=
  match s with
  | EmptyString => EmptyString
  | String c rest => String (lowerChar c) (toLowerCase rest)
  end.

(** [s.includes(key)] *)
Fixpoint includes (s key : string) : bool :=
  String.prefix key s
  || match s with
     | EmptyString => false
     | String _ rest => includes rest key
     end.

Definition getEventClassBounds (eventName : string) : option Bounds :=
  if String.eqb eventName "" then None
  else
    let lowerName := toLowerCase eventName in
    if includes lowerName "club" || includes lowerName "championship"
       || includes lowerName "champ"
    then None
    else
      match List.find (fun kb => match snd kb with
                                 | Some _ => includes lowerName (fst kb)
                                 | None => false
                                 end) CLASS_BOUNDS with
      | Some kb => snd kb
      | None => None
      end.

Definition roundHandicapForClass (handicap : number) (bounds : option Bounds)
    : number :=
  match bounds with
  | None => handicap
  | Some b =>
      if num_lt handicap 0%float then handicap
      else if num_le handicap 19%float then handicap
      else
        let rounded := handicap in
        let rounded :=
          match max b with
          | Some hi => if num_gt rounded hi then hi else rounded
          | None => rounded
          end in
        let rounded :=
          match min b with
          | Some lo => if num_lt rounded lo then lo else rounded
          | None => rounded
          end in
        rounded
  end.

(** The rounder applied to an event name, as [processHandicapForDisplay]
    composes it before formatting. *)
Definition roundForEvent (handicap : number) (eventName : string) : number :=
  roundHandicapForClass handicap (getEventClassBounds eventName).

End handicapRounding.

(* ------------------------------------------------------------------ *)
(** ** Vocabulary of the properties *)
(* ------------------------------------------------------------------ *)

(** A cell holds a real participant, resp. a BYE. *)
Definition isRealCell (c : cell) : bool :=
  match c with
  | Some p => negb (isBye p)
  | None => false
  end.

Definition isByeCell (c : cell) : bool :=
  match c with
  | Some p => isBye p
  | None => false
  end.

Definition isNullCell (c : cell) : bool :=
  match c with
  | Some _ => false
  | None => true
  end.

Definition realCount (s : slots) : nat := length (List.filter isRealCell s).
Definition byeCells (s : slots) : nat := length (List.filter isByeCell s).
Definition nullCells (s : slots) : nat := length (List.filter isNullCell s).

(** The number of round-1 matches, i.e. pairs of cells [2i] and [2i + 1],
    whose two sides are both real participants. *)
Fixpoint playInMatchesIn (s : slots) : nat :=
  match s with
  | a :: b :: rest =>
      (if isRealCell a && isRealCell b then 1 else 0) + playInMatchesIn rest
  | _ => 0
  end.

(** The slot array of a run of [seedParticipants], if it succeeded. *)
Definition slotsOf (r : SeedResult) : option slots :=
  match r with
  | SeedSuccess p => Some (placed p)
  | SeedFailure _ => None
  end.


(** A list of participants none of whom is flagged as a BYE, and one whose
    members carry no availability tag. *)
Definition allReal (participants : list Participant) : Prop :=
  Forall (fun p => isBye p = false) participants.

(** [x] is an integer: a zero, or a finite float [m * 2^e] whose binary point
    lies at or after the last set bit of [m]. *)
Definition isIntegerSF (x : spec_float) : bool :=
  match x with
  | S754_zero _ => true
  | S754_finite _ m e =>
      (0 <=? e)%Z || (Z.pos m mod 2 ^ (- e) =? 0)%Z
  | _ => false
  end.

Definition isInteger (x : number) : bool := isIntegerSF (Prim2SF x).

(** The entry of the adjustment table under the integer key [k]. *)
Definition tableEntry (k : Z) : option number :=
  match List.find (fun kv => (fst kv =? k)%Z) teamHandicap.ADJUSTMENT_TABLE with
  | Some kv => Some (snd kv)
  | None => None
  end.

(** The bounds an event name can resolve to. *)
Definition classBounds : list handicapRounding.Bounds :=
  [handicapRounding.mkBounds (Some 40.0%float) (Some 49.0%float);
   handicapRounding.mkBounds (Some 30.0%float) (Some 39.0%float);
   handicapRounding.mkBounds (Some 20.0%float) (Some 29.0%float);
   handicapRounding.mkBounds None (Some 19.0%float)].

(** Sample inputs used below. *)
Definition entrant (n : string) (tag : option string) : Participant :=
  {| name := n; isBye := false; seed := None; availability := tag;
     singlesHandicap := None; doublesHandicap := None |}.

Definition loneEntrantSlots : list Participant :=
  [withSeed (entrant "Ada" None) 1; createBye; createBye; createBye;
   withSeed (entrant "Bo" None) 5; withSeed (entrant "Cy" None) 6;
   createBye; withSeed (entrant "Di" None) 8].

(** The transposition of the indices [i] and [j]. *)
Definition transpose (i j k : nat) : nat :=
  if decide (k = i) then j else if decide (k = j) then i else k.

(** Where the content of a cell comes from: a cell at index [i] is empty, or
    holds the BYE object, or holds a copy of an input participant whose seed
    is [i + 1]. *)
Definition cellFrom (participants : list Participant) (i : nat) (c : cell)
    : Prop :=
  match c with
  | None => True
  | Some p =>
      p = createBye \/ exists q, q ∈ participants /\ p = withSeed q (i + 1)
  end.

Definition wellSeeded (participants : list Participant) (result : slots)
    : Prop :=
  forall i c, result !! i = Some c -> cellFrom participants i c.

(** The invariant of the result array while a bracket of [bracketSize] cells
    is being filled from [participants]. *)
Definition filling (participants : list Participant) (bracketSize : nat)
    (result : slots) : Prop :=
  length result = bracketSize /\ wellSeeded participants result.

(** Entrants without availability tags; the second comes with a stale seed. *)
Definition staleSeedEntrant : Participant :=
  {| name := "Bo"; isBye := false; seed := Some 42; availability := None;
     singlesHandicap := Some 31%float; doublesHandicap := None |}.

Definition fiveEntrants : list Participant :=
  [entrant "Ada" None; staleSeedEntrant; entrant "Cy" None;
   entrant "Di" None; entrant "Ed" None].

Definition nineEntrants : list Participant :=
  fiveEntrants
  ++ [entrant "Flo" None; entrant "Gus" None; entrant "Hal" None;
      entrant "Ivy" None].

Definition sampleTape : tape := [3; 1; 4; 1; 5; 9; 2; 6; 5; 3; 5; 8; 9; 7; 9].

(** Entrants with availability tags: seven Day entrants; four Day and one
    Night entrant; five Day and three Night entrants. *)
Definition sevenDay : list Participant :=
  [entrant "Ada" (Some "D"); entrant "Bo" (Some "D"); entrant "Cy" (Some "D");
   entrant "Di" (Some "D"); entrant "Ed" (Some "D"); entrant "Flo" (Some "D");
   entrant "Gus" (Some "D")].

Definition fourDayOneNight : list Participant :=
  [entrant "Ada" (Some "D"); entrant "Bo" (Some "D"); entrant "Cy" (Some "D");
   entrant "Di" (Some "D"); entrant "Hal" (Some "N")].

Definition fiveDayThreeNight : list Participant :=
  [entrant "Ada" (Some "D"); entrant "Bo" (Some "D"); entrant "Cy" (Some "D");
   entrant "Di" (Some "D"); entrant "Ed" (Some "D");
   entrant "Flo" (Some "N"); entrant "Gus" (Some "N"); entrant "Hal" (Some "N")].

(** The real participants of a slot array, in slot order. *)
Definition occupant (c : cell) : option Participant :=
  match c with
  | Some p => if isBye p then None else Some p
  | None => None
  end.

Definition occupants (s : slots) : list Participant := omap occupant s.

(** A participant with the seed field blanked: what identifies an entrant
    across the copy that placement makes. *)
Definition unseeded (p : Participant) : Participant :=
  {| name := name p; isBye := isBye p; seed := None;
     availability := availability p;
     singlesHandicap := singlesHandicap p;
     doublesHandicap := doublesHandicap p |}.

(** Match [m] of a result array has not been written yet. *)
Definition untouched (result : slots) (m : nat) : Prop :=
  result !! (2 * m) = Some None /\ result !! (2 * m + 1) = Some None.

(** No participant carries an availability tag the engine knows. *)
Definition untagged (participants : list Participant) : Prop :=
  Forall (fun p => hasTag "D" p = false /\ hasTag "N" p = false) participants.

(** What a pass over the matches [ms] has done to the result array: the
    length is kept, [k] matches between two real participants have appeared,
    the entrants [added] have moved in, and every other untouched match is
    still untouched. *)
Definition advance (result result' : slots) (ms : list nat)
    (added : list Participant) (k : nat) : Prop :=
  length result' = length result
  /\ playInMatchesIn result' = playInMatchesIn result + k
  /\ unseeded <$> occupants result'
       ≡ₚ (unseeded <$> added) ++ (unseeded <$> occupants result)
  /\ (forall m, m ∉ ms -> untouched result m -> untouched result' m).

(* ------------------------------------------------------------------ *)
(** ** The pairing engine, around [buildRound1] *)
(* ------------------------------------------------------------------ *)

Module pairingEngine.

(** The decimal string of a count, and of half a size: [bracketSize / 2] is a
    fraction for an odd size, which a template literal prints as [k.5]. *)
Definition showCount (n : nat) : string := pretty n.
Definition showHalf (n : nat) : string :=
  if Nat.even n then pretty (n / 2) else pretty (n / 2) +:+ ".5".

(** [p !== null && p !== undefined] *)
Definition isPresent (c : cell) : bool := negb (isNullCell c).

Definition assignByes (participants : slots) (bracketSize : nat) : slots :=
  let hasByes := existsb isByeCell participants in
  if hasByes then
    let result := replicate bracketSize None in
    let result :=
      foldl (fun res i => array_set None i (readSlot participants i) res)
        result (seq 0 (Nat.min (length participants) bracketSize)) in
    fillNulls bracketSize result
  else
    let actualParticipants := List.filter isPresent participants in
    if decide (length actualParticipants = bracketSize) then actualParticipants
    else
      let result := replicate bracketSize None in
      let result :=
        foldl (fun res i => array_set None i (readSlot actualParticipants i) res)
          result (seq 0 (length actualParticipants)) in
      foldl (fun res i => placeBye i res) result
        (seq (length actualParticipants)
           (bracketSize - length actualParticipants)).

Record Bracket := mkBracket {
  rounds : list Round;
  bracketSize : nat;
  participantCount : nat
}.

(** [participants.filter(p => !p.isBye)] reads a property of every cell, so a
    [null] cell makes it throw: [None] stands for the exception. *)
Definition buildBracketStructure (participants : slots) (size : nat)
    : option Bracket :=
  if existsb isNullCell participants then None
  else
    Some {| rounds := [buildRound1 participants];
            bracketSize := size;
            participantCount := realCount participants |}.

(** The [error] of a failure: a message of the function's own, or the message
    of an exception that its [catch] clause has caught. *)
Inductive ErrorMessage :=
| Message (text : string)
| CaughtException.

Record Generated := mkGenerated {
  bracket : Bracket;
  generatedSize : nat;
  generatedCount : nat;
  byeCount : nat
}.

Inductive BracketResult :=
| BracketFailure (error : ErrorMessage)
| BracketSuccess (g : Generated).

Definition noParticipantsProvided : string := "No participants provided".

Definition generateBracket (seededParticipants : slots) (size : nat)
    : BracketResult :=
  if length seededParticipants =? 0 then
    BracketFailure (Message noParticipantsProvided)
  else if negb (isAllowedSize size) then
    BracketFailure (Message invalidSizeError)
  else
    let participantsWithByes := assignByes seededParticipants size in
    match buildBracketStructure participantsWithByes size with
    | None => BracketFailure CaughtException
    | Some b =>
        BracketSuccess
          {| bracket := b;
             generatedSize := size;
             generatedCount := length (List.filter isPresent seededParticipants);
             byeCount := byeCells participantsWithByes |}
    end.

(** [{ ...match, roundNumber, roundName }] *)
Record FlatMatch := mkFlatMatch {
  flatMatch : Match;
  flatRoundNumber : nat;
  flatRoundName : string
}.

Definition getFlatMatchList (b : Bracket) : list FlatMatch :=
  r ← rounds b;
  (fun m => mkFlatMatch m (roundNumber r) (roundName r)) <$> matches r.

Record Validation := mkValidation {
  valid : bool;
  errors : list string
}.

(** [!m.player1 && !m.player2] *)
Definition isEmptyMatch (m : Match) : bool :=
  isNullCell (player1 m) && isNullCell (player2 m).

Definition validateBracket (b : Bracket) : Validation :=
  let errors :=
    if length (rounds b) =? 1 then []
    else ["Expected 1 round (Round 1 only), found "
          +:+ showCount (length (rounds b))] in
  let errors :=
    match rounds b !! 0 with
    | Some round1 =>
        let errors :=
          if decide (2 * length (matches round1) = bracketSize b) then errors
          else errors ++ ["Round 1: Expected " +:+ showHalf (bracketSize b)
                          +:+ " matches, found "
                          +:+ showCount (length (matches round1))] in
        let nullMatches := length (List.filter isEmptyMatch (matches round1)) in
        if 0 <? nullMatches then
          errors ++ ["Round 1: Found " +:+ showCount nullMatches
                     +:+ " empty matches"]
        else errors
    | None => errors
    end in
  {| valid := length errors =? 0; errors := errors |}.

Record BracketStats := mkBracketStats {
  statsSize : nat;
  statsParticipants : nat;
  totalRounds : nat;
  totalMatches : nat;
  completedMatches : nat;
  remainingMatches : nat;
  currentRound : nat
}.

(** [m.winner] as a condition *)
Definition hasWinner (m : Match) : bool := negb (isNullCell (winner m)).

Definition getBracketStats (b : Bracket) : BracketStats :=
  let round1 := rounds b !! 0 in
  let totalMatches :=
    match round1 with Some r => length (matches r) | None => 0 end in
  let completedMatches :=
    match round1 with
    | Some r => length (List.filter hasWinner (matches r))
    | None => 0
    end in
  {| statsSize := bracketSize b;
     statsParticipants := participantCount b;
     totalRounds := 1;
     totalMatches := totalMatches;
     completedMatches := completedMatches;
     remainingMatches := totalMatches - completedMatches;
     currentRound := 1 |}.

End pairingEngine.

(** The number of round-1 matches of a slot array that a BYE has decided. *)
Definition decided (s : slots) : nat :=
  length (List.filter pairingEngine.hasWinner (matches (buildRound1 s))).

(* ------------------------------------------------------------------ *)
(** ** The bracket placement engine *)
(* ------------------------------------------------------------------ *)

Module placementEngine.

(** The statistics of a placement by sections, and of a random one (whose
    [dayPlayers] and [nightPlayers] are 0 and [randomPlacement] is [true]). *)
Record SectionStats := mkSectionStats {
  dayPlayers : nat;
  nightPlayers : nat;
  dayMain : nat;
  dayOverflow : nat;
  nightMain : nat;
  nightOverflow : nat;
  nightSectionStart : nat;
  byeCount : Z
}.

Inductive Stats :=
| bySection (s : SectionStats)
| atRandom (byeCount : Z).

Record Placement := mkPlacement {
  placed : slots;
  participantCount : nat;
  bracketSize : nat;
  stats : Stats
}.

(** [result[cursor] = { ...players[offset + i], seed: cursor + 1 }; cursor++].
    The loops keep [offset + i] inside [players]. *)
Definition cursorStep (players : list Participant) (offset : nat)
    (st : nat * slots) (i : nat) : nat * slots :=
  let '(cursor, result) := st in
  match players !! (offset + i) with
  | Some p => (cursor + 1, place cursor p result)
  | None => (cursor + 1, result)
  end.

(** [const idx = nightSectionStart + i;
     result[idx] = { ...shuffledNight[i], seed: idx + 1 }] *)
Definition nightMainStep (shuffledNight : list Participant)
    (nightSectionStart : nat) (result : slots) (i : nat) : slots :=
  let idx := nightSectionStart + i in
  match shuffledNight !! i with
  | Some p => place idx p result
  | None => result
  end.

(** [const idx = nightSectionStart - 1 - i;
     result[idx] = { ...shuffledNight[nightMainCount + i], seed: idx + 1 }].
    A negative [idx] names a property of the array object, not a cell. *)
Definition nightOverflowStep (shuffledNight : list Participant)
    (nightMainCount nightSectionStart : nat) (result : slots) (i : nat)
    : slots :=
  let idx := (Z.of_nat nightSectionStart - 1 - Z.of_nat i)%Z in
  match shuffledNight !! (nightMainCount + i) with
  | Some p => if (idx <? 0)%Z then result else place (Z.to_nat idx) p result
  | None => result
  end.

Definition pureRandomPlacement (participants : list Participant)
    (bracketSize : nat) : Rand Placement :=
  shuffled <~ shuffle participants;
  let result := replicate bracketSize None in
  let result :=
    foldl (fun res i =>
             match shuffled !! i with
             | Some p => place i p res
             | None => res
             end)
      result (seq 0 (Nat.min (length shuffled) bracketSize)) in
  let result :=
    foldl (fun res i => placeBye i res) result
      (seq (length shuffled) (bracketSize - length shuffled)) in
  ret {| placed := result;
         participantCount := length participants;
         bracketSize := bracketSize;
         stats := atRandom (Z.of_nat bracketSize
                            - Z.of_nat (length participants)) |}.

(** [seedParticipants] calls this with a bracket size of 8 to 128, whose half
    is whole. *)
Definition placeByAvailability (participants : list Participant)
    (bracketSize : nat) : Rand Placement :=
  let dayPlayers := dayOf participants in
  let nightPlayers := nightOf participants in
  let hasAvailability :=
    (0 <? length dayPlayers) || (0 <? length nightPlayers) in
  if negb hasAvailability then pureRandomPlacement participants bracketSize
  else
    let halfSize := bracketSize / 2 in
    let totalPlayers := length dayPlayers + length nightPlayers in
    let byeCount := (Z.of_nat bracketSize - Z.of_nat totalPlayers)%Z in
    shuffledDay <~ shuffle dayPlayers;
    shuffledNight <~ shuffle nightPlayers;
    let result := replicate bracketSize None in
    let dayOverflowCount := length dayPlayers - halfSize in
    let nightOverflowCount := length nightPlayers - halfSize in
    let dayMainCount := Nat.min (length dayPlayers) halfSize in
    let nightMainCount := Nat.min (length nightPlayers) halfSize in
    let '(cursor, result) :=
      foldl (cursorStep shuffledDay 0) (0, result) (seq 0 dayMainCount) in
    let '(cursor, result) :=
      foldl (cursorStep shuffledDay dayMainCount) (cursor, result)
        (seq 0 dayOverflowCount) in
    let nightSectionStart :=
      if 0 <? dayOverflowCount then bracketSize - nightMainCount
      else halfSize in
    let result :=
      foldl (nightMainStep shuffledNight nightSectionStart) result
        (seq 0 nightMainCount) in
    let result :=
      foldl (nightOverflowStep shuffledNight nightMainCount nightSectionStart)
        result (seq 0 nightOverflowCount) in
    let result := fillNulls bracketSize result in
    ret {| placed := result;
           participantCount := length participants;
           bracketSize := bracketSize;
           stats := bySection
             {| dayPlayers := length dayPlayers;
                nightPlayers := length nightPlayers;
                dayMain := dayMainCount;
                dayOverflow := dayOverflowCount;
                nightMain := nightMainCount;
                nightOverflow := nightOverflowCount;
                nightSectionStart := nightSectionStart;
                byeCount := byeCount |} |}.

Inductive SeedResult :=
| SeedFailure (error : string)
| SeedSuccess (r : Placement).

Definition noParticipantsError : string := "No participants to place".

Definition seedParticipants (participants : list Participant)
    (bracketSize : nat) : Rand SeedResult :=
  if length participants =? 0 then ret (SeedFailure noParticipantsError)
  else if (bracketSize =? 0) || negb (isAllowedSize bracketSize) then
    ret (SeedFailure invalidSizeError)
  else
    result <~ placeByAvailability participants bracketSize;
    ret (SeedSuccess result).

End placementEngine.

(** The layout of a section: the players in a row from position [pos] (0-based)
    on, or upward from position [top - 1], each with the seed of its
    position; and a row of BYEs. *)
Definition seat (pos : nat) (players : list Participant) : slots :=
  imap (fun i p => Some (withSeed p (pos + i + 1))) players.
Definition seatUpward (top : nat) (players : list Participant) : slots :=
  reverse (imap (fun i p => Some (withSeed p (top - i))) players).
Definition byes (k : nat) : slots := replicate k (Some createBye).

(** What the closing loop of a placement makes of a cell. *)
Definition fillCell (c : cell) : cell :=
  match c with
  | Some p => Some p
  | None => Some createBye
  end.

Definition threeDayFiveNight : list Participant :=
  [entrant "Ada" (Some "D"); entrant "Bo" (Some "N"); entrant "Cy" (Some "N");
   entrant "Di" (Some "D"); entrant "Ed" (Some "N"); entrant "Flo" (Some "N");
   entrant "Gus" (Some "D"); entrant "Hal" (Some "N")].

(* ------------------------------------------------------------------ *)
(** ** Entry validation: the handicap range of a class *)
(* ------------------------------------------------------------------ *)

Module validation.

(** The message [`Handicap ${handicap} out of range for ${range}`], kept as
    its two parts: the handicap and the text that names the class and its
    range. *)
Inductive RangeError :=
| OutOfRange (handicap : number) (range : string).

(** [if (test) return message], inside a branch that a class label selects. *)
Definition report (test : bool) (handicap : number) (range : string)
    : option RangeError :=
  if test then Some (OutOfRange handicap range) else None.

Local Open Scope float_scope.

(** [event.name] is the only property of the event that the function reads. *)
Definition validateHandicapRange (handicap : number) (name : string)
    : option RangeError :=
  let eventName := handicapRounding.toLowerCase name in
  let has := handicapRounding.includes eventName in
  let courtTennis :=
    if has "court tennis" then
      if has "first class" then
        report (num_lt handicap 0 || num_gt handicap 10) handicap
          "First Class (0-10)"
      else if has "class 1" then
        report (num_lt handicap 10 || num_gt handicap 20) handicap
          "Class 1 (10-20)"
      else if has "class 2" then
        report (num_lt handicap 20 || num_gt handicap 30) handicap
          "Class 2 (20-30)"
      else if has "class 3" then
        report (num_lt handicap 30 || num_gt handicap 40) handicap
          "Class 3 (30-40)"
      else if has "class 4" then
        report (num_lt handicap 40 || num_gt handicap 50) handicap
          "Class 4 (40-50)"
      else if has "class 5" then
        report (num_lt handicap 50) handicap "Class 5 (50+)"
      else if has "120 doubles" then None
      else None
    else None in
  match courtTennis with
  | Some message => Some message
  | None =>
      if has "racquets" then
        if has "championship" then
          report (num_lt handicap 0 || num_gt handicap 15) handicap
            "Championship (0-15)"
        else if has "class 1" then
          report (num_lt handicap 15 || num_gt handicap 30) handicap
            "Class 1 (15-30)"
        else if has "class 2" then
          report (num_lt handicap 30 || num_gt handicap 45) handicap
            "Class 2 (30-45)"
        else if has "class 3" then
          report (num_lt handicap 45) handicap "Class 3 (45+)"
        else None
      else None
  end.

End validation.

(** The ranges that the messages of [validateHandicapRange] name: the text,
    the lower end and the upper end, if there is one. *)
Definition namedRanges : list (string * number * option number) :=
  [("First Class (0-10)", 0%float, Some 10%float);
   ("Class 1 (10-20)", 10%float, Some 20%float);
   ("Class 2 (20-30)", 20%float, Some 30%float);
   ("Class 3 (30-40)", 30%float, Some 40%float);
   ("Class 4 (40-50)", 40%float, Some 50%float);
   ("Class 5 (50+)", 50%float, None);
   ("Championship (0-15)", 0%float, Some 15%float);
   ("Class 1 (15-30)", 15%float, Some 30%float);
   ("Class 2 (30-45)", 30%float, Some 45%float);
   ("Class 3 (45+)", 45%float, None)].

(** [handicap] lies outside the range from [lo] to [hi]. *)
Definition outsideRange (handicap lo : number) (hi : option number) : Prop :=
  num_lt handicap lo = true
  \/ match hi with
     | Some hi => num_gt handicap hi = true
     | None => False
     end.

(* ================================================================== *)
(** * Part II: properties *)
(* ================================================================== *)

(** ** The pairing engine *)

Section Pairing.

Implicit Types (ps : list Participant) (s : slots).

Lemma readSlot_Some ps i p :
  ps !! i = Some p -> readSlot (Some <$> ps) i = Some p.
Proof.
  intros H. unfold readSlot. by rewrite list_lookup_fmap, H.
Qed.

Lemma buildRound1_length s :
  length (matches (buildRound1 s)) = (length s + 1) / 2.
Proof. unfold buildRound1; simpl. by rewrite length_map, length_seq. Qed.

Lemma buildRound1_lookup s i :
  2 * i < length s ->
  matches (buildRound1 s) !! i = Some (buildMatch s i).
Proof.
  intros Hi. unfold buildRound1; simpl.
  rewrite list_lookup_fmap.
  assert (Hlt : i < (length s + 1) / 2).
  { unfold lt. apply Nat.div_le_lower_bound; lia. }
  rewrite lookup_seq_lt by exact Hlt. done.
Qed.

End Pairing.

(** C3, as the code has it.  [buildRound1] pairs slot [2i] with slot [2i+1]
    into match [i+1], one match per pair.  The winner is the non-BYE side
    when exactly one side is a BYE and is null when neither side is a BYE;
    when both sides are BYEs the winner is the BYE of slot [2i], not null. *)
Theorem buildRound1_winner (ps : list Participant) (k : nat) :
  length ps = 2 * k ->
  length (matches (buildRound1 (Some <$> ps))) = k
  /\ forall i p1 p2,
       ps !! (2 * i) = Some p1 -> ps !! (2 * i + 1) = Some p2 ->
       exists m,
         matches (buildRound1 (Some <$> ps)) !! i = Some m
         /\ matchNumber m = i + 1
         /\ player1 m = Some p1 /\ player2 m = Some p2
         /\ (isBye p1 = false -> isBye p2 = true -> winner m = Some p1)
         /\ (isBye p1 = true -> isBye p2 = false -> winner m = Some p2)
         /\ (isBye p1 = false -> isBye p2 = false -> winner m = None)
         /\ (isBye p1 = true -> isBye p2 = true -> winner m = Some p1).
Proof.
  intros Hlen. split.
  - rewrite buildRound1_length, length_fmap, Hlen.
    replace (2 * k + 1) with (1 + k * 2) by lia.
    by rewrite Nat.div_add.
  - intros i p1 p2 H1 H2.
    exists (buildMatch (Some <$> ps) i).
    assert (Hi : 2 * i < length (Some <$> ps)).
    { rewrite length_fmap. apply lookup_lt_Some in H1. lia. }
    split; [by apply buildRound1_lookup|].
    unfold buildMatch; simpl.
    replace (i * 2) with (2 * i) by lia.
    rewrite (readSlot_Some _ _ _ H1), (readSlot_Some _ _ _ H2).
    repeat split; try done; intros -> ->; done.
Qed.

(** In a bracket of eight that opens with Ada and a BYE, there are four
    matches and Ada wins the first. *)
Lemma buildRound1_winner_witness :
  length (matches (buildRound1 (Some <$> loneEntrantSlots))) = 4
  /\ exists m,
       matches (buildRound1 (Some <$> loneEntrantSlots)) !! 0 = Some m
       /\ winner m = Some (withSeed (entrant "Ada" None) 1).
Proof.
  destruct (buildRound1_winner loneEntrantSlots 4 eq_refl) as [Hn Hm].
  split; [exact Hn|].
  destruct (Hm 0 (withSeed (entrant "Ada" None) 1) createBye eq_refl eq_refl)
    as (m & Hlook & _ & _ & _ & Hw & _).
  exists m. split; [exact Hlook|]. apply Hw; reflexivity.
Defined.

(** C3 as stated fails: in the slot array [Ada, BYE, BYE, BYE, ...] match 2
    has a BYE on both sides and its winner is that BYE, not null. *)
Lemma buildRound1_both_bye_not_null :
  exists m,
    matches (buildRound1 (Some <$> loneEntrantSlots)) !! 1 = Some m
    /\ isByeCell (player1 m) = true /\ isByeCell (player2 m) = true
    /\ winner m = Some createBye /\ winner m <> None.
Proof.
  eexists. split; [reflexivity|]. simpl. repeat split; done.
Qed.

(** ** Comparisons of binary64 numbers *)

Section NumberFacts.

Lemma compare_cont_spec m n :
  CompareSpec (m = n) (m < n)%positive (n < m)%positive
    (PosDef.Pos.compare_cont Eq m n).
Proof. exact (Pos.compare_spec m n). Qed.

Lemma SFltb_trans x y z :
  SFltb x y = true -> SFltb y z = true -> SFltb x z = true.
Proof.
  unfold SFltb, SFcompare.
  destruct x as [sx|sx| |sx mx ex], y as [sy|sy| |sy my ey],
    z as [sz|sz| |sz mz ez]; try discriminate;
    repeat match goal with s : bool |- _ => destruct s end;
    try discriminate; try reflexivity;
    destruct (Z.compare_spec ex ey), (Z.compare_spec ey ez),
      (Z.compare_spec ex ez); try lia; try discriminate; try reflexivity;
    destruct (compare_cont_spec mx my), (compare_cont_spec my mz),
      (compare_cont_spec mx mz); simpl; try lia; try discriminate;
      try reflexivity.
Qed.

Lemma SFltb_not_SFleb x y : SFltb x y = true -> SFleb y x = false.
Proof.
  unfold SFltb, SFleb, SFcompare.
  destruct x as [sx|sx| |sx mx ex], y as [sy|sy| |sy my ey];
    try discriminate;
    repeat match goal with s : bool |- _ => destruct s end;
    try discriminate; try reflexivity;
    destruct (Z.compare_spec ex ey), (Z.compare_spec ey ex);
    try lia; try discriminate; try reflexivity;
    destruct (compare_cont_spec mx my), (compare_cont_spec my mx);
    simpl; try lia; try discriminate; try reflexivity.
Qed.

Lemma SFeqb_finite x s m e :
  SFeqb x (S754_finite s m e) = true -> x = S754_finite s m e.
Proof.
  unfold SFeqb, SFcompare.
  destruct x as [sx|sx| |sx mx ex]; try discriminate;
    try (destruct s; discriminate); try (destruct sx; discriminate).
  destruct sx, s; try discriminate;
    destruct (Z.compare_spec ex e); try discriminate;
    destruct (compare_cont_spec mx m); try discriminate; simpl;
    try discriminate; intros _; subst; reflexivity.
Qed.

Lemma num_lt_trans a b c :
  num_lt a b = true -> num_lt b c = true -> num_lt a c = true.
Proof. unfold num_lt. rewrite !ltb_spec. apply SFltb_trans. Qed.

Lemma num_lt_not_ge a b : num_lt a b = true -> num_ge a b = false.
Proof. unfold num_lt, num_ge. rewrite ltb_spec, leb_spec. apply SFltb_not_SFleb. Qed.

Lemma num_eq_zero_not_ge60 d :
  num_eq d 0%float = true -> num_ge d 60%float = false.
Proof.
  unfold num_eq, num_ge. rewrite FloatAxioms.eqb_spec, leb_spec.
  set (z := Prim2SF 0). vm_compute in z. subst z.
  set (c := Prim2SF 60). vm_compute in c. subst c.
  destruct (Prim2SF d) as [s|s| |s m e]; try discriminate; try reflexivity;
    destruct s; discriminate.
Qed.

Lemma num_pos_not_zero d : num_lt 0%float d = true -> num_eq d 0%float = false.
Proof.
  unfold num_eq, num_lt. rewrite FloatAxioms.eqb_spec, ltb_spec.
  set (z := Prim2SF 0). vm_compute in z. subst z.
  destruct (Prim2SF d) as [s|s| |s m e]; try discriminate; try reflexivity;
    destruct s; try discriminate; reflexivity.
Qed.

(** A number that equals an integer-valued finite float is an integer. *)
Lemma num_eq_integer d k :
  match Prim2SF k with S754_finite _ _ _ => isInteger k | _ => false end = true ->
  num_eq d k = true -> isInteger d = true.
Proof.
  unfold num_eq, isInteger. rewrite FloatAxioms.eqb_spec.
  destruct (Prim2SF k) as [s|s| |s m e] eqn:Hk; try discriminate.
  intros Hint Heq. by rewrite (SFeqb_finite _ _ _ _ Heq).
Qed.

End NumberFacts.

(** ** The team handicap calculator *)

Section TeamHandicap.

Import teamHandicap.
Local Open Scope float_scope.

Lemma find_all_false {A} (f : A -> bool) (l : list A) :
  Forall (fun x => f x = false) l -> List.find f l = None.
Proof. induction 1 as [|x l Hx _ IH]; simpl; [done|]. by rewrite Hx. Qed.

(** Every key of the table is an integer-valued finite float. *)
Lemma table_keys_integer :
  Forall (fun kv =>
            match Prim2SF (num_of_Z (fst kv)) with
            | S754_finite _ _ _ => isInteger (num_of_Z (fst kv))
            | _ => false
            end = true) ADJUSTMENT_TABLE.
Proof. unfold ADJUSTMENT_TABLE. repeat constructor. Qed.

Lemma tableLookup_non_integer d : isInteger d = false -> tableLookup d = None.
Proof.
  intros Hd. unfold tableLookup.
  rewrite find_all_false; [done|].
  eapply Forall_impl; [exact table_keys_integer|].
  intros kv Hk; simpl in *.
  destruct (num_eq d (num_of_Z (fst kv))) eqn:Heq; [|done].
  rewrite (num_eq_integer _ _ Hk Heq) in Hd. discriminate.
Qed.

(** Looking up the integers 1 to 60 yields the entry stored under them. *)
Lemma factor_of_key :
  Forall (fun k => tableEntry k = Some (getAdjustmentFactor (num_of_Z k)))
    (Z.of_nat <$> seq 1 60).
Proof.
  set (l := Z.of_nat <$> seq 1 60). vm_compute in l. subst l.
  repeat (constructor; [vm_compute; reflexivity|]). constructor.
Qed.

Lemma factor_of_key_at k :
  (1 <= k <= 60)%Z -> tableEntry k = Some (getAdjustmentFactor (num_of_Z k)).
Proof.
  intros Hk. pose proof factor_of_key as H.
  rewrite Forall_forall in H. apply H.
  apply list_elem_of_fmap. exists (Z.to_nat k). split; [lia|].
  apply elem_of_seq. lia.
Qed.

Lemma getAdjustmentFactor_fallback d :
  num_lt 0 d = true -> num_lt d 60 = true -> isInteger d = false ->
  getAdjustmentFactor d = 12.0.
Proof.
  intros Hpos Hlt Hint. unfold getAdjustmentFactor.
  rewrite (num_pos_not_zero _ Hpos), (num_lt_not_ge _ _ Hlt).
  by rewrite (tableLookup_non_integer _ Hint).
Qed.

(** The self-check of the source, [validateAlgorithm], passes. *)
Lemma validateAlgorithm_passes : validateAlgorithm = true.
Proof. by vm_compute. Qed.

End TeamHandicap.

(** C8.  A player's effective handicap is the minimum of singles and doubles
    when both exist, else whichever exists.  For two players with an effective
    handicap each, [calculateTeamHandicap] succeeds with
    [difference = |a - b|] and [teamHandicap = min(a, b) + adjustment], where
    the adjustment is 0 for a difference of 0, the table entry for the integer
    differences 1 to 59, and 12.0 from 60 up; handicaps 32 and 45 give
    difference 13, adjustment 3.8 and team handicap 35.8; a player with
    neither handicap makes the call return a failure result. *)
Theorem calculateTeamHandicap_spec :
  (forall player,
     let singles := teamHandicap.nullish (teamHandicap.singlesHCAP player)
                      (teamHandicap.singlesHandicap player) in
     let doubles := teamHandicap.nullish (teamHandicap.doublesHCAP player)
                      (teamHandicap.doublesHandicap player) in
     teamHandicap.getPlayerEffectiveHandicap player =
       match singles, doubles with
       | Some s, Some d => Some (Math_min s d)
       | Some s, None => Some s
       | None, Some d => Some d
       | None, None => None
       end)
  /\ (forall playerA playerB a b,
        teamHandicap.getPlayerEffectiveHandicap playerA = Some a ->
        teamHandicap.getPlayerEffectiveHandicap playerB = Some b ->
        exists r,
          teamHandicap.calculateTeamHandicap playerA playerB
            = teamHandicap.TeamSuccess r
          /\ teamHandicap.difference r = Math_abs (PrimFloat.sub a b)
          /\ teamHandicap.teamHandicap r
               = PrimFloat.add (Math_min a b) (teamHandicap.adjustment r)
          /\ (num_eq (teamHandicap.difference r) 0%float = true ->
              teamHandicap.adjustment r = 0%float)
          /\ (forall k, (1 <= k <= 59)%Z ->
                teamHandicap.difference r = num_of_Z k ->
                tableEntry k = Some (teamHandicap.adjustment r))
          /\ (num_ge (teamHandicap.difference r) 60%float = true ->
              teamHandicap.adjustment r = 12.0%float))
  /\ (forall playerA playerB,
        teamHandicap.getPlayerEffectiveHandicap playerA = None
        \/ teamHandicap.getPlayerEffectiveHandicap playerB = None ->
        exists error handicapA handicapB,
          teamHandicap.calculateTeamHandicap playerA playerB
            = teamHandicap.TeamFailure error handicapA handicapB)
  /\ (exists r,
        teamHandicap.calculateTeamHandicap
          (teamHandicap.mkPlayer None None (Some 32%float) None)
          (teamHandicap.mkPlayer (Some 45%float) None None None)
          = teamHandicap.TeamSuccess r
        /\ teamHandicap.difference r = 13%float
        /\ teamHandicap.adjustment r = 3.8%float
        /\ teamHandicap.teamHandicap r = 35.8%float).
Proof.
  split; [|split; [|split]].
  - intros [s1 s2 d1 d2]; simpl.
    unfold teamHandicap.getPlayerEffectiveHandicap; simpl.
    by destruct (teamHandicap.nullish s1 s2), (teamHandicap.nullish d1 d2).
  - intros playerA playerB a b Ha Hb.
    unfold teamHandicap.calculateTeamHandicap. rewrite Ha, Hb.
    eexists. split; [reflexivity|]. simpl.
    split; [done|]. split; [done|].
    unfold teamHandicap.getAdjustmentFactor at 1 3.
    split; [by intros ->|]. split.
    + intros k Hk ->. apply factor_of_key_at. lia.
    + intros Hge.
      destruct (num_eq (Math_abs (PrimFloat.sub a b)) 0%float) eqn:Hz.
      * by rewrite (num_eq_zero_not_ge60 _ Hz) in Hge.
      * by rewrite Hge.
  - intros playerA playerB Hnone.
    unfold teamHandicap.calculateTeamHandicap.
    destruct Hnone as [-> | ->];
      [|destruct (teamHandicap.getPlayerEffectiveHandicap playerA)];
      by repeat eexists.
  - eexists. split; [reflexivity|]. by vm_compute.
Qed.

(** C10.  A difference strictly between 0 and 60 that is not an integer is
    not a key of the adjustment table, so [getAdjustmentFactor] falls back to
    12.0; hence two effective handicaps that differ by such an amount get the
    maximum adjustment from [calculateTeamHandicap]. *)
Theorem getAdjustmentFactor_non_integer (d : number) :
  num_lt 0%float d = true -> num_lt d 60%float = true -> isInteger d = false ->
  teamHandicap.getAdjustmentFactor d = 12.0%float
  /\ forall playerA playerB a b,
       teamHandicap.getPlayerEffectiveHandicap playerA = Some a ->
       teamHandicap.getPlayerEffectiveHandicap playerB = Some b ->
       Math_abs (PrimFloat.sub a b) = d ->
       exists r,
         teamHandicap.calculateTeamHandicap playerA playerB
           = teamHandicap.TeamSuccess r
         /\ teamHandicap.adjustment r = 12.0%float
         /\ teamHandicap.teamHandicap r
              = PrimFloat.add (Math_min a b) 12.0%float.
Proof.
  intros Hpos Hlt Hint.
  pose proof (getAdjustmentFactor_fallback d Hpos Hlt Hint) as Hf.
  split; [exact Hf|].
  intros playerA playerB a b Ha Hb Hd.
  unfold teamHandicap.calculateTeamHandicap. rewrite Ha, Hb.
  eexists. split; [reflexivity|]. simpl. rewrite Hd, Hf. done.
Qed.

(** A difference of 13.5, as between handicaps 32 and 45.5, is adjusted by
    12.0, which gives a team handicap of 44. *)
Lemma getAdjustmentFactor_non_integer_witness :
  teamHandicap.getAdjustmentFactor 13.5%float = 12.0%float
  /\ exists r,
       teamHandicap.calculateTeamHandicap
         (teamHandicap.mkPlayer (Some 32%float) None None None)
         (teamHandicap.mkPlayer None None (Some 45.5%float) None)
         = teamHandicap.TeamSuccess r
       /\ teamHandicap.adjustment r = 12.0%float
       /\ teamHandicap.teamHandicap r = 44%float.
Proof.
  destruct (getAdjustmentFactor_non_integer 13.5%float eq_refl eq_refl eq_refl)
    as [Hf Hc].
  split; [exact Hf|].
  destruct (Hc (teamHandicap.mkPlayer (Some 32%float) None None None)
              (teamHandicap.mkPlayer None None (Some 45.5%float) None)
              32%float 45.5%float eq_refl eq_refl eq_refl)
    as (r & Hr & Hadj & Hteam).
  exists r. split; [exact Hr|]. split; [exact Hadj|]. exact Hteam.
Defined.

(** ** The handicap class rounder *)

Section ClassRounding.

Import handicapRounding.
Local Open Scope float_scope.

Lemma getEventClassBounds_Some eventName b :
  getEventClassBounds eventName = Some b ->
  b ∈ classBounds
  /\ exists key, In (key, Some b) CLASS_BOUNDS
                 /\ includes (toLowerCase eventName) key = true.
Proof.
  unfold getEventClassBounds.
  destruct (String.eqb eventName ""); [done|].
  destruct (_ || _); [done|].
  destruct (List.find _ CLASS_BOUNDS) as [[key ob]|] eqn:Hfind; [|done].
  simpl. intros ->.
  apply find_some in Hfind as [Hin Hinc]. simpl in Hinc.
  split; [|by exists key].
  unfold CLASS_BOUNDS, bounds in Hin. simpl in Hin.
  unfold classBounds.
  repeat (destruct Hin as [Hin|Hin];
          [inversion Hin; subst; apply list_elem_of_In; simpl; tauto|]).
  done.
Qed.

(** In each class the cap does not lie below the floor. *)
Lemma classBounds_ordered b hi lo :
  b ∈ classBounds -> max b = Some hi -> min b = Some lo ->
  num_lt hi lo = false.
Proof.
  unfold classBounds. intros Hb Hhi Hlo.
  repeat (apply elem_of_cons in Hb as [->|Hb];
          [simpl in *; simplify_eq; by vm_compute|]).
  by apply elem_of_nil in Hb.
Qed.

End ClassRounding.

(** C9.  The rounder returns the handicap unchanged when it is negative or
    at most 19, whatever the class, and when the event name resolves to no
    bounds.  Otherwise the bounds are those of a class label contained in the
    lower-cased event name, and the handicap is capped at the class maximum
    when above it, raised to the class minimum when below it, and unchanged
    in between.  In particular 45 in "3rd Class" gives 39, 15 in "3rd Class"
    gives 15, and 10 in "Club Championship" gives 10. *)
Theorem roundForEvent_policy (h : number) (eventName : string) :
  (num_lt h 0%float = true \/ num_le h 19%float = true ->
   handicapRounding.roundForEvent h eventName = h)
  /\ (handicapRounding.getEventClassBounds eventName = None ->
      handicapRounding.roundForEvent h eventName = h)
  /\ (forall b,
        handicapRounding.getEventClassBounds eventName = Some b ->
        (exists key,
           In (key, Some b) handicapRounding.CLASS_BOUNDS
           /\ handicapRounding.includes
                (handicapRounding.toLowerCase eventName) key = true)
        /\ (num_lt h 0%float = false -> num_le h 19%float = false ->
            (forall hi, handicapRounding.max b = Some hi ->
                        num_gt h hi = true ->
                        handicapRounding.roundForEvent h eventName = hi)
            /\ (forall lo, handicapRounding.min b = Some lo ->
                           num_lt h lo = true ->
                           handicapRounding.roundForEvent h eventName = lo)
            /\ ((forall hi, handicapRounding.max b = Some hi ->
                            num_gt h hi = false) ->
                (forall lo, handicapRounding.min b = Some lo ->
                            num_lt h lo = false) ->
                handicapRounding.roundForEvent h eventName = h)))
  /\ handicapRounding.roundForEvent 45%float "3rd Class" = 39%float
  /\ handicapRounding.roundForEvent 15%float "3rd Class" = 15%float
  /\ handicapRounding.roundForEvent 10%float "Club Championship" = 10%float.
Proof.
  unfold handicapRounding.roundForEvent.
  split; [|split; [|split; [|by vm_compute]]].
  - intros Hlow. unfold handicapRounding.roundHandicapForClass.
    destruct (handicapRounding.getEventClassBounds eventName); [|done].
    destruct Hlow as [-> | ->]; [done|]. by destruct (num_lt h 0%float).
  - by intros ->.
  - intros b Hb. rewrite Hb.
    apply getEventClassBounds_Some in Hb as [Hb Hkey].
    split; [exact Hkey|].
    intros Hneg Hlow. unfold handicapRounding.roundHandicapForClass.
    rewrite Hneg, Hlow.
    split; [|split].
    + intros hi Hhi Hgt. rewrite Hhi, Hgt.
      destruct (handicapRounding.min b) as [lo|] eqn:Hlo; [|done].
      by rewrite (classBounds_ordered b hi lo Hb Hhi Hlo).
    + intros lo Hlo Hlt. rewrite Hlo.
      destruct (handicapRounding.max b) as [hi|] eqn:Hhi; [|by rewrite Hlt].
      destruct (num_gt h hi) eqn:Hgt; [|by rewrite Hlt].
      unfold num_gt in Hgt.
      pose proof (num_lt_trans _ _ _ Hgt Hlt) as Hbad.
      by rewrite (classBounds_ordered b hi lo Hb Hhi Hlo) in Hbad.
    + intros Hmax Hmin.
      destruct (handicapRounding.max b) as [hi|] eqn:Hhi;
        [rewrite (Hmax hi eq_refl)|];
        (destruct (handicapRounding.min b) as [lo|] eqn:Hlo;
         [by rewrite (Hmin lo eq_refl)|done]).
Qed.

(** ** The shuffle *)

Section Shuffle.

Context {A : Type}.
Implicit Types (arr : list A) (t : tape).

Lemma transpose_inj i j : Inj eq eq (transpose i j).
Proof.
  intros a b. unfold transpose. repeat case_decide; congruence.
Qed.

Lemma swap_lookup i j arr k :
  i < length arr -> j < length arr ->
  swap i j arr !! k = arr !! transpose j i k.
Proof.
  intros Hi Hj. unfold swap, transpose.
  destruct (lookup_lt_is_Some_2 arr i Hi) as [x Hx].
  destruct (lookup_lt_is_Some_2 arr j Hj) as [y Hy].
  rewrite Hx, Hy.
  destruct (decide (k = j)) as [->|Hkj].
  - rewrite list_lookup_insert_eq by (by rewrite length_insert). done.
  - rewrite list_lookup_insert_ne by done.
    destruct (decide (k = i)) as [->|Hki].
    + by rewrite list_lookup_insert_eq.
    + by rewrite list_lookup_insert_ne.
Qed.

Lemma swap_length i j arr : length (swap i j arr) = length arr.
Proof.
  unfold swap. destruct (arr !! i), (arr !! j); try done.
  by rewrite !length_insert.
Qed.

Lemma swap_perm i j arr : swap i j arr ≡ₚ arr.
Proof.
  destruct (decide (i < length arr)) as [Hi|Hi];
    [destruct (decide (j < length arr)) as [Hj|Hj]|].
  - apply Permutation_inj. split; [apply swap_length|].
    exists (transpose j i). split; [apply transpose_inj|].
    intros k. by apply swap_lookup.
  - unfold swap. rewrite (lookup_ge_None_2 arr j) by lia.
    by destruct (arr !! i).
  - unfold swap. by rewrite (lookup_ge_None_2 arr i) by lia.
Qed.

Lemma shuffle_from_perm i arr t : (shuffle_from i arr t).1 ≡ₚ arr.
Proof.
  revert arr t. induction i as [|i IH]; intros arr t; simpl; [done|].
  unfold bind. destruct (randomBelow _ t) as [j t'].
  etrans; [apply IH | apply swap_perm].
Qed.

(** The shuffled array is a permutation of the input, whatever the tape. *)
Lemma shuffle_perm arr t : (shuffle arr t).1 ≡ₚ arr.
Proof. apply shuffle_from_perm. Qed.

Lemma shuffle_length arr t : length (shuffle arr t).1 = length arr.
Proof. by rewrite shuffle_perm. Qed.

End Shuffle.

(** ** Filling the bracket *)

Lemma foldl_invariant {S X} (I : S -> Prop) (P : X -> Prop) (f : S -> X -> S)
    (l : list X) (s : S) :
  (forall s x, P x -> I s -> I (f s x)) -> Forall P l -> I s -> I (foldl f s l).
Proof.
  intros Hstep Hl. revert s.
  induction Hl as [|x l Hx _ IH]; intros s Hs; simpl; [done|].
  apply IH. by apply Hstep.
Qed.

Lemma slice_to_Forall {A} (P : A -> Prop) k (l : list A) :
  Forall P l -> Forall P (slice_to k l).
Proof. apply Forall_take. Qed.

Lemma slice_from_Forall {A} (P : A -> Prop) k (l : list A) :
  Forall P l -> Forall P (slice_from k l).
Proof. apply Forall_drop. Qed.

Lemma filter_Forall_elem {A} (f : A -> bool) (l : list A) :
  Forall (fun x => x ∈ l) (List.filter f l).
Proof.
  apply Forall_forall. intros x Hx.
  apply list_elem_of_In in Hx. apply filter_In in Hx as [Hx _].
  by apply list_elem_of_In.
Qed.

Section Filling.

Variable participants : list Participant.
Variable bracketSize : nat.

Implicit Types (result : slots) (group : list Participant) (c : cell).

Local Abbreviation ok := (filling participants bracketSize).
Local Abbreviation known := (Forall (fun q => q ∈ participants)).

Lemma filling_set pos c result :
  pos < bracketSize -> cellFrom participants pos c ->
  ok result -> ok (array_set None pos c result).
Proof.
  intros Hpos Hc [Hlen Hseed]. unfold array_set.
  rewrite decide_True by lia.
  split; [by rewrite length_insert|].
  intros i c' Hi.
  destruct (decide (i = pos)) as [->|Hne].
  - rewrite list_lookup_insert_eq in Hi by lia. by simplify_eq.
  - rewrite list_lookup_insert_ne in Hi by done. by apply Hseed.
Qed.

Lemma place_filling pos q result :
  pos < bracketSize -> q ∈ participants -> ok result -> ok (place pos q result).
Proof.
  intros Hpos Hq. apply filling_set; [done|]. right. by exists q.
Qed.

Lemma placeBye_filling pos result :
  pos < bracketSize -> ok result -> ok (placeBye pos result).
Proof. intros Hpos. apply filling_set; [done|]. by left. Qed.

Lemma filling_empty : ok (replicate bracketSize None).
Proof.
  split; [apply length_replicate|].
  intros i c Hi. apply lookup_replicate in Hi as [-> _]. done.
Qed.

Lemma playInStep_filling base group st slot :
  known group -> base + slot * 2 + 1 < bracketSize ->
  ok st.2 -> ok (playInStep base group st slot).2.
Proof.
  intros Hgroup Hslot. destruct st as [idx result]; simpl. intros Hok.
  rewrite Forall_lookup in Hgroup.
  destruct (group !! idx) as [p|] eqn:Hp.
  - assert (Hok1 : ok (place (base + slot * 2) p result)).
    { apply place_filling; [lia|by eapply Hgroup|done]. }
    destruct (group !! (idx + 1)) as [p'|] eqn:Hp'; simpl; [|done].
    apply place_filling; [lia|by eapply Hgroup|done].
  - by rewrite Hp.
Qed.

Lemma placePlayInMatches_filling base matchSlots group result :
  known group ->
  Forall (fun slot => base + slot * 2 + 1 < bracketSize) matchSlots ->
  ok result -> ok (placePlayInMatches base matchSlots group result).
Proof.
  intros Hgroup Hslots Hok. unfold placePlayInMatches.
  apply (foldl_invariant (fun st => ok st.2)
           (fun slot => base + slot * 2 + 1 < bracketSize)); [|done..].
  intros st slot Hslot. by apply playInStep_filling.
Qed.

Lemma byeStep_filling base group st slot :
  known group -> base + slot * 2 + 1 < bracketSize ->
  ok st.2 -> ok (byeStep base group st slot).2.
Proof.
  intros Hgroup Hslot. destruct st as [idx result]; simpl. intros Hok.
  rewrite Forall_lookup in Hgroup.
  destruct (group !! idx) as [p|] eqn:Hp; simpl.
  - apply placeBye_filling; [lia|].
    apply place_filling; [lia|by eapply Hgroup|done].
  - apply placeBye_filling; [lia|]. apply placeBye_filling; [lia|done].
Qed.

Lemma placeByeMatches_filling base matchSlots group result :
  known group ->
  Forall (fun slot => base + slot * 2 + 1 < bracketSize) matchSlots ->
  ok result -> ok (placeByeMatches base matchSlots group result).
Proof.
  intros Hgroup Hslots Hok. unfold placeByeMatches.
  apply (foldl_invariant (fun st => ok st.2)
           (fun slot => base + slot * 2 + 1 < bracketSize)); [|done..].
  intros st slot Hslot. by apply byeStep_filling.
Qed.

Lemma fillNulls_filling result : ok result -> ok (fillNulls bracketSize result).
Proof.
  intros [Hlen Hseed]. unfold fillNulls.
  split; [by rewrite length_imap|].
  intros i c Hi. rewrite list_lookup_imap in Hi.
  destruct (result !! i) as [[p|]|] eqn:Hri; simpl in Hi; simplify_eq.
  - by apply (Hseed i (Some p)).
  - case_decide; [by left|done].
Qed.

(** After the safety net no cell within the bracket is [null]. *)
Lemma fillNulls_no_null result i :
  length result <= bracketSize -> fillNulls bracketSize result !! i <> Some None.
Proof.
  intros Hlen. unfold fillNulls. rewrite list_lookup_imap.
  destruct (result !! i) as [[p|]|] eqn:Hri; simpl; try done.
  apply lookup_lt_Some in Hri. rewrite decide_True by lia. done.
Qed.

Lemma placeRun_filling players pos result :
  known players -> pos + length players <= bracketSize ->
  ok result -> ok (placeRun pos players result).
Proof.
  intros Hplayers. revert pos result.
  induction Hplayers as [|p players Hp _ IH]; intros pos result Hpos Hok;
    simpl in *; [done|].
  apply IH; [lia|]. apply place_filling; [lia|done..].
Qed.

Lemma dayOverflowStep_filling st p :
  p ∈ participants -> ok st.2 -> ok (dayOverflowStep st p).2.
Proof.
  destruct st as [cursor result]; simpl. intros Hp Hok.
  destruct (result !! cursor) as [[q|]|] eqn:Hc; simpl; try done.
  apply place_filling; [|done..].
  apply lookup_lt_Some in Hc. destruct Hok as [Hlen _]. lia.
Qed.

Lemma nightOverflowStep_filling st p :
  p ∈ participants -> ok st.2 -> ok (nightOverflowStep bracketSize st p).2.
Proof.
  destruct st as [idx result]; simpl. intros Hp Hok.
  case_decide; simpl; [|done]. by apply place_filling.
Qed.

(** The scan for the next empty cell stops within its budget of rounds: it
    ends at the end of the bracket or on a [null] cell, having passed only
    cells that are taken. *)
Lemma skipTaken_stops n idx result :
  bracketSize - idx <= n ->
  let idx' := skipTaken n bracketSize idx result in
  idx <= idx'
  /\ (bracketSize <= idx' \/ result !! idx' = Some None)
  /\ forall j, idx <= j < idx' -> j < bracketSize /\ result !! j <> Some None.
Proof.
  revert idx. induction n as [|n IH]; intros idx Hn; simpl.
  - split; [done|]. split; [left; lia|]. intros j Hj. lia.
  - case_decide as Hidx; [|split; [done|]; split; [left; lia|]; intros j Hj; lia].
    destruct (result !! idx) as [[p|]|] eqn:Hcell;
      try (split; [done|]; split; [by right|]; intros j Hj; lia);
      (destruct (IH (S idx)) as (Hle & Hend & Hpassed); [lia|];
       split; [lia|]; split; [done|]; intros j Hj;
       destruct (decide (j = idx)) as [->|Hne];
       [split; [done|]; by rewrite Hcell | apply Hpassed; lia]).
Qed.

Lemma seedInOrder_wellSeeded shuffled :
  known shuffled -> wellSeeded participants (seedInOrder shuffled).
Proof.
  intros Hknown i c Hi. unfold seedInOrder in Hi.
  rewrite list_lookup_imap in Hi.
  destruct (shuffled !! i) as [p|] eqn:Hp; simpl in Hi; simplify_eq.
  right. exists p. split; [|done].
  rewrite Forall_lookup in Hknown. by eapply Hknown.
Qed.

End Filling.

(** ** The placement paths keep the invariant *)

(** Run one [shuffle] of the goal: name its output and record that it is a
    permutation of its input. *)
Ltac run_shuffle x H :=
  match goal with
  | |- context [shuffle ?l ?t] =>
      pose proof (shuffle_perm l t) as H;
      destruct (shuffle l t) as [x ?]; cbn [fst] in H
  end.

Lemma two_halves n : n / 2 + n / 2 <= n.
Proof. pose proof (Nat.Div0.mul_div_le n 2). lia. Qed.

Section Paths.

Variable participants : list Participant.
Variable bracketSize : nat.

Local Abbreviation ok := (filling participants bracketSize).
Local Abbreviation known := (Forall (fun q => q ∈ participants)).

Lemma known_perm (l k : list Participant) : l ≡ₚ k -> known k -> known l.
Proof. intros Hperm. by rewrite Hperm. Qed.

Lemma slots_perm_bound (l : list nat) k (Q : nat -> Prop) :
  l ≡ₚ seq 0 k -> (forall slot, slot < k -> Q slot) -> Forall Q l.
Proof.
  intros Hperm HQ. rewrite Hperm. apply Forall_forall.
  intros x Hx. apply HQ. apply elem_of_seq in Hx. lia.
Qed.

Lemma known_dayOf : known (dayOf participants).
Proof. apply filter_Forall_elem. Qed.

Lemma known_nightOf : known (nightOf participants).
Proof. apply filter_Forall_elem. Qed.

Lemma known_all : known participants.
Proof. by apply Forall_forall. Qed.

(** Arithmetic on halves of the bracket: halving that reduction has
    unfolded is folded back, and [lia] is told that two halves fit. *)
Ltac halves :=
  repeat match goal with
         | |- context [fst (Nat.divmod ?n 1 0 1)] =>
             change (fst (Nat.divmod n 1 0 1)) with (n / 2)
         end;
  pose proof (two_halves bracketSize);
  pose proof (two_halves (bracketSize / 2));
  lia.

Lemma placeFullBracket_filling t :
  length participants = bracketSize ->
  ok (placed (placeFullBracket participants bracketSize t).1).
Proof.
  intros Hn. unfold placeFullBracket, bind, ret.
  destruct (negb _).
  - run_shuffle shuffled Hs. cbn [fst snd placed]. split.
    + unfold seedInOrder. rewrite length_imap.
      by rewrite (Permutation_length Hs).
    + apply seedInOrder_wellSeeded. eapply known_perm; [done|apply known_all].
  - run_shuffle shuffledDay Hd. run_shuffle shuffledNight Hnight. simpl.
    assert (Hkd : known shuffledDay)
      by (eapply known_perm; [done|apply known_dayOf]).
    assert (Hkn : known shuffledNight)
      by (eapply known_perm; [done|apply known_nightOf]).
    apply (foldl_invariant (fun st => ok st.2) (fun q => q ∈ participants));
      [intros st p Hp; by apply nightOverflowStep_filling
      |by apply Forall_drop|].
    cbn [fst snd placed].
    apply (foldl_invariant (fun st => ok st.2) (fun q => q ∈ participants));
      [intros st p Hp; by apply dayOverflowStep_filling
      |by apply Forall_drop|].
    cbn [fst snd placed].
    apply placeRun_filling; [by apply Forall_take| |].
    { rewrite length_take. halves. }
    apply placeRun_filling; [by apply Forall_take| |].
    { rewrite length_take. halves. }
    apply filling_empty.
Qed.

Lemma pureRandomPlayInPlacement_filling playInMatchCount t :
  ok (placed (pureRandomPlayInPlacement participants bracketSize
                playInMatchCount t).1).
Proof.
  unfold pureRandomPlayInPlacement, bind, ret.
  run_shuffle shuffled Hs.
  assert (Hk : known shuffled) by (eapply known_perm; [done|apply known_all]).
  destruct (playInMatchCount <=? 0)%Z.
  - run_shuffle shuffledSlots Hslots. cbn [fst snd placed].
    assert (Hb : Forall (fun slot => slot * 2 + 1 < bracketSize) shuffledSlots).
    { eapply slots_perm_bound; [done|]. intros slot Hslot. halves. }
    apply fillNulls_filling.
    apply (foldl_invariant ok (fun slot => slot * 2 + 1 < bracketSize));
      [|by apply Forall_drop|].
    { intros res slot Hslot Hres.
      apply placeBye_filling; [lia|]. apply placeBye_filling; [lia|done]. }
    apply (foldl_invariant ok
             (fun ps => ps.1 ∈ participants /\ ps.2 * 2 + 1 < bracketSize)).
    + intros res [p slot] [Hp Hslot] Hres; simpl in *.
      apply placeBye_filling; [lia|]. apply place_filling; [lia|done..].
    + apply Forall_forall. intros [p slot] Hin. simpl.
      rewrite Forall_forall in Hk. rewrite Forall_forall in Hb. split.
      * apply Hk. by eapply elem_of_zip_l.
      * apply Hb. by eapply elem_of_zip_r.
    + apply filling_empty.
  - run_shuffle shuffledSlots Hslots. cbn [fst snd placed].
    assert (Hb : Forall (fun slot => 0 + slot * 2 + 1 < bracketSize)
                   shuffledSlots).
    { eapply slots_perm_bound; [done|]. intros slot Hslot. halves. }
    apply fillNulls_filling.
    apply placeByeMatches_filling;
      [by apply slice_from_Forall|by apply slice_from_Forall|].
    apply placePlayInMatches_filling;
      [by apply slice_to_Forall|by apply slice_to_Forall|].
    apply filling_empty.
Qed.

Lemma placeByAvailability_filling t :
  ok (placed (placeByAvailability participants bracketSize t).1).
Proof.
  unfold placeByAvailability.
  case_decide as Hn; [by apply placeFullBracket_filling|].
  destruct (negb _); [apply pureRandomPlayInPlacement_filling|].
  unfold bind, ret.
  run_shuffle shuffledDay Hd. run_shuffle shuffledNight Hnight.
  destruct (adjustPlayIn _ _ _ _ _) as [actualDayPlayIn actualNightPlayIn].
  run_shuffle shuffledDaySlots Hds. run_shuffle shuffledNightSlots Hns.
  cbn [fst snd placed].
  assert (Hkd : known shuffledDay)
    by (eapply known_perm; [done|apply known_dayOf]).
  assert (Hkn : known shuffledNight)
    by (eapply known_perm; [done|apply known_nightOf]).
  assert (Hbd : Forall (fun slot => 0 + slot * 2 + 1 < bracketSize)
                  shuffledDaySlots).
  { eapply slots_perm_bound; [done|]. intros slot Hslot. halves. }
  assert (Hbn : Forall (fun slot => bracketSize / 2 + slot * 2 + 1 < bracketSize)
                  shuffledNightSlots).
  { eapply slots_perm_bound; [done|]. intros slot Hslot. halves. }
  apply fillNulls_filling.
  apply placeByeMatches_filling;
    [by apply slice_from_Forall|by apply slice_from_Forall|].
  apply placePlayInMatches_filling;
    [by apply slice_to_Forall|by apply slice_to_Forall|].
  apply placeByeMatches_filling;
    [by apply slice_from_Forall|by apply slice_from_Forall|].
  apply placePlayInMatches_filling;
    [by apply slice_to_Forall|by apply slice_to_Forall|].
  apply filling_empty.
Qed.

End Paths.

(** ** [seedParticipants] *)

Section Seeding.

Implicit Types (participants : list Participant) (bracketSize : nat) (t : tape).

Lemma isAllowedSize_spec bracketSize :
  isAllowedSize bracketSize = true <-> bracketSize ∈ allowedSizes.
Proof.
  unfold isAllowedSize. rewrite existsb_exists. split.
  - intros (x & Hx & Heq). apply Nat.eqb_eq in Heq. subst.
    by apply list_elem_of_In.
  - intros Hin. exists bracketSize. split; [by apply list_elem_of_In|].
    apply Nat.eqb_refl.
Qed.

Lemma isAllowedSize_nonzero bracketSize :
  isAllowedSize bracketSize = true -> (bracketSize =? 0) = false.
Proof. destruct bracketSize; [by vm_compute|done]. Qed.

Lemma seedParticipants_valid participants bracketSize t :
  participants <> [] -> isAllowedSize bracketSize = true ->
  seedParticipants participants bracketSize t =
    (SeedSuccess (placeByAvailability participants bracketSize t).1,
     (placeByAvailability participants bracketSize t).2).
Proof.
  intros Hne Hsize. unfold seedParticipants.
  destruct participants as [|p participants]; [done|].
  cbn [length Nat.eqb]. rewrite Hsize, (isAllowedSize_nonzero _ Hsize).
  cbn [orb negb]. unfold bind, ret.
  by destruct (placeByAvailability _ _ t).
Qed.

Lemma seedParticipants_success participants bracketSize t r :
  (seedParticipants participants bracketSize t).1 = SeedSuccess r ->
  participants <> [] /\ isAllowedSize bracketSize = true
  /\ r = (placeByAvailability participants bracketSize t).1.
Proof.
  destruct participants as [|p participants]; [done|].
  destruct (isAllowedSize bracketSize) eqn:Hsize.
  - rewrite seedParticipants_valid by done. simpl. intros [= <-]. done.
  - unfold seedParticipants. cbn [length Nat.eqb]. rewrite Hsize.
    rewrite orb_true_r. done.
Qed.

End Seeding.



(** C6, as the code has it.  More participants than a valid bracket has
    cells is not reported as an error: the call succeeds with a slot array of
    [bracketSize] cells. *)
Theorem oversubscribed_bracket_succeeds (participants : list Participant)
    (bracketSize : nat) (t : tape) :
  isAllowedSize bracketSize = true ->
  bracketSize < length participants ->
  exists r,
    (seedParticipants participants bracketSize t).1 = SeedSuccess r
    /\ length (placed r) = bracketSize.
Proof.
  intros Hsize Hover.
  assert (Hne : participants <> []) by (intros ->; simpl in *; lia).
  rewrite seedParticipants_valid by done.
  eexists. split; [reflexivity|].
  by destruct (placeByAvailability_filling participants bracketSize t).
Qed.

(** Nine entrants for a bracket of eight. *)
Lemma oversubscribed_bracket_witness :
  exists r,
    (seedParticipants nineEntrants 8 sampleTape).1 = SeedSuccess r
    /\ length (placed r) = 8.
Proof.
  apply (oversubscribed_bracket_succeeds nineEntrants 8 sampleTape).
  - reflexivity.
  - by vm_compute.
Defined.

(** C6 as stated fails: nine participants for a bracket of eight are placed
    with success, not refused with the bracket-size error. *)
Lemma oversubscribed_bracket_not_refused :
  length nineEntrants = 9
  /\ exists r,
       (seedParticipants nineEntrants 8 sampleTape).1 = SeedSuccess r
       /\ (seedParticipants nineEntrants 8 sampleTape).1
          <> SeedFailure invalidSizeError
       /\ realCount (placed r) = 8.
Proof.
  split; [reflexivity|]. eexists. split; [reflexivity|].
  split; [by vm_compute|by vm_compute].
Qed.

(** C7, as the code has it.  An empty participant list fails with the
    no-participants error, whatever the bracket size; a non-empty list with a
    bracket size outside 8, 16, 32, 64, 128 fails with the bracket-size error.
    A failure is one of these two, carries no slot array and leaves the tape
    untouched, and any other call succeeds. *)
Theorem seedParticipants_failures (participants : list Participant)
    (bracketSize : nat) (t : tape) :
  (participants = [] ->
   seedParticipants participants bracketSize t
     = (SeedFailure noParticipantsError, t))
  /\ (participants <> [] -> bracketSize ∉ allowedSizes ->
      seedParticipants participants bracketSize t
        = (SeedFailure invalidSizeError, t))
  /\ (forall error,
        (seedParticipants participants bracketSize t).1 = SeedFailure error ->
        slotsOf (seedParticipants participants bracketSize t).1 = None
        /\ (seedParticipants participants bracketSize t).2 = t
        /\ ((participants = [] /\ error = noParticipantsError)
            \/ ((bracketSize ∉ allowedSizes) /\ error = invalidSizeError)))
  /\ (participants <> [] -> bracketSize ∈ allowedSizes ->
      exists r, (seedParticipants participants bracketSize t).1 = SeedSuccess r).
Proof.
  split; [|split; [|split]].
  - by intros ->.
  - intros Hne Hsize. rewrite <- isAllowedSize_spec in Hsize.
    apply not_true_is_false in Hsize.
    destruct participants; [done|].
    unfold seedParticipants. cbn [length Nat.eqb].
    by rewrite Hsize, orb_true_r.
  - intros error Herr.
    destruct participants as [|p ps].
    { simpl in *. injection Herr as <-.
      split; [done|]. split; [done|]. by left. }
    destruct (isAllowedSize bracketSize) eqn:Hsize.
    { by rewrite seedParticipants_valid in Herr. }
    revert Herr. unfold seedParticipants. cbn [length Nat.eqb].
    rewrite Hsize, orb_true_r. simpl. intros [= <-].
    split; [done|]. split; [done|]. right. split; [|done].
    rewrite <- isAllowedSize_spec. by rewrite Hsize.
  - intros Hne Hsize. apply isAllowedSize_spec in Hsize.
    rewrite seedParticipants_valid by done. by eexists.
Qed.

(** C7 as stated fails: with no participants and bracket size 7 the call
    fails with the no-participants error, not with the bracket-size error. *)
Lemma empty_input_reported_first :
  isAllowedSize 7 = false
  /\ (seedParticipants [] 7 sampleTape).1 = SeedFailure noParticipantsError
  /\ (seedParticipants [] 7 sampleTape).1 <> SeedFailure invalidSizeError.
Proof. by vm_compute. Qed.

(** ** Brackets whose Day and Night groups are out of balance *)

Section Imbalance.

Lemma perm_real (l k : list Participant) : l ≡ₚ k -> allReal k -> allReal l.
Proof. unfold allReal. intros Hperm. by rewrite Hperm. Qed.

Lemma perm_two_slots (l : list nat) :
  l ≡ₚ [0; 1] -> l = [0; 1] \/ l = [1; 0].
Proof.
  intros Hperm. pose proof (Permutation_length Hperm) as Hlen.
  destruct l as [|a [|b [|]]]; try discriminate.
  apply Permutation_length_2 in Hperm as [[-> ->]|[-> ->]]; auto.
Qed.

End Imbalance.

(** Name the members of a shuffled group of real participants, so that the
    layout of the bracket can be computed. *)
Ltac name_real_members H :=
  unfold allReal in H;
  repeat match goal with
         | H' : Forall _ (_ :: _) |- _ => apply Forall_cons in H' as [? H']
         end;
  repeat match goal with
         | H' : isBye ?p = false |- _ => destruct p; simpl in H'; subst
         end.

(** C1 at seven Day entrants in a bracket of eight.  Three play-in matches
    are due (7 - 4), and the statistics report three, but whatever the random
    draws the Day half has room for two matches only: the slot array holds
    two matches between real participants. *)
Theorem day_overflow_loses_play_in (t : tape) :
  exists r,
    (seedParticipants sevenDay 8 t).1 = SeedSuccess r
    /\ playInMatchesIn (placed r) = 2
    /\ playInMatches (stats r) = 3%Z
    /\ Z.max 0 (Z.of_nat (length sevenDay) - Z.of_nat (8 / 2)) = 3%Z.
Proof.
  rewrite seedParticipants_valid by done.
  eexists. split; [reflexivity|].
  unfold placeByAvailability. rewrite decide_False by (by vm_compute).
  set (d := dayOf _). vm_compute in d. subst d.
  set (n := nightOf _). vm_compute in n. subst n.
  cbn [length Nat.ltb Nat.leb orb negb].
  unfold bind, ret.
  run_shuffle sd Hd. run_shuffle sn Hn.
  set (a := adjustPlayIn _ _ _ _ _). vm_compute in a. subst a. cbv iota beta.
  set (k := seq 0 _). vm_compute in k. subst k.
  run_shuffle sds Hds. run_shuffle sns Hns.
  assert (Hreal : allReal sd).
  { eapply perm_real; [done|]. unfold allReal. repeat constructor. }
  apply Permutation_length in Hd, Hn.
  destruct sd as [|p1 [|p2 [|p3 [|p4 [|p5 [|p6 [|p7 [|]]]]]]]];
    try discriminate.
  destruct sn; try discriminate.
  name_real_members Hreal.
  destruct (perm_two_slots _ Hds) as [-> | ->],
    (perm_two_slots _ Hns) as [-> | ->]; by vm_compute.
Qed.

(** C2 at four Day entrants and one Night entrant in a bracket of eight.
    Whatever the random draws, the slot array has eight cells of which four
    hold real participants and four hold BYEs: one of the five entrants is
    left out, while the statistics report five participants and three BYEs. *)
Theorem day_overflow_drops_entrant (t : tape) :
  exists r,
    (seedParticipants fourDayOneNight 8 t).1 = SeedSuccess r
    /\ length (placed r) = 8
    /\ realCount (placed r) = 4
    /\ byeCells (placed r) = 4
    /\ length fourDayOneNight = 5
    /\ participantCount r = 5
    /\ byeCount (stats r) = 3%Z.
Proof.
  rewrite seedParticipants_valid by done.
  eexists. split; [reflexivity|].
  unfold placeByAvailability. rewrite decide_False by (by vm_compute).
  set (d := dayOf _). vm_compute in d. subst d.
  set (n := nightOf _). vm_compute in n. subst n.
  cbn [length Nat.ltb Nat.leb orb negb].
  unfold bind, ret.
  run_shuffle sd Hd. run_shuffle sn Hn.
  set (a := adjustPlayIn _ _ _ _ _). vm_compute in a. subst a. cbv iota beta.
  set (k := seq 0 _). vm_compute in k. subst k.
  run_shuffle sds Hds. run_shuffle sns Hns.
  assert (Hreal : allReal sd).
  { eapply perm_real; [done|]. unfold allReal. repeat constructor. }
  assert (Hrealn : allReal sn).
  { eapply perm_real; [done|]. unfold allReal. repeat constructor. }
  apply Permutation_length in Hd, Hn.
  destruct sd as [|p1 [|p2 [|p3 [|p4 [|]]]]]; try discriminate.
  destruct sn as [|q1 [|]]; try discriminate.
  name_real_members Hreal. name_real_members Hrealn.
  destruct (perm_two_slots _ Hds) as [-> | ->],
    (perm_two_slots _ Hns) as [-> | ->]; by vm_compute.
Qed.

(** C4 at five Day and three Night entrants in a bracket of eight, a full
    bracket with availability tags.  Whatever the random draws, the call
    succeeds and the last cell of the returned slot array is [null]: the
    fifth Day entrant finds the cell after the Day block taken, is not
    placed, and this path has no pass that turns [null] cells into BYEs. *)
Theorem placeFullBracket_leaves_null (t : tape) :
  exists r,
    (seedParticipants fiveDayThreeNight 8 t).1 = SeedSuccess r
    /\ placed r !! 7 = Some None
    /\ nullCells (placed r) = 1
    /\ realCount (placed r) = 7.
Proof.
  rewrite seedParticipants_valid by done.
  eexists. split; [reflexivity|].
  unfold placeByAvailability. rewrite decide_True by reflexivity.
  unfold placeFullBracket.
  set (d := dayOf _). vm_compute in d. subst d.
  set (n := nightOf _). vm_compute in n. subst n.
  cbn [length Nat.ltb Nat.leb orb negb].
  unfold bind, ret.
  run_shuffle sd Hd. run_shuffle sn Hn.
  assert (Hreal : allReal sd).
  { eapply perm_real; [done|]. unfold allReal. repeat constructor. }
  assert (Hrealn : allReal sn).
  { eapply perm_real; [done|]. unfold allReal. repeat constructor. }
  apply Permutation_length in Hd, Hn.
  destruct sd as [|p1 [|p2 [|p3 [|p4 [|p5 [|]]]]]]; try discriminate.
  destruct sn as [|q1 [|q2 [|q3 [|]]]]; try discriminate.
  name_real_members Hreal. name_real_members Hrealn.
  by vm_compute.
Qed.

(** ** Tallies of the random placement of untagged participants *)

Section Counting.

Implicit Types (result : slots) (c : cell) (p : Participant).

Lemma occupants_insert result i c :
  result !! i = Some None ->
  occupants (<[i := c]> result)
    ≡ₚ match occupant c with Some p => [p] | None => [] end ++ occupants result.
Proof.
  revert i. induction result as [|c0 result IH]; intros i Hi; [done|].
  destruct i as [|i]; simpl in *.
  - injection Hi as ->. unfold occupants. simpl. by destruct (occupant c).
  - unfold occupants in *. simpl.
    destruct (occupant c0) as [p0|]; simpl.
    + rewrite (IH i Hi). destruct (occupant c); simpl; [|done].
      apply Permutation_swap.
    + by apply IH.
Qed.

Lemma playInMatchesIn_insert1 result m c :
  untouched result m ->
  playInMatchesIn (<[2 * m := c]> result) = playInMatchesIn result.
Proof.
  revert result. induction m as [|m IH]; intros result [H1 H2].
  - destruct result as [|a [|b rest]]; simpl in *; try done.
    injection H1 as ->. injection H2 as ->. simpl.
    by rewrite andb_false_r.
  - replace (2 * S m) with (S (S (2 * m))) in * by lia.
    destruct result as [|a [|b rest]]; simpl in *; try done.
    f_equal. apply IH. by split.
Qed.

Lemma playInMatchesIn_insert2 result m c1 c2 :
  result !! (2 * m) = Some c1 -> result !! (2 * m + 1) = Some None ->
  playInMatchesIn (<[2 * m + 1 := c2]> result)
    = playInMatchesIn result + (if isRealCell c1 && isRealCell c2 then 1 else 0).
Proof.
  revert result. induction m as [|m IH]; intros result H1 H2.
  - destruct result as [|a [|b rest]]; simpl in *; try done.
    injection H1 as ->. injection H2 as ->. simpl.
    rewrite andb_false_r. simpl. lia.
  - replace (2 * S m) with (S (S (2 * m))) in * by lia.
    destruct result as [|a [|b rest]]; simpl in *; try done.
    rewrite (IH rest H1 H2). lia.
Qed.

End Counting.

Section MatchWrites.

Implicit Types (result : slots) (c : cell) (p : Participant)
  (group : list Participant).

Lemma array_set_inside {A} (hole : A) i v (arr : list A) :
  i < length arr -> array_set hole i v arr = <[i := v]> arr.
Proof. intros Hi. unfold array_set. by rewrite decide_True. Qed.

Lemma unseeded_withSeed p s : unseeded (withSeed p s) = unseeded p.
Proof. done. Qed.

Lemma untouched_bound result m : untouched result m -> 2 * m + 1 < length result.
Proof. intros [_ H]. by apply lookup_lt_Some in H. Qed.

Lemma untouched_insert result m m' i c :
  m <> m' -> i = 2 * m' \/ i = 2 * m' + 1 ->
  untouched result m -> untouched (<[i := c]> result) m.
Proof.
  intros Hne Hi [H1 H2]. split; rewrite list_lookup_insert_ne by lia; done.
Qed.

(** A real participant and then a BYE or a second real participant are
    written into an untouched match. *)
Lemma place_untouched result m p :
  untouched result m -> isBye p = false ->
  length (place (2 * m) p result) = length result
  /\ playInMatchesIn (place (2 * m) p result) = playInMatchesIn result
  /\ unseeded <$> occupants (place (2 * m) p result)
       ≡ₚ unseeded p :: (unseeded <$> occupants result)
  /\ place (2 * m) p result !! (2 * m) = Some (Some (withSeed p (2 * m + 1)))
  /\ place (2 * m) p result !! (2 * m + 1) = Some None
  /\ (forall m', m' <> m -> untouched result m' ->
        untouched (place (2 * m) p result) m').
Proof.
  intros Hm Hp. pose proof (untouched_bound _ _ Hm) as Hlen.
  destruct Hm as [H1 H2]. unfold place.
  rewrite array_set_inside by lia.
  split; [by rewrite length_insert|].
  split; [by apply playInMatchesIn_insert1|].
  split.
  { rewrite occupants_insert by done. simpl. by rewrite Hp. }
  split; [by rewrite list_lookup_insert_eq by lia|].
  split; [by rewrite list_lookup_insert_ne by lia|].
  intros m' Hne. apply untouched_insert with (m' := m); auto.
Qed.

Lemma second_cell result m c1 c2 :
  result !! (2 * m) = Some c1 -> result !! (2 * m + 1) = Some None ->
  let result' := array_set None (2 * m + 1) c2 result in
  length result' = length result
  /\ playInMatchesIn result'
       = playInMatchesIn result
         + (if isRealCell c1 && isRealCell c2 then 1 else 0)
  /\ occupants result'
       ≡ₚ match occupant c2 with Some p => [p] | None => [] end
          ++ occupants result
  /\ (forall m', m' <> m -> untouched result m' -> untouched result' m').
Proof.
  intros H1 H2. pose proof (lookup_lt_Some _ _ _ H2) as Hlen. simpl.
  rewrite array_set_inside by lia.
  split; [by rewrite length_insert|].
  split; [by eapply playInMatchesIn_insert2|].
  split; [by apply occupants_insert|].
  intros m' Hne. apply untouched_insert with (m' := m); auto.
Qed.

End MatchWrites.

Section Passes.

Implicit Types (result : slots) (p : Participant) (group : list Participant)
  (ms : list nat).

Lemma advance_refl result : advance result result [] [] 0.
Proof. unfold advance. split; [done|]. split; [lia|]. by split. Qed.

Lemma advance_trans result1 result2 result3 ms1 ms2 added1 added2 k1 k2 :
  advance result1 result2 ms1 added1 k1 ->
  advance result2 result3 ms2 added2 k2 ->
  advance result1 result3 (ms1 ++ ms2) (added1 ++ added2) (k1 + k2).
Proof.
  intros (Hl1 & Hk1 & Ho1 & Hu1) (Hl2 & Hk2 & Ho2 & Hu2).
  split; [congruence|]. split; [lia|]. split.
  - rewrite Ho2, Ho1, fmap_app.
    rewrite !(assoc (++)). apply Permutation_app_tail, Permutation_app_comm.
  - intros m Hm Hun. rewrite elem_of_app in Hm.
    apply Hu2; [tauto|]. apply Hu1; [tauto|done].
Qed.

Lemma advance_pair result m p p' :
  untouched result m -> isBye p = false -> isBye p' = false ->
  advance result (place (0 + m * 2 + 1) p' (place (0 + m * 2) p result))
    [m] [p; p'] 1.
Proof.
  intros Hm Hp Hp'.
  replace (0 + m * 2 + 1) with (2 * m + 1) by lia.
  replace (0 + m * 2) with (2 * m) by lia.
  destruct (place_untouched result m p Hm Hp)
    as (Hl & Hk & Ho & H1 & H2 & Hu).
  destruct (second_cell _ m _ (Some (withSeed p' (2 * m + 1 + 1))) H1 H2)
    as (Hl' & Hk' & Ho' & Hu').
  unfold place at 1.
  split; [congruence|]. split.
  { rewrite Hk', Hk. simpl. by rewrite Hp, Hp'. }
  split.
  { rewrite Ho'. simpl. rewrite Hp'. simpl. rewrite Ho.
    rewrite unseeded_withSeed. apply Permutation_swap. }
  intros m' Hm' Hun. rewrite list_elem_of_singleton in Hm'.
  apply Hu'; [done|]. by apply Hu.
Qed.

Lemma advance_single result m p :
  untouched result m -> isBye p = false ->
  advance result (placeBye (0 + m * 2 + 1) (place (0 + m * 2) p result))
    [m] [p] 0.
Proof.
  intros Hm Hp.
  replace (0 + m * 2 + 1) with (2 * m + 1) by lia.
  replace (0 + m * 2) with (2 * m) by lia.
  destruct (place_untouched result m p Hm Hp)
    as (Hl & Hk & Ho & H1 & H2 & Hu).
  destruct (second_cell _ m _ (Some createBye) H1 H2)
    as (Hl' & Hk' & Ho' & Hu').
  unfold placeBye.
  split; [congruence|]. split.
  { rewrite Hk', Hk. simpl. by rewrite andb_false_r. }
  split.
  { rewrite Ho'. simpl. by rewrite Ho. }
  intros m' Hm' Hun. rewrite list_elem_of_singleton in Hm'.
  apply Hu'; [done|]. by apply Hu.
Qed.

Lemma advance_empty result m :
  untouched result m ->
  advance result (placeBye (0 + m * 2 + 1) (placeBye (0 + m * 2) result))
    [m] [] 0.
Proof.
  intros Hm. pose proof (untouched_bound _ _ Hm) as Hlen.
  replace (0 + m * 2 + 1) with (2 * m + 1) by lia.
  replace (0 + m * 2) with (2 * m) by lia.
  destruct Hm as [H1 H2].
  assert (H1' : placeBye (2 * m) result !! (2 * m) = Some (Some createBye)).
  { unfold placeBye. rewrite array_set_inside by lia.
    by rewrite list_lookup_insert_eq by lia. }
  assert (H2' : placeBye (2 * m) result !! (2 * m + 1) = Some None).
  { unfold placeBye. rewrite array_set_inside by lia.
    by rewrite list_lookup_insert_ne by lia. }
  destruct (second_cell _ m _ (Some createBye) H1' H2')
    as (Hl' & Hk' & Ho' & Hu').
  unfold placeBye at 1.
  split.
  { rewrite Hl'. unfold placeBye. rewrite array_set_inside by lia.
    by rewrite length_insert. }
  split.
  { rewrite Hk'. cbn [isRealCell createBye isBye negb andb].
    unfold placeBye. rewrite array_set_inside by lia.
    rewrite playInMatchesIn_insert1 by done. lia. }
  split.
  { rewrite Ho'. simpl. unfold placeBye. rewrite array_set_inside by lia.
    by rewrite occupants_insert by done. }
  intros m' Hm' Hun. rewrite list_elem_of_singleton in Hm'.
  apply Hu'; [done|]. unfold placeBye. rewrite array_set_inside by lia.
  apply untouched_insert with (m' := m); auto.
Qed.

End Passes.

Section Folds.

Implicit Types (result : slots) (p : Participant) (group : list Participant)
  (ms : list nat).

Lemma untouched_rest result result' m ms added k :
  advance result result' [m] added k -> m ∉ ms ->
  Forall (untouched result) ms -> Forall (untouched result') ms.
Proof.
  intros (_ & _ & _ & Hu) Hm Hms.
  rewrite Forall_forall in Hms. apply Forall_forall. intros m' Hm'.
  apply Hu; [|by apply Hms].
  rewrite list_elem_of_singleton. by intros ->.
Qed.

Lemma playInStep_both base group idx result m p p' :
  group !! idx = Some p -> group !! (idx + 1) = Some p' ->
  playInStep base group (idx, result) m
    = (idx + 1 + 1,
       place (base + m * 2 + 1) p' (place (base + m * 2) p result)).
Proof. intros H1 H2. unfold playInStep. by rewrite H1, H2. Qed.

(** The play-in loop, when [group] has two members for every match slot. *)
Lemma playIn_pass group ms :
  allReal group ->
  forall idx result,
    NoDup ms -> Forall (untouched result) ms ->
    idx + 2 * length ms <= length group ->
    exists result',
      foldl (playInStep 0 group) (idx, result) ms
        = (idx + 2 * length ms, result')
      /\ advance result result' ms
           (take (2 * length ms) (drop idx group)) (length ms).
Proof.
  intros Hreal. induction ms as [|m ms IH]; intros idx result Hnd Hun Hlen.
  - exists result. split; [simpl; f_equal; lia|]. apply advance_refl.
  - apply NoDup_cons in Hnd as [Hm Hnd].
    apply Forall_cons in Hun as [Hunm Hun].
    cbn [length] in Hlen.
    destruct (lookup_lt_is_Some_2 group idx) as [p Hp]; [lia|].
    destruct (lookup_lt_is_Some_2 group (idx + 1)) as [p' Hp']; [lia|].
    unfold allReal in Hreal. rewrite Forall_lookup in Hreal.
    pose proof (advance_pair result m p p' Hunm (Hreal _ _ Hp) (Hreal _ _ Hp'))
      as Hstep.
    cbn [foldl]. rewrite (playInStep_both _ _ _ _ _ _ _ Hp Hp').
    destruct (IH (idx + 1 + 1) _ Hnd (untouched_rest _ _ _ _ _ _ Hstep Hm Hun))
      as (result' & Hfold & Hadv); [lia|].
    exists result'. split.
    { rewrite Hfold. f_equal. cbn [length]. lia. }
    pose proof (advance_trans _ _ _ _ _ _ _ _ _ Hstep Hadv) as Hall.
    replace (2 * length (m :: ms)) with (S (S (2 * length ms)))
      by (cbn [length]; lia).
    rewrite (drop_S _ _ _ Hp).
    replace (S idx) with (idx + 1) by lia.
    rewrite (drop_S _ _ _ Hp').
    replace (S (idx + 1)) with (idx + 1 + 1) by lia.
    exact Hall.
Qed.

(** The bye loop: one member of [group] per match slot while they last. *)
Lemma bye_pass group ms :
  allReal group ->
  forall idx result,
    NoDup ms -> Forall (untouched result) ms ->
    exists idx' result',
      foldl (byeStep 0 group) (idx, result) ms = (idx', result')
      /\ advance result result' ms (take (length ms) (drop idx group)) 0.
Proof.
  intros Hreal. induction ms as [|m ms IH]; intros idx result Hnd Hun.
  - exists idx, result. split; [done|]. apply advance_refl.
  - apply NoDup_cons in Hnd as [Hm Hnd].
    apply Forall_cons in Hun as [Hunm Hun].
    unfold allReal in Hreal. rewrite Forall_lookup in Hreal.
    cbn [foldl]. unfold byeStep at 2.
    destruct (group !! idx) as [p|] eqn:Hp.
    + pose proof (advance_single result m p Hunm (Hreal _ _ Hp)) as Hstep.
      destruct (IH (idx + 1) _ Hnd (untouched_rest _ _ _ _ _ _ Hstep Hm Hun))
        as (idx' & result' & Hfold & Hadv).
      exists idx', result'. split; [exact Hfold|].
      pose proof (advance_trans _ _ _ _ _ _ _ _ _ Hstep Hadv) as Hall.
      cbn [length]. rewrite (drop_S _ _ _ Hp).
      replace (S idx) with (idx + 1) by lia. exact Hall.
    + pose proof (advance_empty result m Hunm) as Hstep.
      destruct (IH idx _ Hnd (untouched_rest _ _ _ _ _ _ Hstep Hm Hun))
        as (idx' & result' & Hfold & Hadv).
      exists idx', result'. split; [exact Hfold|].
      pose proof (advance_trans _ _ _ _ _ _ _ _ _ Hstep Hadv) as Hall.
      apply lookup_ge_None in Hp.
      rewrite (drop_ge group idx) in * by lia.
      by rewrite take_nil in *.
Qed.

(** A loop whose rounds each fill one match and keep no running index. *)
Lemma stateless_pass {X} (f : slots -> X -> slots) (mof : X -> nat)
    (aof : X -> list Participant) (xs : list X) :
  (forall result x, x ∈ xs -> untouched result (mof x) ->
     advance result (f result x) [mof x] (aof x) 0) ->
  forall result,
    NoDup (mof <$> xs) -> Forall (untouched result) (mof <$> xs) ->
    advance result (foldl f result xs) (mof <$> xs) (xs ≫= aof) 0.
Proof.
  induction xs as [|x xs IH]; intros Hstep result Hnd Hun.
  - apply advance_refl.
  - rewrite fmap_cons in Hnd, Hun.
    apply NoDup_cons in Hnd as [Hm Hnd].
    apply Forall_cons in Hun as [Hunm Hun].
    pose proof (Hstep result x (list_elem_of_here _ _) Hunm) as Hx.
    cbn [foldl].
    change (advance result (foldl f (f result x) xs) ([mof x] ++ (mof <$> xs))
              (aof x ++ (xs ≫= aof)) (0 + 0)).
    apply (advance_trans _ _ _ _ _ _ _ _ _ Hx).
    apply IH; [|done|by eapply untouched_rest].
    intros result0 x0 Hx0. apply Hstep. by apply list_elem_of_further.
Qed.

End Folds.

Lemma pair_ind {A} (P : list A -> Prop) :
  P [] -> (forall a, P [a]) -> (forall a b l, P l -> P (a :: b :: l)) ->
  forall l, P l.
Proof.
  intros H0 H1 H2 l.
  enough (P l /\ forall a, P (a :: l)) by tauto.
  induction l as [|b l [IH1 IH2]]; [by split|].
  split; [apply IH2|]. intros a. by apply H2.
Qed.

Lemma bind_singleton {A B} (g : A -> B) (xs : list A) :
  xs ≫= (fun x => [g x]) = g <$> xs.
Proof.
  induction xs as [|x xs IH]; [done|].
  rewrite fmap_cons, <- IH. done.
Qed.

Lemma snd_zip_take {A B} (l : list A) (k : list B) :
  (zip l k).*2 = take (length l) k.
Proof.
  revert k. induction l as [|x l IH]; intros [|y k]; simpl; try done.
  by rewrite IH.
Qed.

Section Tallies.

Implicit Types (result : slots) (c : cell).

(** The play-in tally looks only at which cells hold real participants. *)
Lemma playInMatchesIn_ext (l l' : slots) :
  isRealCell <$> l = isRealCell <$> l' ->
  playInMatchesIn l = playInMatchesIn l'.
Proof.
  revert l'. induction l as [|a|a b l IH] using pair_ind; intros l' Heq.
  - by destruct l'.
  - destruct l' as [|a' [|b' l']]; done.
  - destruct l' as [|a' [|b' l']]; try done.
    simpl in *. injection Heq as -> -> Heq. by rewrite (IH l' Heq).
Qed.

Lemma playInMatchesIn_empty n : playInMatchesIn (replicate n None) = 0.
Proof.
  assert (H : forall l : slots,
             Forall (fun c => isRealCell c = false) l -> playInMatchesIn l = 0).
  { induction l as [|a|a b l IH] using pair_ind; intros Hl; try done.
    apply Forall_cons in Hl as [Ha Hl]. apply Forall_cons in Hl as [Hb Hl].
    simpl. by rewrite Ha, (IH Hl). }
  apply H. by apply Forall_replicate.
Qed.

Lemma occupants_empty n : occupants (replicate n None) = [].
Proof. induction n as [|n IH]; [done|]. exact IH. Qed.

Lemma untouched_empty n m : 2 * m + 1 < n -> untouched (replicate n None) m.
Proof. intros Hm. split; apply lookup_replicate; split; (done || lia). Qed.

Lemma occupants_imap (g : nat -> cell -> cell) (l : slots) :
  (forall i c, occupant (g i c) = occupant c) ->
  occupants (imap g l) = occupants l.
Proof.
  revert g. induction l as [|c l IH]; intros g Hg; [done|].
  unfold occupants in *. rewrite imap_cons.
  change (omap occupant (g 0 c :: imap (g ∘ S) l))
    with (match occupant (g 0 c) with
          | Some y => y :: omap occupant (imap (g ∘ S) l)
          | None => omap occupant (imap (g ∘ S) l)
          end).
  rewrite Hg, (IH (g ∘ S)) by (intros i c'; apply Hg). done.
Qed.

Lemma fillNulls_real bracketSize i c :
  isRealCell (match c with
              | None => if decide (i < bracketSize) then Some createBye else None
              | Some p => Some p
              end) = isRealCell c
  /\ occupant (match c with
               | None => if decide (i < bracketSize) then Some createBye else None
               | Some p => Some p
               end) = occupant c.
Proof. destruct c; [done|]. by case_decide. Qed.

Lemma occupants_fillNulls bracketSize result :
  occupants (fillNulls bracketSize result) = occupants result.
Proof.
  unfold fillNulls. apply occupants_imap. intros i c.
  apply fillNulls_real.
Qed.

Lemma playInMatchesIn_fillNulls bracketSize result :
  playInMatchesIn (fillNulls bracketSize result) = playInMatchesIn result.
Proof.
  apply playInMatchesIn_ext. unfold fillNulls.
  apply list_eq. intros i. rewrite !list_lookup_fmap, list_lookup_imap.
  destruct (result !! i) as [c|]; [|done]. simpl. f_equal.
  apply fillNulls_real.
Qed.

Lemma realCount_occupants (l : slots) : realCount l = length (occupants l).
Proof.
  unfold realCount, occupants. induction l as [|c l IH]; [done|].
  simpl. destruct c as [p|]; simpl; [|done].
  destruct (isBye p); simpl; by rewrite IH.
Qed.

(** Without [null] cells, every cell is a real participant or a BYE. *)
Lemma cells_partition (l : slots) :
  (forall i, l !! i <> Some None) ->
  nullCells l = 0 /\ byeCells l + realCount l = length l.
Proof.
  unfold nullCells, byeCells, realCount.
  induction l as [|c l IH]; intros Hl; [done|].
  destruct IH as [IH1 IH2]; [intros i; apply (Hl (S i))|].
  destruct c as [p|]; [|by destruct (Hl 0)].
  simpl. destruct (isBye p); simpl; split; (done || lia).
Qed.

End Tallies.


Lemma bind_empty {A B} (xs : list A) : xs ≫= (fun _ => @nil B) = [].
Proof. by induction xs. Qed.

Lemma slice_to_nat {A} (k : nat) (l : list A) :
  slice_to (Z.of_nat k) l = take k l.
Proof.
  unfold slice_to, slice_index.
  destruct (Z.ltb_spec (Z.of_nat k) 0); [lia|].
  rewrite Nat2Z.id. destruct (decide (k <= length l)).
  - by rewrite Nat.min_l.
  - rewrite Nat.min_r by lia. by rewrite !take_ge by lia.
Qed.

Lemma slice_from_nat {A} (k : nat) (l : list A) :
  slice_from (Z.of_nat k) l = drop k l.
Proof.
  unfold slice_from, slice_index.
  destruct (Z.ltb_spec (Z.of_nat k) 0); [lia|].
  rewrite Nat2Z.id. destruct (decide (k <= length l)).
  - by rewrite Nat.min_l.
  - rewrite Nat.min_r by lia. by rewrite !drop_ge by lia.
Qed.

Section PureRandom.

Variable participants : list Participant.
Variable bracketSize : nat.
Hypothesis Hsize : isAllowedSize bracketSize = true.
Hypothesis Hreal : allReal participants.

Lemma allowed_even : bracketSize = 2 * (bracketSize / 2).
Proof.
  apply isAllowedSize_spec in Hsize. unfold allowedSizes in Hsize.
  repeat (apply elem_of_cons in Hsize as [->|Hsize]; [done|]).
  by apply elem_of_nil in Hsize.
Qed.

Lemma match_slots_fresh (ms : list nat) :
  ms ≡ₚ seq 0 (bracketSize / 2) ->
  NoDup ms /\ length ms = bracketSize / 2
  /\ Forall (untouched (replicate bracketSize None)) ms.
Proof.
  intros Hms. split; [rewrite Hms; apply NoDup_seq|].
  split; [by rewrite Hms, length_seq|].
  rewrite Hms. apply Forall_forall. intros m Hm.
  apply elem_of_seq in Hm. apply untouched_empty.
  pose proof allowed_even. lia.
Qed.

Lemma pureRandom_tally t :
  length participants < bracketSize ->
  let r :=
    (pureRandomPlayInPlacement participants bracketSize
       (Z.max 0 (Z.of_nat (length participants)
                 - Z.of_nat (bracketSize / 2))) t).1 in
  playInMatchesIn (placed r) = length participants - bracketSize / 2
  /\ unseeded <$> occupants (placed r) ≡ₚ unseeded <$> participants.
Proof.
  intros Hn. pose proof allowed_even as Heven.
  unfold pureRandomPlayInPlacement, bind, ret.
  run_shuffle shuffled Hs.
  assert (Hrs : allReal shuffled) by (by eapply perm_real).
  pose proof (Permutation_length Hs) as Hlen.
  destruct (Z.leb_spec (0 `max` (Z.of_nat (length participants)
                                 - Z.of_nat (bracketSize / 2))) 0)
    as [Hle|Hgt].
  - run_shuffle shuffledSlots Hslots.
    destruct (match_slots_fresh _ Hslots) as (Hnd & Hlens & Hfresh).
    cbn [fst placed].
    rewrite playInMatchesIn_fillNulls, occupants_fillNulls.
    rewrite <- (take_drop (length shuffled) shuffledSlots) in Hnd, Hfresh.
    apply NoDup_app in Hnd as (Hnd1 & Hdisj & Hnd2).
    apply Forall_app in Hfresh as [Hf1 Hf2].
    assert (Hfew : length participants <= bracketSize / 2) by lia.
    match goal with
    | |- context [foldl ?f2 (foldl ?f1 ?r0 ?xs1) ?xs2] =>
        pose proof (stateless_pass f1 snd (fun x => [x.1]) xs1) as Hp1;
        pose proof (stateless_pass f2 id (fun _ => []) xs2) as Hp2
    end.
    rewrite snd_zip_take, bind_singleton, fst_zip in Hp1 by lia.
    rewrite list_fmap_id, bind_empty in Hp2.
    lapply Hp1; [clear Hp1; intros Hp1|].
    2:{ intros result [p slot] Hin Hunt. simpl in *.
        apply advance_single; [done|].
        unfold allReal in Hrs. rewrite Forall_forall in Hrs.
        apply Hrs. by eapply elem_of_zip_l. }
    lapply Hp2; [clear Hp2; intros Hp2|].
    2:{ intros result m Hin Hunt. by apply advance_empty. }
    pose proof (Hp1 _ Hnd1 Hf1) as Hadv1.
    assert (Hf2' : Forall (untouched
                     (foldl (fun (res : slots) '(p, slot) =>
                               placeBye (slot * 2 + 1) (place (slot * 2) p res))
                        (replicate bracketSize None)
                        (zip shuffled shuffledSlots)))
                     (drop (length shuffled) shuffledSlots)).
    { destruct Hadv1 as (_ & _ & _ & Hkeep).
      rewrite Forall_forall in Hf2. apply Forall_forall. intros m Hm.
      apply Hkeep; [|by apply Hf2].
      intros Hm'. by apply (Hdisj m). }
    pose proof (Hp2 _ Hnd2 Hf2') as Hadv2.
    destruct (advance_trans _ _ _ _ _ _ _ _ _ Hadv1 Hadv2) as (_ & Hk & Ho & _).
    split.
    + rewrite Hk, playInMatchesIn_empty. lia.
    + rewrite Ho, occupants_empty, app_nil_r. simpl. rewrite app_nil_r.
      by rewrite Hs.
  - run_shuffle shuffledSlots Hslots.
    destruct (match_slots_fresh _ Hslots) as (Hnd & Hlens & Hfresh).
    cbn [fst placed].
    rewrite playInMatchesIn_fillNulls, occupants_fillNulls.
    set (k := length participants - bracketSize / 2).
    assert (Hk : 0 < k) by lia.
    replace (0 `max` (Z.of_nat (length participants)
                      - Z.of_nat (bracketSize / 2)))%Z
      with (Z.of_nat k) by lia.
    replace (Z.of_nat k * 2)%Z with (Z.of_nat (2 * k)) by lia.
    rewrite !slice_to_nat, !slice_from_nat.
    rewrite <- (take_drop k shuffledSlots) in Hnd, Hfresh.
    apply NoDup_app in Hnd as (Hnd1 & Hdisj & Hnd2).
    apply Forall_app in Hfresh as [Hf1 Hf2].
    destruct (playIn_pass (take (2 * k) shuffled) (take k shuffledSlots)
                (Forall_take _ _ _ Hrs) 0 _ Hnd1 Hf1)
      as (result1 & Hfold1 & Hadv1).
    { rewrite !length_take. lia. }
    unfold placePlayInMatches. rewrite Hfold1. cbn [snd].
    assert (Hf2' : Forall (untouched result1) (drop k shuffledSlots)).
    { destruct Hadv1 as (_ & _ & _ & Hkeep).
      rewrite Forall_forall in Hf2. apply Forall_forall. intros m Hm.
      apply Hkeep; [|by apply Hf2].
      intros Hm'. by apply (Hdisj m). }
    destruct (bye_pass (drop (2 * k) shuffled) (drop k shuffledSlots)
                (Forall_drop _ _ _ Hrs) 0 result1 Hnd2 Hf2')
      as (idx' & result2 & Hfold2 & Hadv2).
    unfold placeByeMatches. rewrite Hfold2. cbn [snd].
    destruct (advance_trans _ _ _ _ _ _ _ _ _ Hadv1 Hadv2)
      as (_ & Hk' & Ho & _).
    split.
    + rewrite Hk', playInMatchesIn_empty, length_take. lia.
    + rewrite Ho, occupants_empty, app_nil_r. rewrite !drop_0.
      rewrite (take_ge (drop (2 * k) shuffled))
        by (rewrite !length_drop; lia).
      rewrite take_take.
      replace ((2 * length (take k shuffledSlots)) `min` (2 * k)) with (2 * k)
        by (rewrite length_take; lia).
      by rewrite take_drop, Hs.
Qed.

End PureRandom.


Section Untagged.

Implicit Types (participants : list Participant) (bracketSize : nat) (t : tape).

Lemma untagged_no_groups participants :
  untagged participants -> dayOf participants = [] /\ nightOf participants = [].
Proof.
  unfold untagged, dayOf, nightOf.
  induction 1 as [|p ps [Hd Hn] _ [IH1 IH2]]; [done|].
  simpl. by rewrite Hd, Hn, IH1, IH2.
Qed.

Lemma placeByAvailability_untagged participants bracketSize t :
  untagged participants -> length participants <> bracketSize ->
  placeByAvailability participants bracketSize t
    = pureRandomPlayInPlacement participants bracketSize
        (Z.max 0 (Z.of_nat (length participants)
                  - Z.of_nat (bracketSize / 2))) t.
Proof.
  intros Htag Hn. unfold placeByAvailability.
  rewrite decide_False by done.
  destruct (untagged_no_groups _ Htag) as [-> ->]. done.
Qed.

Lemma placeFullBracket_untagged participants bracketSize t :
  untagged participants ->
  placed (placeFullBracket participants bracketSize t).1
    = seedInOrder (shuffle participants t).1.
Proof.
  intros Htag. unfold placeFullBracket.
  destruct (untagged_no_groups _ Htag) as [-> ->]. simpl.
  unfold bind, ret. by destruct (shuffle participants t).
Qed.

Lemma occupants_seeded (g : nat -> nat) (l : list Participant) :
  allReal l ->
  unseeded <$> occupants (imap (fun i p => Some (withSeed p (g i))) l)
    = unseeded <$> l.
Proof.
  unfold allReal. intros Hl. revert g.
  induction Hl as [|p k Hp _ IH]; intros g; [done|].
  rewrite imap_cons, fmap_cons. unfold occupants in *.
  match goal with
  | |- context [omap occupant (Some ?q :: ?rest)] =>
      change (omap occupant (Some q :: rest))
        with (match occupant (Some q) with
              | Some y => y :: omap occupant rest
              | None => omap occupant rest
              end)
  end.
  simpl. rewrite Hp. rewrite fmap_cons. f_equal.
  apply (IH (g ∘ S)).
Qed.

Lemma occupants_seedInOrder (l : list Participant) :
  allReal l -> unseeded <$> occupants (seedInOrder l) = unseeded <$> l.
Proof. apply (occupants_seeded (fun i => i + 1)). Qed.

Lemma seedInOrder_no_null (l : list Participant) i :
  seedInOrder l !! i <> Some None.
Proof.
  unfold seedInOrder. rewrite list_lookup_imap.
  by destruct (l !! i).
Qed.

Lemma fillNulls_full bracketSize (result : slots) i :
  length (fillNulls bracketSize result) = bracketSize ->
  fillNulls bracketSize result !! i <> Some None.
Proof.
  intros Hlen. apply fillNulls_no_null.
  unfold fillNulls in Hlen. rewrite length_imap in Hlen. lia.
Qed.

(** The partial-bracket paths end with the pass that turns [null] into
    BYE, so their slot arrays have no [null] cell. *)
Lemma placeByAvailability_no_null participants bracketSize t i :
  length participants <> bracketSize ->
  placed (placeByAvailability participants bracketSize t).1 !! i <> Some None.
Proof.
  intros Hn.
  destruct (placeByAvailability_filling participants bracketSize t)
    as [Hlen _].
  revert Hlen. unfold placeByAvailability. rewrite decide_False by done.
  destruct (negb _).
  - unfold pureRandomPlayInPlacement, bind, ret.
    destruct (shuffle participants t) as [shuffled t1].
    destruct (_ <=? _)%Z; destruct (shuffle (seq 0 _) t1) as [shuffledSlots t2];
      cbn [fst placed]; apply fillNulls_full.
  - unfold bind, ret.
    destruct (shuffle (dayOf participants) t) as [shuffledDay t1].
    destruct (shuffle (nightOf participants) t1) as [shuffledNight t2].
    destruct (adjustPlayIn _ _ _ _ _) as [actualDayPlayIn actualNightPlayIn].
    destruct (shuffle (seq 0 _) t2) as [shuffledDaySlots t3].
    destruct (shuffle (seq 0 _) t3) as [shuffledNightSlots t4].
    cbn [fst placed]. apply fillNulls_full.
Qed.

End Untagged.


(** X1.  Participants without availability tags, fewer than the bracket has
    cells: the slot array holds exactly [max(0, n - bracketSize/2)] round-1
    matches between two real participants, whatever the random draws. *)
Theorem untagged_play_in_count (participants : list Participant)
    (bracketSize : nat) (t : tape) (r : Placement) :
  isAllowedSize bracketSize = true ->
  allReal participants -> untagged participants ->
  length participants < bracketSize ->
  (seedParticipants participants bracketSize t).1 = SeedSuccess r ->
  Z.of_nat (playInMatchesIn (placed r))
    = Z.max 0 (Z.of_nat (length participants) - Z.of_nat (bracketSize / 2)).
Proof.
  intros Hsize Hreal Htag Hn Hr.
  apply seedParticipants_success in Hr as (_ & _ & ->).
  rewrite placeByAvailability_untagged by (done || lia).
  destruct (pureRandom_tally participants bracketSize Hsize Hreal t Hn)
    as [-> _].
  lia.
Qed.

(** Five untagged entrants in a bracket of eight: one play-in match. *)
Lemma untagged_play_in_count_witness :
  playInMatchesIn (placed (placeByAvailability fiveEntrants 8 sampleTape).1) = 1.
Proof.
  assert (Hrun : (seedParticipants fiveEntrants 8 sampleTape).1
                 = SeedSuccess (placeByAvailability fiveEntrants 8 sampleTape).1)
    by (by vm_compute).
  assert (Hreal : allReal fiveEntrants)
    by (unfold allReal, fiveEntrants; repeat constructor).
  assert (Htag : untagged fiveEntrants)
    by (unfold untagged, fiveEntrants; repeat constructor).
  pose proof (untagged_play_in_count fiveEntrants 8 sampleTape _ eq_refl
                Hreal Htag ltac:(vm_compute; lia) Hrun) as H.
  apply Nat2Z.inj. rewrite H. reflexivity.
Defined.

(** X2.  Participants without availability tags, at most as many as the
    bracket has cells: the slot array has [bracketSize] cells, its real
    entries are the input participants, each exactly once (up to the seed
    field), the other [bracketSize - n] cells are BYEs, and no cell is
    [null], whatever the random draws. *)
Theorem untagged_conservation (participants : list Participant)
    (bracketSize : nat) (t : tape) (r : Placement) :
  isAllowedSize bracketSize = true ->
  allReal participants -> untagged participants ->
  length participants <= bracketSize ->
  (seedParticipants participants bracketSize t).1 = SeedSuccess r ->
  length (placed r) = bracketSize
  /\ unseeded <$> occupants (placed r) ≡ₚ unseeded <$> participants
  /\ realCount (placed r) = length participants
  /\ byeCells (placed r) = bracketSize - length participants
  /\ nullCells (placed r) = 0.
Proof.
  intros Hsize Hreal Htag Hn Hr.
  apply seedParticipants_success in Hr as (_ & _ & ->).
  destruct (placeByAvailability_filling participants bracketSize t)
    as [Hlen _].
  assert (Hocc : unseeded <$> occupants
                   (placed (placeByAvailability participants bracketSize t).1)
                 ≡ₚ unseeded <$> participants
                 /\ forall i, placed (placeByAvailability participants
                                       bracketSize t).1 !! i <> Some None).
  { destruct (decide (length participants = bracketSize)) as [Heq|Hne].
    - unfold placeByAvailability. rewrite decide_True by done.
      rewrite placeFullBracket_untagged by done.
      split; [|intros i; apply seedInOrder_no_null].
      rewrite occupants_seedInOrder
        by (eapply perm_real; [apply shuffle_perm|done]).
      by rewrite shuffle_perm.
    - split; [|intros i; by apply placeByAvailability_no_null].
      rewrite placeByAvailability_untagged by done.
      apply (pureRandom_tally participants bracketSize Hsize Hreal t). lia. }
  destruct Hocc as [Hocc Hnull].
  destruct (cells_partition _ Hnull) as [Hnone Hsum].
  assert (Hcount : realCount
                     (placed (placeByAvailability participants bracketSize t).1)
                   = length participants).
  { rewrite realCount_occupants.
    apply Permutation_length in Hocc. by rewrite !length_fmap in Hocc. }
  repeat split; try done. lia.
Qed.

(** Five untagged entrants in a bracket of eight: five real entries and
    three BYEs in eight cells. *)
Lemma untagged_conservation_witness :
  length (placed (placeByAvailability fiveEntrants 8 sampleTape).1) = 8
  /\ realCount (placed (placeByAvailability fiveEntrants 8 sampleTape).1) = 5
  /\ byeCells (placed (placeByAvailability fiveEntrants 8 sampleTape).1) = 3.
Proof.
  assert (Hrun : (seedParticipants fiveEntrants 8 sampleTape).1
                 = SeedSuccess (placeByAvailability fiveEntrants 8 sampleTape).1)
    by (by vm_compute).
  assert (Hreal : allReal fiveEntrants)
    by (unfold allReal, fiveEntrants; repeat constructor).
  assert (Htag : untagged fiveEntrants)
    by (unfold untagged, fiveEntrants; repeat constructor).
  destruct (untagged_conservation fiveEntrants 8 sampleTape _ eq_refl
              Hreal Htag ltac:(vm_compute; lia) Hrun)
    as (Hlen & _ & Hcount & Hbyes & _).
  split; [exact Hlen|]. split; [exact Hcount|exact Hbyes].
Defined.

(** X3.  The slot array of every successful placement has exactly
    [bracketSize] cells: no path writes past the end of the array. *)
Theorem placed_length (participants : list Participant) (bracketSize : nat)
    (t : tape) (r : Placement) :
  (seedParticipants participants bracketSize t).1 = SeedSuccess r ->
  length (placed r) = bracketSize.
Proof.
  intros Hr. apply seedParticipants_success in Hr as (_ & _ & ->).
  by destruct (placeByAvailability_filling participants bracketSize t).
Qed.

(** Seven Day entrants in a bracket of eight: eight cells. *)
Lemma placed_length_witness :
  length (placed (placeByAvailability sevenDay 8 sampleTape).1) = 8.
Proof.
  apply (placed_length sevenDay 8 sampleTape).
  by vm_compute.
Defined.

(** X4.  When the number of participants differs from the bracket size
    (the partial-bracket paths), no cell of the slot array is [null]. *)
Theorem partial_bracket_no_null (participants : list Participant)
    (bracketSize : nat) (t : tape) (r : Placement) :
  (seedParticipants participants bracketSize t).1 = SeedSuccess r ->
  length participants <> bracketSize ->
  nullCells (placed r) = 0 /\ forall i, placed r !! i <> Some None.
Proof.
  intros Hr Hn. apply seedParticipants_success in Hr as (_ & _ & ->).
  assert (Hnull : forall i, placed (placeByAvailability participants
                                      bracketSize t).1 !! i <> Some None)
    by (intros i; by apply placeByAvailability_no_null).
  split; [|done]. by destruct (cells_partition _ Hnull).
Qed.

(** Four Day entrants and one Night entrant in a bracket of eight. *)
Lemma partial_bracket_no_null_witness :
  nullCells (placed (placeByAvailability fourDayOneNight 8 sampleTape).1) = 0.
Proof.
  refine (proj1 (partial_bracket_no_null fourDayOneNight 8 sampleTape _ _ _)).
  - by vm_compute.
  - by vm_compute.
Defined.

(** X5.  [shuffle] returns a permutation of its argument, of the same
    length, whatever the random draws. *)
Theorem shuffle_is_permutation {A} (array : list A) (t : tape) :
  (shuffle array t).1 ≡ₚ array
  /\ length (shuffle array t).1 = length array.
Proof. split; [apply shuffle_perm|apply shuffle_length]. Qed.

(** ** The pairing engine: byes, bracket, validation, statistics *)

Section AssignByes.

Import pairingEngine.

Implicit Types (l : slots) (c : cell) (size : nat).

Lemma array_set_end {A} (hole : A) (v : A) (arr : list A) :
  array_set hole (length arr) v arr = arr ++ [v].
Proof.
  unfold array_set. rewrite decide_False by lia.
  by rewrite Nat.sub_diag.
Qed.

(** The copy loop: after [k] rounds the first [k] cells are those of [l]. *)
Lemma copy_loop l size k :
  k <= length l ->
  foldl (fun res i => array_set None i (readSlot l i) res)
    (replicate size None) (seq 0 k)
  = take k l ++ replicate (size - k) None.
Proof.
  induction k as [|k IH]; intros Hk.
  - simpl. by rewrite Nat.sub_0_r.
  - rewrite seq_S, foldl_app, IH by lia. simpl.
    destruct (lookup_lt_is_Some_2 l k) as [c Hc]; [lia|].
    unfold readSlot. rewrite Hc, (take_S_r _ _ _ Hc).
    destruct (decide (k < size)) as [Hlt|Hge].
    + rewrite array_set_inside
        by (rewrite length_app, length_take, length_replicate; lia).
      replace (size - k) with (S (size - S k)) by lia. simpl.
      rewrite insert_app_r_alt by (rewrite length_take; lia).
      rewrite length_take, Nat.min_l, Nat.sub_diag by lia. simpl.
      by rewrite <- app_assoc.
    + replace (size - k) with 0 by lia. replace (size - S k) with 0 by lia.
      simpl. rewrite !app_nil_r.
      pose proof (array_set_end None c (take k l)) as Hend.
      rewrite length_take, Nat.min_l in Hend by lia. exact Hend.
Qed.

Lemma placeBye_at (pre rest : slots) :
  placeBye (length pre) (pre ++ None :: rest) = pre ++ Some createBye :: rest.
Proof.
  unfold placeBye.
  rewrite array_set_inside by (rewrite length_app; simpl; lia).
  by rewrite insert_app_r_alt, Nat.sub_diag by lia.
Qed.

(** The loop that writes BYEs into the cells from [length pre] on. *)
Lemma bye_loop (pre post : slots) n :
  foldl (fun res i => placeBye i res) (pre ++ replicate n None ++ post)
    (seq (length pre) n)
  = pre ++ replicate n (Some createBye) ++ post.
Proof.
  revert pre. induction n as [|n IH]; intros pre; [done|].
  cbn [seq foldl replicate app]. rewrite placeBye_at.
  replace (pre ++ Some createBye :: replicate n None ++ post)
    with ((pre ++ [Some createBye]) ++ replicate n None ++ post)
    by (by rewrite <- app_assoc).
  replace (S (length pre)) with (length (pre ++ [Some createBye]))
    by (rewrite length_app; simpl; lia).
  rewrite IH. by rewrite <- app_assoc.
Qed.

Lemma assignByes_legacy l size :
  existsb isByeCell l = false ->
  assignByes l size
  = List.filter isPresent l
    ++ replicate (size - length (List.filter isPresent l)) (Some createBye).
Proof.
  intros Hno. unfold assignByes. rewrite Hno.
  set (actual := List.filter isPresent l).
  case_decide as Hlen.
  - rewrite Hlen, Nat.sub_diag. simpl. by rewrite app_nil_r.
  - rewrite copy_loop by lia. rewrite take_ge by lia.
    pose proof (bye_loop actual [] (size - length actual)) as Hb.
    rewrite !app_nil_r in Hb. exact Hb.
Qed.

Lemma assignByes_kept l size :
  existsb isByeCell l = true ->
  assignByes l size
  = fillNulls size (take size l ++ replicate (size - length l) None).
Proof.
  intros Hyes. unfold assignByes. rewrite Hyes.
  rewrite copy_loop by lia. f_equal.
  destruct (decide (length l <= size)).
  - rewrite Nat.min_l by lia. by rewrite !take_ge by lia.
  - rewrite Nat.min_r by lia.
    replace (size - length l) with 0 by lia. by rewrite Nat.sub_diag.
Qed.

Lemma filter_present_no_null l i :
  List.filter isPresent l !! i <> Some None.
Proof.
  intros Hi. apply list_elem_of_lookup_2 in Hi.
  apply list_elem_of_In, filter_In in Hi as [_ Hi]. done.
Qed.

Lemma complete_filter l :
  (forall i, l !! i <> Some None) -> List.filter isPresent l = l.
Proof.
  induction l as [|c l IH]; intros Hl; [done|].
  simpl. destruct c as [p|]; [|by destruct (Hl 0)].
  simpl. f_equal. apply IH. intros i. apply (Hl (S i)).
Qed.

End AssignByes.
Section Brackets.

Import pairingEngine.

Implicit Types (l s : slots) (c : cell) (size : nat).

Lemma nullCells_zero l : nullCells l = 0 -> forall i, l !! i <> Some None.
Proof.
  unfold nullCells. induction l as [|c l IH]; intros Hz i; [done|].
  destruct c as [p|]; [|done]. destruct i as [|i]; [done|].
  simpl. by apply IH.
Qed.

Lemma assignByes_no_null l size i : assignByes l size !! i <> Some None.
Proof.
  destruct (existsb isByeCell l) eqn:Hb.
  - rewrite assignByes_kept by done. apply fillNulls_no_null.
    rewrite length_app, length_take, length_replicate. lia.
  - rewrite assignByes_legacy by done. intros Hi.
    apply lookup_app_Some in Hi as [Hi|[_ Hi]].
    + by apply filter_present_no_null in Hi.
    + by apply lookup_replicate in Hi as [? _].
Qed.

Lemma assignByes_length l size :
  length (assignByes l size)
  = if existsb isByeCell l then size
    else Nat.max (length (List.filter isPresent l)) size.
Proof.
  destruct (existsb isByeCell l) eqn:Hb.
  - rewrite assignByes_kept by done. unfold fillNulls.
    rewrite length_imap, length_app, length_take, length_replicate. lia.
  - rewrite assignByes_legacy by done.
    rewrite length_app, length_replicate. lia.
Qed.

Lemma no_null_existsb s :
  (forall i, s !! i <> Some None) -> existsb isNullCell s = false.
Proof.
  induction s as [|c s IH]; intros Hs; [done|].
  destruct c as [p|]; [|by destruct (Hs 0)].
  simpl. apply IH. intros i. apply (Hs (S i)).
Qed.

Lemma generateBracket_valid l size :
  l <> [] -> isAllowedSize size = true ->
  generateBracket l size
  = BracketSuccess
      {| bracket := {| rounds := [buildRound1 (assignByes l size)];
                       bracketSize := size;
                       participantCount := realCount (assignByes l size) |};
         generatedSize := size;
         generatedCount := length (List.filter isPresent l);
         byeCount := byeCells (assignByes l size) |}.
Proof.
  intros Hl Hsize. unfold generateBracket, buildBracketStructure.
  destruct l as [|c l]; [done|]. cbn [length Nat.eqb]. rewrite Hsize. simpl negb.
  cbv iota. by rewrite no_null_existsb by apply assignByes_no_null.
Qed.

Lemma generateBracket_success l size g :
  generateBracket l size = BracketSuccess g ->
  l <> [] /\ isAllowedSize size = true.
Proof.
  unfold generateBracket. destruct l as [|c l]; [done|].
  cbn [length Nat.eqb]. by destruct (isAllowedSize size).
Qed.

Lemma even_allowed size : isAllowedSize size = true -> size = 2 * (size / 2).
Proof. intros Hsize. by apply allowed_even. Qed.

(** In a round built from an array without [null], no match is empty. *)
Lemma round1_no_empty s :
  (forall i, s !! i <> Some None) ->
  List.filter isEmptyMatch (matches (buildRound1 s)) = [].
Proof.
  intros Hs. unfold buildRound1. cbn [matches].
  assert (Hall : Forall (fun i => i * 2 < length s)
                   (seq 0 ((length s + 1) / 2))).
  { apply Forall_forall. intros i Hi. apply elem_of_seq in Hi.
    pose proof (Nat.div_mod_eq (length s + 1) 2).
    pose proof (Nat.mod_upper_bound (length s + 1) 2). lia. }
  induction Hall as [|i rest Hi _ IH]; [done|].
  cbn [map]. cbn [List.filter].
  replace (isEmptyMatch (buildMatch s i)) with false; [exact IH|].
  unfold isEmptyMatch, buildMatch, readSlot. cbn [player1 player2].
  destruct (lookup_lt_is_Some_2 s (i * 2) Hi) as [c Hc]. rewrite Hc.
  destruct c as [p|]; [done|]. by destruct (Hs (i * 2)).
Qed.

Lemma validate_round1 s size count :
  (forall i, s !! i <> Some None) -> size = 2 * (size / 2) ->
  size <= length s ->
  validateBracket {| rounds := [buildRound1 s]; bracketSize := size;
                     participantCount := count |}
  = if decide (length s = size) then {| valid := true; errors := [] |}
    else {| valid := false;
            errors := ["Round 1: Expected " +:+ showHalf size
                       +:+ " matches, found "
                       +:+ showCount ((length s + 1) / 2)] |}.
Proof.
  intros Hs Heven Hle. unfold validateBracket.
  cbn [rounds bracketSize length Nat.eqb lookup list_lookup].
  rewrite round1_no_empty by done. cbn [length Nat.ltb Nat.leb].
  unfold buildRound1. cbn [matches]. rewrite length_map, length_seq.
  pose proof (Nat.div_mod_eq (length s + 1) 2).
  pose proof (Nat.mod_upper_bound (length s + 1) 2).
  destruct (decide (length s = size)) as [Heq|Hne].
  - rewrite decide_True by lia. done.
  - rewrite decide_False by lia. done.
Qed.

(** A match beyond the first reads the array two cells further on. *)
Lemma hasWinner_shift a b s i :
  hasWinner (buildMatch (a :: b :: s) (S i)) = hasWinner (buildMatch s i).
Proof.
  unfold hasWinner, buildMatch, readSlot. cbn [winner].
  replace (S i * 2) with (S (S (i * 2))) by lia.
  replace (S (S (i * 2)) + 1) with (S (S (i * 2 + 1))) by lia.
  done.
Qed.

Lemma hasWinner_first p q s :
  hasWinner (buildMatch (Some p :: Some q :: s) 0)
  = negb (isRealCell (Some p) && isRealCell (Some q)).
Proof.
  unfold hasWinner, buildMatch, readSlot. simpl.
  by destruct (isBye q), (isBye p).
Qed.

Lemma filter_length_ext {A B} (f g : B -> bool) (h k : A -> B) (xs : list A) :
  (forall x, f (h x) = g (k x)) ->
  length (List.filter f (map h xs)) = length (List.filter g (map k xs)).
Proof.
  intros Hext. induction xs as [|x xs IH]; [done|].
  simpl. rewrite Hext. destruct (g (k x)); simpl; by rewrite IH.
Qed.

Lemma decided_pair a b s :
  decided (a :: b :: s)
  = (if hasWinner (buildMatch (a :: b :: s) 0) then 1 else 0) + decided s.
Proof.
  unfold decided, buildRound1. cbn [matches length].
  replace ((S (S (length s)) + 1) / 2) with (S ((length s + 1) / 2)).
  2:{ replace (S (S (length s)) + 1) with (1 * 2 + (length s + 1)) by lia.
      by rewrite Nat.div_add_l by lia. }
  cbn [seq map]. rewrite <- seq_shift, map_map. cbn [List.filter].
  destruct (hasWinner (buildMatch (a :: b :: s) 0)); cbn [length];
    rewrite (filter_length_ext hasWinner hasWinner
               (fun i => buildMatch (a :: b :: s) (S i)) (buildMatch s))
      by apply hasWinner_shift; done.
Qed.

(** Every match of round 1 is decided by a BYE or is a match between two
    real participants; a last cell without a partner forms an open match. *)
Lemma decided_tally s :
  (forall i, s !! i <> Some None) ->
  decided s + playInMatchesIn s + length s mod 2 = (length s + 1) / 2.
Proof.
  induction s as [| a | a b s IH] using pair_ind; intros Hs.
  - done.
  - by destruct a.
  - rewrite decided_pair. cbn [playInMatchesIn length].
    replace ((S (S (length s)) + 1) / 2) with (S ((length s + 1) / 2)).
    2:{ replace (S (S (length s)) + 1) with (1 * 2 + (length s + 1)) by lia.
        by rewrite Nat.div_add_l by lia. }
    replace (S (S (length s)) mod 2) with (length s mod 2).
    2:{ replace (S (S (length s))) with (length s + 1 * 2) by lia.
        by rewrite Nat.Div0.mod_add. }
    assert (Hrest : forall i, s !! i <> Some None)
      by (intros i; apply (Hs (S (S i)))).
    specialize (IH Hrest).
    destruct a as [p|]; [|by destruct (Hs 0)].
    destruct b as [q|]; [|by destruct (Hs 1)].
    rewrite hasWinner_first.
    destruct (isRealCell (Some p) && isRealCell (Some q)); cbn [negb]; lia.
Qed.

Lemma flat_matches (b : Bracket) :
  flatMatch <$> getFlatMatchList b = r ← rounds b; matches r.
Proof.
  unfold getFlatMatchList. induction (rounds b) as [|r rs IH]; [done|].
  cbn. rewrite fmap_app, IH. f_equal.
  rewrite <- list_fmap_compose. apply list_fmap_id.
Qed.

End Brackets.
Section BracketFacts.

Import pairingEngine.

Implicit Types (l s : slots) (c : cell) (size : nat).

Lemma fillNulls_complete s size :
  (forall i, s !! i <> Some None) -> fillNulls size s = s.
Proof.
  intros Hs. apply list_eq. intros i. unfold fillNulls.
  rewrite list_lookup_imap.
  destruct (s !! i) as [[p|]|] eqn:Hi; try done. by destruct (Hs i).
Qed.

Lemma assignByes_complete l size :
  (forall i, l !! i <> Some None) -> length l = size -> assignByes l size = l.
Proof.
  intros Hl Hlen. destruct (existsb isByeCell l) eqn:Hb.
  - rewrite assignByes_kept by done.
    rewrite take_ge by lia. replace (size - length l) with 0 by lia.
    simpl. rewrite app_nil_r. by apply fillNulls_complete.
  - rewrite assignByes_legacy by done. rewrite complete_filter by done.
    replace (size - length l) with 0 by lia. simpl. by rewrite app_nil_r.
Qed.

Lemma assignByes_kept_lookup l size i :
  existsb isByeCell l = true -> i < size ->
  assignByes l size !! i
  = Some (match readSlot l i with
          | Some p => Some p
          | None => Some createBye
          end).
Proof.
  intros Hb Hi. rewrite assignByes_kept by done. unfold fillNulls, readSlot.
  rewrite list_lookup_imap.
  destruct (decide (i < length l)) as [Hlt|Hge].
  - rewrite lookup_app_l by (rewrite length_take; lia).
    rewrite lookup_take_lt by done.
    destruct (lookup_lt_is_Some_2 l i Hlt) as [c ->]. simpl.
    destruct c; [done|]. by rewrite decide_True.
  - rewrite lookup_app_r by (rewrite length_take; lia).
    rewrite lookup_replicate_2 by (rewrite length_take; lia).
    rewrite lookup_ge_None_2 by lia. simpl. by rewrite decide_True.
Qed.

Lemma stats_of_round1 s size count :
  (forall i, s !! i <> Some None) ->
  let st := getBracketStats {| rounds := [buildRound1 s]; bracketSize := size;
                               participantCount := count |} in
  totalMatches st = (length s + 1) / 2
  /\ completedMatches st + remainingMatches st = totalMatches st
  /\ remainingMatches st = playInMatchesIn s + length s mod 2.
Proof.
  intros Hs. pose proof (decided_tally s Hs) as Htally.
  unfold decided in Htally. unfold getBracketStats.
  cbn [rounds lookup list_lookup totalMatches completedMatches remainingMatches].
  assert (Hlen : length (matches (buildRound1 s)) = (length s + 1) / 2)
    by (unfold buildRound1; cbn [matches]; by rewrite length_map, length_seq).
  rewrite Hlen. lia.
Qed.

End BracketFacts.

(** X6.  Without a BYE in its input, [assignByes] drops the [null] cells,
    keeps the participants in their order at the top of the bracket and
    appends BYEs up to the bracket size; with more participants than cells it
    appends none and returns an array longer than the bracket. *)
Theorem assignByes_top_loads (participants : slots) (bracketSize : nat) :
  existsb isByeCell participants = false ->
  pairingEngine.assignByes participants bracketSize
  = List.filter pairingEngine.isPresent participants
    ++ replicate
         (bracketSize - length (List.filter pairingEngine.isPresent participants))
         (Some createBye)
  /\ length (pairingEngine.assignByes participants bracketSize)
     = Nat.max (length (List.filter pairingEngine.isPresent participants))
         bracketSize.
Proof.
  intros Hb. split; [by apply assignByes_legacy|].
  by rewrite assignByes_length, Hb.
Qed.

(** Two entrants around a [null] cell, in a bracket of four. *)
Lemma assignByes_top_loads_witness :
  pairingEngine.assignByes
    [Some (entrant "Ada" None); None; Some staleSeedEntrant] 4
  = [Some (entrant "Ada" None); Some staleSeedEntrant;
     Some createBye; Some createBye].
Proof.
  refine (proj1 (assignByes_top_loads
                   [Some (entrant "Ada" None); None; Some staleSeedEntrant]
                   4 _)).
  by vm_compute.
Defined.

(** X7.  With a BYE in its input, [assignByes] returns exactly
    [bracketSize] cells and keeps every position: cell [i] is the input's
    cell [i], or a BYE where the input has [null] or ends; cells of the input
    from [bracketSize] on are cut off. *)
Theorem assignByes_keeps_positions (participants : slots) (bracketSize : nat) :
  existsb isByeCell participants = true ->
  length (pairingEngine.assignByes participants bracketSize) = bracketSize
  /\ forall i, i < bracketSize ->
       pairingEngine.assignByes participants bracketSize !! i
       = Some (match readSlot participants i with
               | Some p => Some p
               | None => Some createBye
               end).
Proof.
  intros Hb. split; [by rewrite assignByes_length, Hb|].
  intros i Hi. by apply assignByes_kept_lookup.
Qed.

(** An entrant, a [null] cell and a BYE, in a bracket of four. *)
Lemma assignByes_keeps_positions_witness :
  length (pairingEngine.assignByes
            [Some (entrant "Ada" None); None; Some createBye] 4) = 4.
Proof.
  refine (proj1 (assignByes_keeps_positions
                   [Some (entrant "Ada" None); None; Some createBye] 4 _)).
  by vm_compute.
Defined.

(** X8.  [assignByes] returns an array without [null] cells unchanged when
    it has as many cells as the bracket, whether or not it holds BYEs. *)
Theorem assignByes_complete_identity (participants : slots)
    (bracketSize : nat) :
  nullCells participants = 0 -> length participants = bracketSize ->
  pairingEngine.assignByes participants bracketSize = participants.
Proof.
  intros Hnull Hlen. apply assignByes_complete; [|done].
  by apply nullCells_zero.
Qed.

(** The slot array of five entrants in a bracket of eight. *)
Lemma assignByes_complete_identity_witness :
  pairingEngine.assignByes
    (placed (placeByAvailability fiveEntrants 8 sampleTape).1) 8
  = placed (placeByAvailability fiveEntrants 8 sampleTape).1.
Proof.
  apply (assignByes_complete_identity
           (placed (placeByAvailability fiveEntrants 8 sampleTape).1) 8).
  - by vm_compute.
  - by vm_compute.
Defined.

(** X9.  [generateBracket] fails in two cases only: without participants,
    with the message of that case (whatever the bracket size), and with
    participants and a bracket size other than 8, 16, 32, 64 and 128, with the
    bracket-size message.  Its [catch] clause is never reached: no array of
    participants, BYEs and [null] cells makes the engine throw. *)
Theorem generateBracket_failures (seededParticipants : slots)
    (bracketSize : nat) (error : pairingEngine.ErrorMessage) :
  (pairingEngine.generateBracket seededParticipants bracketSize
   = pairingEngine.BracketFailure error
   <-> (seededParticipants = []
        /\ error = pairingEngine.Message pairingEngine.noParticipantsProvided)
       \/ (seededParticipants <> [] /\ isAllowedSize bracketSize = false
           /\ error = pairingEngine.Message invalidSizeError))
  /\ pairingEngine.generateBracket seededParticipants bracketSize
     <> pairingEngine.BracketFailure pairingEngine.CaughtException.
Proof.
  destruct seededParticipants as [|c l].
  - split; [|done]. split.
    + intros [= <-]. by left.
    + intros [[_ ->]|[? _]]; done.
  - destruct (isAllowedSize bracketSize) eqn:Hsize.
    + rewrite generateBracket_valid by done. split; [|done]. split; [done|].
      intros [[? _]|(_ & ? & _)]; done.
    + unfold pairingEngine.generateBracket. cbn [length Nat.eqb].
      rewrite Hsize. cbn [negb]. split; [|done]. split.
      * intros [= <-]. by right.
      * intros [[? _]|(_ & _ & ->)]; done.
Qed.

(** X10.  Seeding, then pairing: for a slot array of [seedParticipants]
    without a [null] cell, [generateBracket] succeeds with the round 1 of that
    very array; the bracket counts its real participants, while the result's
    own [participantCount] counts the BYE cells too and so equals the bracket
    size; [validateBracket] accepts the bracket; and [getBracketStats] reports
    as remaining the matches between two real participants, the others
    being decided by a BYE. *)
Theorem bracket_of_placement (participants : list Participant)
    (bracketSize : nat) (t : tape) (r : Placement) :
  (seedParticipants participants bracketSize t).1 = SeedSuccess r ->
  nullCells (placed r) = 0 ->
  let b := pairingEngine.mkBracket [buildRound1 (placed r)] bracketSize
             (realCount (placed r)) in
  pairingEngine.generateBracket (placed r) bracketSize
  = pairingEngine.BracketSuccess
      (pairingEngine.mkGenerated b bracketSize bracketSize
         (byeCells (placed r)))
  /\ pairingEngine.validateBracket b = pairingEngine.mkValidation true []
  /\ pairingEngine.totalMatches (pairingEngine.getBracketStats b)
     = bracketSize / 2
  /\ pairingEngine.remainingMatches (pairingEngine.getBracketStats b)
     = playInMatchesIn (placed r)
  /\ pairingEngine.completedMatches (pairingEngine.getBracketStats b)
     = bracketSize / 2 - playInMatchesIn (placed r).
Proof.
  intros Hr Hnull b. apply seedParticipants_success in Hr as (Hne & Hsize & ->).
  set (s := placed (placeByAvailability participants bracketSize t).1) in *.
  assert (Hlen : length s = bracketSize)
    by (by destruct (placeByAvailability_filling participants bracketSize t)).
  assert (Hs : forall i, s !! i <> Some None) by (by apply nullCells_zero).
  assert (Hne' : s <> []).
  { intros Hnil. rewrite Hnil in Hlen. simpl in Hlen. subst bracketSize.
    by vm_compute in Hsize. }
  pose proof (even_allowed _ Hsize) as Heven.
  split; [|split].
  - rewrite generateBracket_valid by done.
    rewrite assignByes_complete by done.
    rewrite complete_filter by done. by rewrite Hlen.
  - unfold b. rewrite validate_round1 by (done || lia).
    by rewrite decide_True.
  - destruct (stats_of_round1 s bracketSize (realCount s) Hs)
      as (Htotal & Hsum & Hrem).
    fold b in Htotal, Hsum, Hrem.
    assert (Hhalf : (length s + 1) / 2 = bracketSize / 2).
    { rewrite Hlen. rewrite Heven at 1.
      rewrite Nat.mul_comm, Nat.div_add_l by lia. simpl. lia. }
    assert (Hmod : length s mod 2 = 0).
    { rewrite Hlen, Heven, Nat.mul_comm. apply Nat.Div0.mod_mul. }
    lia.
Qed.

(** Five entrants in a bracket of eight. *)
Lemma bracket_of_placement_witness :
  pairingEngine.validateBracket
    (pairingEngine.mkBracket
       [buildRound1 (placed (placeByAvailability fiveEntrants 8 sampleTape).1)]
       8 (realCount (placed (placeByAvailability fiveEntrants 8 sampleTape).1)))
  = pairingEngine.mkValidation true [].
Proof.
  refine (proj1 (proj2 (bracket_of_placement fiveEntrants 8 sampleTape
                          (placeByAvailability fiveEntrants 8 sampleTape).1
                          _ _))).
  - by vm_compute.
  - by vm_compute.
Defined.

(** X11.  [validateBracket] accepts the bracket of a successful
    [generateBracket] exactly when the input holds a BYE or at most
    [bracketSize] participants; otherwise the participants beyond the bracket
    size make round 1 too long, and that is the one error reported. *)
Theorem validateBracket_generated (seededParticipants : slots)
    (bracketSize : nat) (g : pairingEngine.Generated) :
  pairingEngine.generateBracket seededParticipants bracketSize
  = pairingEngine.BracketSuccess g ->
  let count := length (List.filter pairingEngine.isPresent seededParticipants) in
  (existsb isByeCell seededParticipants = true \/ count <= bracketSize ->
   pairingEngine.validateBracket (pairingEngine.bracket g)
   = pairingEngine.mkValidation true [])
  /\ (existsb isByeCell seededParticipants = false -> bracketSize < count ->
      pairingEngine.validateBracket (pairingEngine.bracket g)
      = pairingEngine.mkValidation false
          ["Round 1: Expected " +:+ pairingEngine.showHalf bracketSize
           +:+ " matches, found "
           +:+ pairingEngine.showCount ((count + 1) / 2)]).
Proof.
  intros Hg count. pose proof (generateBracket_success _ _ _ Hg) as [Hne Hsize].
  rewrite generateBracket_valid in Hg by done. injection Hg as <-.
  cbn [pairingEngine.bracket].
  pose proof (assignByes_length seededParticipants bracketSize) as Hlen.
  fold count in Hlen.
  rewrite validate_round1;
    [|apply assignByes_no_null|by apply even_allowed
     |destruct (existsb _ _); lia].
  split.
  - intros Hok. rewrite decide_True; [done|].
    destruct (existsb _ _); [done|]. destruct Hok; [done|lia].
  - intros Hb Hover. rewrite Hb in Hlen. rewrite decide_False by lia.
    by replace (length (pairingEngine.assignByes seededParticipants bracketSize))
      with count by lia.
Qed.

(** Nine entrants without a BYE, in a bracket of eight: five matches. *)
Lemma validateBracket_generated_witness :
  exists g,
    pairingEngine.generateBracket (Some <$> nineEntrants) 8
    = pairingEngine.BracketSuccess g
    /\ pairingEngine.validateBracket (pairingEngine.bracket g)
       = pairingEngine.mkValidation false
           ["Round 1: Expected 4 matches, found 5"].
Proof.
  eexists. split; [by vm_compute|].
  refine (proj2 (validateBracket_generated (Some <$> nineEntrants) 8 _ _) _ _).
  - by vm_compute.
  - by vm_compute.
  - vm_compute. lia.
Defined.

(** X12.  The statistics of a generated bracket: round 1 has one match for
    every two cells of the array of [assignByes] (and one more for a last
    cell without a partner); the completed matches are those decided by a BYE,
    the remaining ones those between two real participants, and the open match
    of such a last cell. *)
Theorem getBracketStats_generated (seededParticipants : slots)
    (bracketSize : nat) (g : pairingEngine.Generated) :
  pairingEngine.generateBracket seededParticipants bracketSize
  = pairingEngine.BracketSuccess g ->
  let s := pairingEngine.assignByes seededParticipants bracketSize in
  let st := pairingEngine.getBracketStats (pairingEngine.bracket g) in
  pairingEngine.totalMatches st = (length s + 1) / 2
  /\ pairingEngine.completedMatches st + pairingEngine.remainingMatches st
     = pairingEngine.totalMatches st
  /\ pairingEngine.remainingMatches st = playInMatchesIn s + length s mod 2
  /\ pairingEngine.statsParticipants st = realCount s
  /\ pairingEngine.statsSize st = bracketSize.
Proof.
  intros Hg s st. pose proof (generateBracket_success _ _ _ Hg) as [Hne Hsize].
  rewrite generateBracket_valid in Hg by done. injection Hg as <-.
  destruct (stats_of_round1 s bracketSize (realCount s)) as (H1 & H2 & H3);
    [apply assignByes_no_null|].
  by repeat split.
Qed.

(** Nine entrants without a BYE, in a bracket of eight. *)
Lemma getBracketStats_generated_witness :
  exists g,
    pairingEngine.generateBracket (Some <$> nineEntrants) 8
    = pairingEngine.BracketSuccess g
    /\ pairingEngine.remainingMatches
         (pairingEngine.getBracketStats (pairingEngine.bracket g))
       = playInMatchesIn
           (pairingEngine.assignByes (Some <$> nineEntrants) 8)
         + length (pairingEngine.assignByes (Some <$> nineEntrants) 8) mod 2.
Proof.
  eexists. split; [by vm_compute|].
  refine (proj1 (proj2 (proj2
            (getBracketStats_generated (Some <$> nineEntrants) 8 _ _)))).
  by vm_compute.
Defined.

(** X13.  [getFlatMatchList] lists the matches of all rounds in order:
    without the round fields it is the concatenation of the rounds' matches,
    and every entry carries the number and the name of a round that holds its
    match. *)
Theorem getFlatMatchList_matches (b : pairingEngine.Bracket) :
  pairingEngine.flatMatch <$> pairingEngine.getFlatMatchList b
  = (r ← pairingEngine.rounds b; matches r)
  /\ forall fm, fm ∈ pairingEngine.getFlatMatchList b ->
       exists r, r ∈ pairingEngine.rounds b
         /\ pairingEngine.flatMatch fm ∈ matches r
         /\ pairingEngine.flatRoundNumber fm = roundNumber r
         /\ pairingEngine.flatRoundName fm = roundName r.
Proof.
  split; [apply flat_matches|].
  intros fm Hfm. unfold pairingEngine.getFlatMatchList in Hfm.
  apply list_elem_of_bind in Hfm as (r & Hfm & Hr).
  apply list_elem_of_fmap in Hfm as (m & -> & Hm).
  by exists r.
Qed.

(** ** More on the handicap class rounder and the adjustment table *)

Section Labels.

Import handicapRounding.

Lemma prefix_append k1 k2 s :
  String.prefix (k1 +:+ k2) s = true -> String.prefix k1 s = true.
Proof.
  revert s. induction k1 as [|a k1 IH]; intros s; [by destruct s|].
  destruct s as [|b s]; [done|]. simpl.
  destruct (Ascii.ascii_dec a b); [apply IH|done].
Qed.

(** A name that contains a label contains every beginning of the label. *)
Lemma includes_append s k1 k2 :
  includes s (k1 +:+ k2) = true -> includes s k1 = true.
Proof.
  induction s as [|c s IH].
  - cbn [includes]. rewrite !orb_false_r. apply prefix_append.
  - cbn [includes]. rewrite !orb_true_iff. intros [Hp|Hs].
    + left. by apply (prefix_append k1 k2).
    + right. by apply IH.
Qed.

Lemma includes_longer s k1 k2 :
  includes s k1 = false -> includes s (k1 +:+ k2) = false.
Proof.
  intros Hk. destruct (includes s (k1 +:+ k2)) eqn:Hl; [|done].
  apply includes_append in Hl. congruence.
Qed.

Lemma getEventClassBounds_labels eventName :
  getEventClassBounds eventName
  = let lowerName := toLowerCase eventName in
    if includes lowerName "club" || includes lowerName "champ" then None
    else if includes lowerName "4th" then bounds 40 49
    else if includes lowerName "3rd" then bounds 30 39
    else if includes lowerName "2nd" then bounds 20 29
    else if includes lowerName "1st" then Some (mkBounds None (Some 19%float))
    else None.
Proof.
  unfold getEventClassBounds.
  destruct (String.eqb_spec eventName "") as [->|_]; [done|].
  cbv zeta. set (lowerName := toLowerCase eventName).
  destruct (includes lowerName "club"); [done|].
  destruct (includes lowerName "champ") eqn:Hchamp.
  - by rewrite orb_true_r.
  - assert (Hlong : forall k1 k2 k, k = k1 +:+ k2 ->
              includes lowerName k1 = false -> includes lowerName k = false)
      by (intros k1 k2 k ->; apply includes_longer).
    rewrite (Hlong "champ" "ionship" "championship" eq_refl Hchamp).
    cbn [orb]. unfold CLASS_BOUNDS, bounds. cbn [List.find fst snd].
    destruct (includes lowerName "4th") eqn:H4; [done|].
    rewrite (Hlong "4th" " class" "4th class" eq_refl H4).
    destruct (includes lowerName "3rd") eqn:H3; [done|].
    rewrite (Hlong "3rd" " class" "3rd class" eq_refl H3).
    destruct (includes lowerName "2nd") eqn:H2; [done|].
    rewrite (Hlong "2nd" " class" "2nd class" eq_refl H2).
    destruct (includes lowerName "1st") eqn:H1; [done|].
    by rewrite (Hlong "1st" " class" "1st class" eq_refl H1).
Qed.

End Labels.

Section FloatOrder.

Lemma SFltb_false_SFleb x y :
  SFeqb x x = true -> SFeqb y y = true ->
  SFltb y x = false -> SFleb x y = true.
Proof.
  unfold SFltb, SFleb, SFeqb, SFcompare.
  destruct x as [sx|sx| |sx mx ex], y as [sy|sy| |sy my ey];
    try discriminate;
    repeat match goal with s : bool |- _ => destruct s end;
    try discriminate; try reflexivity;
    intros _ _;
    destruct (Z.compare_spec ex ey), (Z.compare_spec ey ex);
    try lia; try discriminate; try reflexivity;
    destruct (compare_cont_spec mx my), (compare_cont_spec my mx);
    simpl; try lia; try discriminate; try reflexivity.
Qed.

Lemma num_lt_le a b : num_lt a b = true -> num_le a b = true.
Proof.
  unfold num_lt, num_le. rewrite ltb_spec, leb_spec. unfold SFltb, SFleb.
  by destruct (SFcompare _ _) as [[]|].
Qed.

Lemma num_not_gt_le h hi :
  is_nan h = false -> is_nan hi = false ->
  num_gt h hi = false -> num_le h hi = true.
Proof.
  unfold is_nan, num_gt, num_le.
  rewrite !FloatAxioms.eqb_spec, ltb_spec, leb_spec, !negb_false_iff.
  apply SFltb_false_SFleb.
Qed.

Lemma num_not_lt_ge h lo :
  is_nan h = false -> is_nan lo = false ->
  num_lt h lo = false -> num_ge h lo = true.
Proof.
  unfold is_nan, num_lt, num_ge.
  rewrite !FloatAxioms.eqb_spec, ltb_spec, leb_spec, !negb_false_iff.
  intros Hh Hlo. by apply SFltb_false_SFleb.
Qed.

End FloatOrder.
Section RoundingFacts.

Import handicapRounding.
Local Open Scope float_scope.

Lemma roundHandicapForClass_stable h b :
  b ∈ classBounds ->
  roundHandicapForClass (roundHandicapForClass h (Some b)) (Some b)
  = roundHandicapForClass h (Some b).
Proof.
  unfold classBounds. intros Hb.
  repeat (apply elem_of_cons in Hb as [->|Hb];
    [unfold roundHandicapForClass, num_lt, num_le, num_gt; cbn [max min];
     destruct (PrimFloat.ltb h 0) eqn:Hneg; [by rewrite Hneg|];
     destruct (PrimFloat.leb h 19) eqn:Hlow; [by rewrite Hneg, Hlow|];
     repeat match goal with
       | |- context [if PrimFloat.ltb ?a h then _ else _] =>
           let H := fresh "Hgt" in destruct (PrimFloat.ltb a h) eqn:H
       | |- context [if PrimFloat.ltb h ?a then _ else _] =>
           let H := fresh "Hlt" in destruct (PrimFloat.ltb h a) eqn:H
       end;
     try (by vm_compute);
     repeat match goal with H : _ = _ |- _ => rewrite H end; done|]).
  by apply elem_of_nil in Hb.
Qed.

Lemma roundHandicapForClass_within h b :
  b ∈ classBounds -> is_nan h = false -> num_le h 19 = false ->
  (forall hi, max b = Some hi ->
     num_le (roundHandicapForClass h (Some b)) hi = true)
  /\ (forall lo, min b = Some lo ->
        num_ge (roundHandicapForClass h (Some b)) lo = true).
Proof.
  unfold classBounds. intros Hb Hnan Hlow.
  assert (Hneg : num_lt h 0 = false).
  { destruct (num_lt h 0) eqn:Hneg; [|done].
    assert (Hlt : num_lt h 19 = true)
      by (apply (num_lt_trans _ _ _ Hneg); by vm_compute).
    apply num_lt_le in Hlt. congruence. }
  repeat (apply elem_of_cons in Hb as [->|Hb];
    [unfold roundHandicapForClass; rewrite Hneg, Hlow; cbn [max min];
     split; intros ? [= <-];
     repeat match goal with
       | |- context [if num_gt h ?a then _ else _] =>
           let H := fresh "Hgt" in destruct (num_gt h a) eqn:H
       | |- context [if num_lt h ?a then _ else _] =>
           let H := fresh "Hlt" in destruct (num_lt h a) eqn:H
       | |- context [if num_lt ?a ?b then _ else _] =>
           let v := eval vm_compute in (num_lt a b) in
           change (num_lt a b) with v; cbv iota
       end;
     try (by vm_compute);
     try (by apply num_not_gt_le);
     try (by apply num_not_lt_ge)|]).
  by apply elem_of_nil in Hb.
Qed.

End RoundingFacts.
Section AdjustmentFacts.

Import teamHandicap.
Local Open Scope float_scope.

Lemma table_values_bounded :
  Forall (fun kv => num_le 0 (snd kv) = true /\ num_le (snd kv) 12 = true)
    ADJUSTMENT_TABLE.
Proof. unfold ADJUSTMENT_TABLE. repeat constructor. Qed.

Lemma getAdjustmentFactor_bounded d :
  num_le 0 (getAdjustmentFactor d) = true
  /\ num_le (getAdjustmentFactor d) 12 = true.
Proof.
  unfold getAdjustmentFactor.
  destruct (num_eq d 0); [by vm_compute|].
  destruct (num_ge d 60); [by vm_compute|].
  unfold tableLookup.
  destruct (List.find _ ADJUSTMENT_TABLE) as [kv|] eqn:Hfind; [|by vm_compute].
  apply find_some in Hfind as [Hin _].
  pose proof table_values_bounded as Hall. rewrite Forall_forall in Hall.
  apply Hall. by apply list_elem_of_In.
Qed.

(** The factors of the differences 0 to 60, in this order. *)
Lemma factors_increasing :
  forallb (fun k1 =>
     forallb (fun k2 =>
        (k2 <=? k1)%Z
        || num_lt (getAdjustmentFactor (num_of_Z k1))
             (getAdjustmentFactor (num_of_Z k2)))
       (Z.of_nat <$> seq 0 61))
    (Z.of_nat <$> seq 0 61) = true.
Proof. by vm_compute. Qed.

Lemma getAdjustmentFactor_lt k1 k2 :
  (0 <= k1)%Z -> (k1 < k2)%Z -> (k2 <= 60)%Z ->
  num_lt (getAdjustmentFactor (num_of_Z k1))
    (getAdjustmentFactor (num_of_Z k2)) = true.
Proof.
  intros H0 H12 H60. pose proof factors_increasing as Hall.
  rewrite forallb_forall in Hall.
  assert (Hin : forall k, (0 <= k <= 60)%Z -> In k (Z.of_nat <$> seq 0 61)).
  { intros k Hk. apply list_elem_of_In, list_elem_of_fmap.
    exists (Z.to_nat k). split; [lia|]. apply elem_of_seq. lia. }
  specialize (Hall k1 (Hin k1 ltac:(lia))).
  rewrite forallb_forall in Hall.
  specialize (Hall k2 (Hin k2 ltac:(lia))).
  apply orb_true_iff in Hall as [Hle|Hlt]; [|done].
  apply Z.leb_le in Hle. lia.
Qed.

End AdjustmentFacts.

(** X14.  The bounds of an event name are decided by the short labels
    alone, in a fixed order: none for a name that contains "club" or "champ"
    in any letter case; otherwise those of the first of "4th", "3rd", "2nd",
    "1st" that the name contains; otherwise none.  The long labels, the test
    for "championship" and the test for the empty name never change the
    answer, and a name with two class labels gets the higher class number. *)
Theorem getEventClassBounds_priority (eventName : string) :
  handicapRounding.getEventClassBounds eventName
  = (let lowerName := handicapRounding.toLowerCase eventName in
     if handicapRounding.includes lowerName "club"
        || handicapRounding.includes lowerName "champ" then None
     else if handicapRounding.includes lowerName "4th"
       then handicapRounding.bounds 40 49
     else if handicapRounding.includes lowerName "3rd"
       then handicapRounding.bounds 30 39
     else if handicapRounding.includes lowerName "2nd"
       then handicapRounding.bounds 20 29
     else if handicapRounding.includes lowerName "1st"
       then Some (handicapRounding.mkBounds None (Some 19%float))
     else None)
  /\ handicapRounding.getEventClassBounds "3rd and 4th Class Doubles"
     = handicapRounding.bounds 40 49.
Proof. split; [apply getEventClassBounds_labels|by vm_compute]. Qed.

(** X15.  Event names that differ in letter case only have the same
    bounds. *)
Theorem getEventClassBounds_case_insensitive (eventName other : string) :
  handicapRounding.toLowerCase eventName = handicapRounding.toLowerCase other ->
  handicapRounding.getEventClassBounds eventName
  = handicapRounding.getEventClassBounds other.
Proof.
  intros Hsame. rewrite !getEventClassBounds_labels. cbv zeta.
  by rewrite Hsame.
Qed.

Lemma getEventClassBounds_case_insensitive_witness :
  handicapRounding.getEventClassBounds "3RD CLASS Singles"
  = handicapRounding.getEventClassBounds "3rd Class singles".
Proof.
  apply (getEventClassBounds_case_insensitive
           "3RD CLASS Singles" "3rd Class singles").
  by vm_compute.
Defined.

(** X16.  Rounding is idempotent: a handicap that has been rounded for an
    event is left as it is when rounded for that event again, for every
    number (NaN and the infinities included) and every event name. *)
Theorem roundForEvent_idempotent (h : number) (eventName : string) :
  handicapRounding.roundForEvent
    (handicapRounding.roundForEvent h eventName) eventName
  = handicapRounding.roundForEvent h eventName.
Proof.
  unfold handicapRounding.roundForEvent.
  destruct (handicapRounding.getEventClassBounds eventName) as [b|] eqn:Hb;
    [|done].
  apply getEventClassBounds_Some in Hb as [Hb _].
  by apply roundHandicapForClass_stable.
Qed.

(** X17.  A handicap above 19 (so not a plus handicap, and not NaN) comes
    out of the rounding within the class of the event: at most its maximum
    and, where the class has a minimum, at least that. *)
Theorem roundForEvent_within_class (h : number) (eventName : string)
    (b : handicapRounding.Bounds) :
  handicapRounding.getEventClassBounds eventName = Some b ->
  is_nan h = false -> num_le h 19%float = false ->
  (forall hi, handicapRounding.max b = Some hi ->
     num_le (handicapRounding.roundForEvent h eventName) hi = true)
  /\ (forall lo, handicapRounding.min b = Some lo ->
        num_ge (handicapRounding.roundForEvent h eventName) lo = true).
Proof.
  intros Hb Hnan Hlow. unfold handicapRounding.roundForEvent. rewrite Hb.
  apply getEventClassBounds_Some in Hb as [Hb _].
  by apply roundHandicapForClass_within.
Qed.

(** 19.5 in a second-class event is raised to the class minimum. *)
Lemma roundForEvent_within_class_witness :
  num_ge (handicapRounding.roundForEvent 19.5%float "2nd Class") 20%float
  = true.
Proof.
  refine (proj2 (roundForEvent_within_class 19.5%float "2nd Class"
                   (handicapRounding.mkBounds (Some 20%float) (Some 29%float))
                   _ _ _) 20%float _).
  - by vm_compute.
  - by vm_compute.
  - by vm_compute.
  - by vm_compute.
Defined.

(** X18.  The adjustment factor lies between 0 and 12 for every number,
    NaN and the infinities included (so it is never NaN itself), and so does
    the adjustment of every team handicap. *)
Theorem getAdjustmentFactor_range (difference : number) :
  (num_le 0%float (teamHandicap.getAdjustmentFactor difference) = true
   /\ num_le (teamHandicap.getAdjustmentFactor difference) 12%float = true)
  /\ forall playerA playerB r,
       teamHandicap.calculateTeamHandicap playerA playerB
       = teamHandicap.TeamSuccess r ->
       num_le 0%float (teamHandicap.adjustment r) = true
       /\ num_le (teamHandicap.adjustment r) 12%float = true.
Proof.
  split; [apply getAdjustmentFactor_bounded|].
  intros playerA playerB r. unfold teamHandicap.calculateTeamHandicap.
  destruct (teamHandicap.getPlayerEffectiveHandicap playerA) as [a|];
    [|done].
  destruct (teamHandicap.getPlayerEffectiveHandicap playerB) as [b|];
    [|done].
  intros [= <-]. cbn [teamHandicap.adjustment].
  apply getAdjustmentFactor_bounded.
Qed.

(** X19.  Over the whole differences 0 to 60 the adjustment factor
    increases strictly: a larger difference has a larger factor. *)
Theorem getAdjustmentFactor_increasing (k1 k2 : Z) :
  (0 <= k1)%Z -> (k1 < k2)%Z -> (k2 <= 60)%Z ->
  num_lt (teamHandicap.getAdjustmentFactor (num_of_Z k1))
    (teamHandicap.getAdjustmentFactor (num_of_Z k2)) = true.
Proof. apply getAdjustmentFactor_lt. Qed.

Lemma getAdjustmentFactor_increasing_witness :
  num_lt (teamHandicap.getAdjustmentFactor (num_of_Z 48))
    (teamHandicap.getAdjustmentFactor (num_of_Z 49)) = true.
Proof. apply (getAdjustmentFactor_increasing 48 49); lia. Defined.

(** ** The bracket placement engine *)

Section PlacementLoops.

Import placementEngine.

Implicit Types (players : list Participant) (result pre rest : slots).

Lemma placeRun_app pos players1 players2 result :
  placeRun pos (players1 ++ players2) result
  = placeRun (pos + length players1) players2 (placeRun pos players1 result).
Proof.
  revert pos result. induction players1 as [|p players1 IH]; intros pos result.
  - simpl. by rewrite Nat.add_0_r.
  - simpl. rewrite IH. f_equal. lia.
Qed.

Lemma seat_cons pos p players :
  seat pos (p :: players) = Some (withSeed p (pos + 1)) :: seat (S pos) players.
Proof.
  unfold seat. rewrite imap_cons. rewrite Nat.add_0_r. f_equal.
  apply imap_ext. intros i q _. cbv [compose].
  by replace (pos + S i + 1) with (S pos + i + 1) by lia.
Qed.

Lemma length_seat pos players : length (seat pos players) = length players.
Proof. unfold seat. by rewrite length_imap. Qed.

(** A run of writes replaces the cells it meets, whatever they hold, and
    extends the array where it ends. *)
Lemma placeRun_layout players pre rest :
  placeRun (length pre) players (pre ++ rest)
  = pre ++ seat (length pre) players ++ drop (length players) rest.
Proof.
  revert pre rest. induction players as [|p players IH]; intros pre rest.
  - by rewrite drop_0.
  - cbn [placeRun]. rewrite seat_cons.
    assert (Hplace : place (length pre) p (pre ++ rest)
                     = (pre ++ [Some (withSeed p (length pre + 1))])
                       ++ drop 1 rest).
    { unfold place. destruct rest as [|c rest].
      - rewrite app_nil_r, array_set_end. by rewrite app_nil_r.
      - rewrite array_set_inside by (rewrite length_app; simpl; lia).
        rewrite insert_app_r_alt, Nat.sub_diag by lia. simpl.
        by rewrite drop_0, <- app_assoc. }
    rewrite Hplace.
    replace (S (length pre))
      with (length (pre ++ [Some (withSeed p (length pre + 1))]))
      by (rewrite length_app; simpl; lia).
    rewrite IH, drop_drop. rewrite <- app_assoc.
    cbn [app length]. repeat f_equal; lia.
Qed.

Lemma cursor_loop players offset k cursor result :
  offset + k <= length players ->
  foldl (cursorStep players offset) (cursor, result) (seq 0 k)
  = (cursor + k, placeRun cursor (take k (drop offset players)) result).
Proof.
  induction k as [|k IH]; intros Hk.
  - simpl. by rewrite Nat.add_0_r.
  - rewrite seq_S, foldl_app, IH by lia. cbn [foldl cursorStep].
    destruct (lookup_lt_is_Some_2 players (offset + k)) as [p Hp]; [lia|].
    cbn [Nat.add]. rewrite Hp.
    assert (Hd : drop offset players !! k = Some p) by (by rewrite lookup_drop).
    rewrite (take_S_r _ _ _ Hd), placeRun_app. cbn [placeRun].
    rewrite length_take, length_drop, Nat.min_l by lia.
    f_equal. lia.
Qed.

Lemma nightMain_loop players start k result :
  k <= length players ->
  foldl (nightMainStep players start) result (seq 0 k)
  = placeRun start (take k players) result.
Proof.
  induction k as [|k IH]; intros Hk; [done|].
  rewrite seq_S, foldl_app, IH by lia. cbn [foldl]. unfold nightMainStep.
  destruct (lookup_lt_is_Some_2 players k) as [p Hp]; [lia|].
  cbn [Nat.add]. rewrite Hp, (take_S_r _ _ _ Hp), placeRun_app.
  cbn [placeRun]. by rewrite length_take, Nat.min_l by lia.
Qed.

(** The loop that fills upward from [start - 1]. *)
Lemma nightOverflow_loop players main start k result :
  main + k <= length players -> k <= start -> start <= length result ->
  foldl (nightOverflowStep players main start) result (seq 0 k)
  = take (start - k) result
    ++ seatUpward start (take k (drop main players))
    ++ drop start result.
Proof.
  intros Hk Hstart Hlen. induction k as [|k IH].
  - unfold seatUpward. simpl. by rewrite Nat.sub_0_r, take_drop.
  - rewrite seq_S, foldl_app, IH by lia. cbn [foldl]. unfold nightOverflowStep.
    destruct (lookup_lt_is_Some_2 players (main + k)) as [p Hp]; [lia|].
    cbn [Nat.add]. rewrite Hp.
    assert (Hd : drop main players !! k = Some p) by (by rewrite lookup_drop).
    rewrite (take_S_r _ _ _ Hd).
    destruct (Z.ltb_spec (Z.of_nat start - 1 - Z.of_nat k) 0) as [Hneg|_];
      [lia|].
    replace (Z.to_nat (Z.of_nat start - 1 - Z.of_nat k)) with (start - S k)
      by lia.
    unfold seatUpward.
    rewrite imap_app, reverse_app. cbn [imap reverse app].
    rewrite length_take, length_drop, Nat.min_l, Nat.add_0_r by lia.
    change (reverse [Some (withSeed p (start - k))])
      with [Some (withSeed p (start - k))].
    destruct (lookup_lt_is_Some_2 result (start - S k)) as [c Hc]; [lia|].
    replace (start - k) with (S (start - S k)) at 1 by lia.
    rewrite (take_S_r _ _ _ Hc), <- !app_assoc.
    match goal with
    | |- place _ _ (_ ++ [c] ++ ?tail) = _ =>
        pose proof (placeRun_layout [p] (take (start - S k) result)
                      ([c] ++ tail)) as Hrun
    end.
    assert (Hpos : length (take (start - S k) result) = start - S k)
      by (rewrite length_take; lia).
    rewrite Hpos in Hrun. cbn [placeRun] in Hrun. rewrite Hrun.
    unfold seat. cbn [imap app length drop].
    rewrite drop_0. repeat f_equal; lia.
Qed.

End PlacementLoops.
Section PlacementLayout.

Import placementEngine.

Lemma fillNulls_fillCell bracketSize (result : slots) :
  length result <= bracketSize -> fillNulls bracketSize result = fillCell <$> result.
Proof.
  intros Hlen. apply list_eq. intros i. unfold fillNulls.
  rewrite list_lookup_imap, list_lookup_fmap.
  destruct (result !! i) as [[p|]|] eqn:Hi; try done.
  apply lookup_lt_Some in Hi. simpl. by rewrite decide_True by lia.
Qed.

Lemma fillCell_seat pos players : fillCell <$> seat pos players = seat pos players.
Proof.
  unfold seat. apply list_eq. intros i.
  rewrite list_lookup_fmap, list_lookup_imap. by destruct (players !! i).
Qed.

Lemma fillCell_seatUpward top players :
  fillCell <$> seatUpward top players = seatUpward top players.
Proof.
  unfold seatUpward. rewrite fmap_reverse. f_equal.
  apply list_eq. intros i.
  rewrite list_lookup_fmap, list_lookup_imap. by destruct (players !! i).
Qed.

Lemma fillCell_empty k : fillCell <$> replicate k None = byes k.
Proof. unfold byes. by rewrite fmap_replicate. Qed.

Lemma length_seatUpward top players :
  length (seatUpward top players) = length players.
Proof. unfold seatUpward. by rewrite length_reverse, length_imap. Qed.

Variables (participants : list Participant) (bracketSize : nat) (t : tape).
Hypothesis Hsize : isAllowedSize bracketSize = true.

Local Abbreviation half := (bracketSize / 2).
Local Abbreviation day := (dayOf participants).
Local Abbreviation night := (nightOf participants).
Local Abbreviation shuffledDay := (shuffle day t).1.
Local Abbreviation shuffledNight := (shuffle night (shuffle day t).2).1.

Lemma size_halves : bracketSize = half + half.
Proof. pose proof (allowed_even bracketSize Hsize). lia. Qed.

Lemma has_availability :
  0 < length day + length night ->
  negb ((0 <? length day) || (0 <? length night)) = false.
Proof.
  intros Hpos. destruct (length day), (length night); simpl; (done || lia).
Qed.

Ltac enter Hpos :=
  unfold placeByAvailability; rewrite (has_availability Hpos);
  unfold bind, ret;
  pose proof (shuffle_length day t) as Hd;
  pose proof (shuffle_length night (shuffle day t).2) as Hn;
  destruct (shuffle day t) as [D t1];
  cbn [fst snd] in *;
  destruct (shuffle night t1) as [N t2];
  cbn [fst snd] in *.

(** Neither section overflows: each starts at the top of its half. *)
Lemma layout_plain :
  0 < length day + length night ->
  length day <= half -> length night <= half ->
  placed (placeByAvailability participants bracketSize t).1
  = seat 0 shuffledDay ++ byes (half - length day)
    ++ seat half shuffledNight ++ byes (half - length night).
Proof.
  intros Hpos Hday Hnight. pose proof size_halves as Hbs. enter Hpos.
  replace (length day - half) with 0 by lia.
  replace (length night - half) with 0 by lia.
  rewrite !Nat.min_l by lia.
  rewrite cursor_loop by (rewrite Hd; lia).
  cbn [seq foldl Nat.ltb Nat.leb fst placed].
  rewrite nightMain_loop by lia.
  rewrite drop_0, !take_ge by lia.
  pose proof (placeRun_layout D [] (replicate bracketSize None)) as Hrun.
  cbn [length app] in Hrun. rewrite Hrun, drop_replicate.
  replace (bracketSize - length D) with ((half - length D) + half) by lia.
  rewrite replicate_add, app_assoc.
  pose proof (placeRun_layout N (seat 0 D ++ replicate (half - length D) None)
                (replicate half None)) as Hrun'.
  rewrite length_app, length_seat, length_replicate in Hrun'.
  replace (length D + (half - length D)) with half in Hrun' by lia.
  rewrite Hrun', drop_replicate.
  rewrite fillNulls_fillCell
    by (rewrite !length_app, !length_seat, !length_replicate; lia).
  rewrite !fmap_app, !fillCell_seat, !fillCell_empty, <- !app_assoc.
  by rewrite Hd, Hn.
Qed.

(** The Day section overflows into the lower half: the Night section moves
    to the end of the bracket. *)
Lemma layout_day_overflow :
  half < length day -> length day + length night <= bracketSize ->
  placed (placeByAvailability participants bracketSize t).1
  = seat 0 shuffledDay
    ++ byes (bracketSize - length day - length night)
    ++ seat (bracketSize - length night) shuffledNight.
Proof.
  intros Hday Htotal. pose proof size_halves as Hbs.
  assert (Hpos : 0 < length day + length night) by lia. enter Hpos.
  rewrite (Nat.min_r (length day)), (Nat.min_l (length night)) by lia.
  replace (length night - half) with 0 by lia.
  rewrite cursor_loop by (rewrite Hd; lia).
  rewrite cursor_loop by (rewrite Hd; lia).
  replace (0 <? length day - half) with true
    by (symmetry; apply Nat.ltb_lt; lia).
  cbn [seq foldl fst placed].
  rewrite nightMain_loop by lia.
  rewrite (take_ge N) by lia.
  assert (Hjoin : forall R,
            placeRun (0 + half) (take (length day - half) (drop half D))
              (placeRun 0 (take half (drop 0 D)) R)
            = placeRun 0 D R).
  { intros R. rewrite drop_0. rewrite <- (take_drop half D) at 3.
    rewrite placeRun_app, length_take, Nat.min_l by lia.
    by rewrite (take_ge (drop half D)) by (rewrite length_drop; lia). }
  rewrite Hjoin.
  pose proof (placeRun_layout D [] (replicate bracketSize None)) as Hrun.
  cbn [length app] in Hrun. rewrite Hrun, drop_replicate.
  replace (bracketSize - length D)
    with ((bracketSize - length D - length N) + length N) by lia.
  rewrite replicate_add, app_assoc.
  pose proof (placeRun_layout N
                (seat 0 D ++ replicate (bracketSize - length D - length N) None)
                (replicate (length N) None)) as Hrun'.
  rewrite length_app, length_seat, length_replicate in Hrun'.
  replace (length D + (bracketSize - length D - length N))
    with (bracketSize - length night) in Hrun' by lia.
  rewrite Hrun', drop_replicate, Nat.sub_diag. cbn [replicate].
  rewrite app_nil_r.
  rewrite fillNulls_fillCell
    by (rewrite !length_app, !length_seat, !length_replicate; lia).
  rewrite !fmap_app, !fillCell_seat, !fillCell_empty, <- !app_assoc.
  by rewrite Hd, Hn.
Qed.

(** The Night section overflows: it starts at the half, and its overflow
    fills upward from the half toward the Day section. *)
Lemma layout_night_overflow :
  half < length night -> length day + length night <= bracketSize ->
  placed (placeByAvailability participants bracketSize t).1
  = seat 0 shuffledDay
    ++ byes (bracketSize - length day - length night)
    ++ seatUpward half (drop half shuffledNight)
    ++ seat half (take half shuffledNight).
Proof.
  intros Hnight Htotal. pose proof size_halves as Hbs.
  assert (Hpos : 0 < length day + length night) by lia. enter Hpos.
  rewrite (Nat.min_l (length day)), (Nat.min_r (length night)) by lia.
  replace (length day - half) with 0 by lia.
  rewrite cursor_loop by (rewrite Hd; lia).
  cbn [seq foldl Nat.ltb Nat.leb fst placed].
  rewrite nightMain_loop by lia.
  rewrite drop_0, (take_ge D) by lia.
  pose proof (placeRun_layout D [] (replicate bracketSize None)) as Hrun.
  cbn [length app] in Hrun. rewrite Hrun, drop_replicate.
  replace (bracketSize - length D) with ((half - length D) + half) by lia.
  rewrite replicate_add, app_assoc.
  pose proof (placeRun_layout (take half N)
                (seat 0 D ++ replicate (half - length D) None)
                (replicate half None)) as Hrun'.
  rewrite length_app, length_seat, length_replicate in Hrun'.
  replace (length D + (half - length D)) with half in Hrun' by lia.
  rewrite Hrun', drop_replicate, length_take, Nat.min_l by lia.
  rewrite Nat.sub_diag. cbn [replicate]. rewrite app_nil_r.
  rewrite nightOverflow_loop;
    [|lia|lia
     |rewrite !length_app, !length_seat, !length_replicate, length_take; lia].
  assert (Hpre : length (seat 0 D ++ replicate (half - length D) None) = half)
    by (rewrite length_app, length_seat, length_replicate; lia).
  rewrite take_app_le by lia. rewrite drop_app_length' by done.
  rewrite take_app_ge by (rewrite length_seat; lia).
  rewrite length_seat, take_replicate.
  replace (take (length night - half) (drop half N)) with (drop half N)
    by (rewrite take_ge; [done|rewrite length_drop; lia]).
  rewrite fillNulls_fillCell.
  2:{ rewrite !length_app, !length_seat, length_replicate, length_seatUpward,
        length_drop, length_take. lia. }
  rewrite !fmap_app, !fillCell_seat, fillCell_seatUpward, fillCell_empty,
    <- !app_assoc.
  rewrite ?Hd, ?Hn.
  by replace ((half - (length night - half) - length day)
                `min` (half - length day))
    with (bracketSize - length day - length night) by lia.
Qed.

End PlacementLayout.
Section PlacementFacts.

Import placementEngine.

Implicit Types (players participants : list Participant) (result : slots).

Lemma placement_success participants bracketSize t r :
  (seedParticipants participants bracketSize t).1 = SeedSuccess r ->
  participants <> [] /\ isAllowedSize bracketSize = true
  /\ r = (placeByAvailability participants bracketSize t).1.
Proof.
  unfold seedParticipants. destruct participants as [|p participants]; [done|].
  cbn [length Nat.eqb].
  destruct (isAllowedSize bracketSize) eqn:Hsize.
  - rewrite (isAllowedSize_nonzero _ Hsize). cbn [orb negb].
    unfold bind, ret.
    destruct (placeByAvailability _ _ t) as [r' t']. simpl.
    intros [= <-]. done.
  - by rewrite orb_true_r.
Qed.

Lemma placement_valid participants bracketSize t :
  participants <> [] -> isAllowedSize bracketSize = true ->
  (seedParticipants participants bracketSize t).1
  = SeedSuccess (placeByAvailability participants bracketSize t).1.
Proof.
  intros Hne Hsize. unfold seedParticipants.
  destruct participants as [|p participants]; [done|].
  cbn [length Nat.eqb].
  rewrite (isAllowedSize_nonzero _ Hsize), Hsize. cbn [orb negb].
  unfold bind, ret. by destruct (placeByAvailability _ _ t).
Qed.

Lemma random_loop players k result :
  k <= length players ->
  foldl (fun res i => match players !! i with
                      | Some p => place i p res
                      | None => res
                      end) result (seq 0 k)
  = placeRun 0 (take k players) result.
Proof.
  induction k as [|k IH]; intros Hk; [done|].
  rewrite seq_S, foldl_app, IH by lia. cbn [foldl].
  destruct (lookup_lt_is_Some_2 players k) as [p Hp]; [lia|].
  cbn [Nat.add]. rewrite Hp, (take_S_r _ _ _ Hp), placeRun_app.
  cbn [placeRun]. by rewrite length_take, Nat.min_l by lia.
Qed.

Lemma no_availability participants :
  dayOf participants = [] -> nightOf participants = [] ->
  forall bracketSize,
    placeByAvailability participants bracketSize
    = pureRandomPlacement participants bracketSize.
Proof.
  intros Hd Hn bracketSize. unfold placeByAvailability.
  by rewrite Hd, Hn.
Qed.

Lemma random_layout participants bracketSize t :
  placed (pureRandomPlacement participants bracketSize t).1
  = seat 0 (take bracketSize (shuffle participants t).1)
    ++ byes (bracketSize - length participants).
Proof.
  unfold pureRandomPlacement, bind, ret.
  pose proof (shuffle_length participants t) as Hlen.
  destruct (shuffle participants t) as [S t1]. cbn [fst snd placed] in *.
  rewrite random_loop by lia.
  pose proof (placeRun_layout (take (length S `min` bracketSize) S) []
                (replicate bracketSize None)) as Hrun.
  cbn [length app] in Hrun. rewrite Hrun, drop_replicate, length_take.
  replace (take (length S `min` bracketSize) S) with (take bracketSize S).
  2:{ destruct (decide (length S <= bracketSize)).
      - rewrite Nat.min_l by lia. by rewrite !take_ge by lia.
      - by rewrite Nat.min_r by lia. }
  replace (bracketSize - (length S `min` bracketSize) `min` length S)
    with (bracketSize - length S) by lia.
  destruct (decide (length S <= bracketSize)) as [Hle|Hgt].
  - pose proof (bye_loop (seat 0 (take bracketSize S)) []
                  (bracketSize - length S)) as Hb.
    rewrite length_seat, length_take, Nat.min_r, !app_nil_r in Hb by lia.
    rewrite Hb. by rewrite Hlen.
  - replace (bracketSize - length S) with 0 by lia.
    replace (bracketSize - length participants) with 0 by lia. done.
Qed.

Lemma placeRun_length players pos result :
  pos <= length result ->
  length (placeRun pos players result)
  = Nat.max (length result) (pos + length players).
Proof.
  intros Hpos. rewrite <- (take_drop pos result) at 1.
  pose proof (placeRun_layout players (take pos result) (drop pos result))
    as Hrun.
  rewrite length_take, Nat.min_l in Hrun by lia. rewrite Hrun.
  rewrite !length_app, length_take, length_seat, !length_drop. lia.
Qed.

Lemma place_length_inside pos p result :
  pos < length result -> length (place pos p result) = length result.
Proof.
  intros Hpos. unfold place. rewrite array_set_inside by done.
  by rewrite length_insert.
Qed.

Lemma nightOverflow_length players main start k result :
  start <= length result ->
  length (foldl (nightOverflowStep players main start) result (seq 0 k))
  = length result.
Proof.
  intros Hstart.
  apply (foldl_invariant (fun res => length res = length result)
           (fun _ => True)); [|by apply Forall_forall|done].
  intros res i _ Hres. unfold nightOverflowStep.
  destruct (players !! (main + i)); [|done].
  destruct (Z.ltb_spec (Z.of_nat start - 1 - Z.of_nat i) 0); [done|].
  rewrite place_length_inside by lia. done.
Qed.

Lemma placement_length participants bracketSize t :
  length (placed (placeByAvailability participants bracketSize t).1)
  = Nat.max bracketSize (length (dayOf participants)).
Proof.
  unfold placeByAvailability.
  destruct (negb _) eqn:Hhas.
  - rewrite random_layout, length_app, length_seat, length_take.
    unfold byes. rewrite length_replicate, shuffle_length.
    apply negb_true_iff, orb_false_iff in Hhas as [Hd _].
    apply Nat.ltb_ge in Hd. lia.
  - unfold bind, ret.
    pose proof (shuffle_length (dayOf participants) t) as Hd.
    pose proof (shuffle_length (nightOf participants)
                  (shuffle (dayOf participants) t).2) as Hn.
    destruct (shuffle (dayOf participants) t) as [D t1].
    cbn [fst snd] in *.
    destruct (shuffle (nightOf participants) t1) as [N t2].
    cbn [fst snd] in *.
    set (half := bracketSize / 2).
    assert (Hhalf : half + half <= bracketSize)
      by (pose proof (two_halves bracketSize); lia).
    set (d := length (dayOf participants)) in *.
    set (n := length (nightOf participants)) in *.
    rewrite cursor_loop by lia. rewrite cursor_loop by lia.
    cbn [fst placed]. unfold fillNulls. rewrite length_imap.
    set (afterDay := placeRun (0 + d `min` half) _ (placeRun 0 _ _)).
    assert (Hday : length afterDay = Nat.max bracketSize d).
    { unfold afterDay.
      rewrite placeRun_length; rewrite placeRun_length;
        rewrite ?length_take, ?length_drop, ?length_replicate; lia. }
    set (start := if 0 <? d - half then bracketSize - n `min` half else half).
    assert (Hstart : start + n `min` half <= bracketSize)
      by (unfold start; destruct (0 <? d - half); lia).
    rewrite nightMain_loop by lia.
    assert (Hnight : length (placeRun start (take (n `min` half) N) afterDay)
                     = Nat.max bracketSize d).
    { rewrite placeRun_length by lia. rewrite length_take. lia. }
    rewrite nightOverflow_length by lia. done.
Qed.

End PlacementFacts.
Section SectionTally.

Implicit Types (players : list Participant) (s : slots).

Lemma occupants_app s1 s2 : occupants (s1 ++ s2) = occupants s1 ++ occupants s2.
Proof. apply omap_app. Qed.

Lemma occupants_byes k : occupants (byes k) = [].
Proof. induction k as [|k IH]; [done|]. exact IH. Qed.

Lemma occupants_seat pos players :
  allReal players -> unseeded <$> occupants (seat pos players) = unseeded <$> players.
Proof. apply (occupants_seeded (fun i => pos + i + 1)). Qed.

Lemma occupants_seatUpward top players :
  allReal players ->
  unseeded <$> occupants (seatUpward top players) ≡ₚ unseeded <$> players.
Proof.
  intros Hreal. unfold seatUpward, occupants.
  rewrite reverse_Permutation.
  by rewrite <- (occupants_seeded (fun i => top - i) players Hreal).
Qed.

Lemma nullCells_app s1 s2 : nullCells (s1 ++ s2) = nullCells s1 + nullCells s2.
Proof. unfold nullCells. by rewrite List.filter_app, length_app. Qed.

Lemma nullCells_byes k : nullCells (byes k) = 0.
Proof. induction k as [|k IH]; [done|]. exact IH. Qed.

Lemma nullCells_imap (g : nat -> Participant -> Participant) players :
  nullCells (imap (fun i p => Some (g i p)) players) = 0.
Proof.
  revert g. induction players as [|p players IH]; intros g; [done|].
  rewrite imap_cons. apply (IH (g ∘ S)).
Qed.

Lemma nullCells_seat pos players : nullCells (seat pos players) = 0.
Proof. apply (nullCells_imap (fun i p => withSeed p (pos + i + 1))). Qed.

Lemma nullCells_seatUpward top players : nullCells (seatUpward top players) = 0.
Proof.
  unfold seatUpward, nullCells.
  assert (Hperm : forall s : slots,
            length (List.filter isNullCell (reverse s))
            = length (List.filter isNullCell s)).
  { intros s. induction s as [|c s IH]; [done|].
    rewrite reverse_cons, List.filter_app, length_app, IH. simpl.
    destruct (isNullCell c); simpl; lia. }
  rewrite Hperm. apply (nullCells_imap (fun i p => withSeed p (top - i))).
Qed.

Lemma allReal_filter f participants :
  allReal participants -> allReal (List.filter f participants).
Proof.
  unfold allReal. rewrite !Forall_forall. intros Hall p Hp.
  apply Hall. apply list_elem_of_In. apply list_elem_of_In, filter_In in Hp.
  tauto.
Qed.

Variables (participants : list Participant) (bracketSize : nat) (t : tape).
Hypothesis Hsize : isAllowedSize bracketSize = true.
Hypothesis Hreal : allReal participants.

Local Abbreviation shuffledDay := (shuffle (dayOf participants) t).1.
Local Abbreviation shuffledNight :=
  (shuffle (nightOf participants) (shuffle (dayOf participants) t).2).1.

Lemma shuffledDay_real : allReal shuffledDay.
Proof.
  eapply perm_real; [apply shuffle_perm|]. by apply allReal_filter.
Qed.

Lemma shuffledNight_real : allReal shuffledNight.
Proof.
  eapply perm_real; [apply shuffle_perm|]. by apply allReal_filter.
Qed.

Lemma allReal_parts players k :
  allReal players -> allReal (take k players) /\ allReal (drop k players).
Proof.
  unfold allReal. intros Hall. split; [by apply Forall_take|by apply Forall_drop].
Qed.

(** Whatever the layout, the bracket holds the Day and the Night players,
    each once, and no [null]. *)
Lemma sections_tally :
  0 < length (dayOf participants) + length (nightOf participants) ->
  length (dayOf participants) + length (nightOf participants) <= bracketSize ->
  let s := placementEngine.placed
             (placementEngine.placeByAvailability participants bracketSize t).1 in
  unseeded <$> occupants s
    ≡ₚ unseeded <$> (dayOf participants ++ nightOf participants)
  /\ nullCells s = 0.
Proof.
  intros Hpos Htotal. cbv zeta.
  pose proof (size_halves bracketSize Hsize) as Hbs.
  pose proof shuffledDay_real as HD. pose proof shuffledNight_real as HN.
  assert (Hperm : unseeded <$> (shuffledDay ++ shuffledNight)
                  ≡ₚ unseeded <$> (dayOf participants ++ nightOf participants))
    by (by rewrite !shuffle_perm).
  rewrite <- Hperm, fmap_app.
  destruct (decide (bracketSize / 2 < length (dayOf participants))) as [Hd|Hd];
    [|destruct (decide (bracketSize / 2 < length (nightOf participants)))
        as [Hn|Hn]].
  - rewrite layout_day_overflow by (done || lia).
    rewrite !occupants_app, !nullCells_app, occupants_byes, nullCells_byes,
      !nullCells_seat, !fmap_app, !occupants_seat by done.
    done.
  - rewrite layout_night_overflow by (done || lia).
    destruct (allReal_parts shuffledNight (bracketSize / 2) HN) as [Ht Hdr].
    rewrite !occupants_app, !nullCells_app, occupants_byes, nullCells_byes,
      !nullCells_seat, nullCells_seatUpward, !fmap_app, !occupants_seat,
      occupants_seatUpward by done.
    split; [|done]. cbn [fmap list_fmap app].
    apply Permutation_app_head.
    rewrite <- (take_drop (bracketSize / 2) shuffledNight) at 3.
    rewrite fmap_app. apply Permutation_app_comm.
  - rewrite layout_plain by (done || lia).
    rewrite !occupants_app, !nullCells_app, !occupants_byes, !nullCells_byes,
      !nullCells_seat, !fmap_app, !occupants_seat by done.
    split; [|done]. cbn [fmap list_fmap app]. by rewrite app_nil_r.
Qed.

End SectionTally.
(** X20.  Placement by sections, neither section larger than half the
    bracket: the Day players stand in a row from the top, the Night players
    in a row from the half, each group in a random order and every player
    with the seed of its position; BYEs fill the rest of each half. *)
Theorem sections_without_overflow (participants : list Participant)
    (bracketSize : nat) (t : tape) (r : placementEngine.Placement) :
  (placementEngine.seedParticipants participants bracketSize t).1
  = placementEngine.SeedSuccess r ->
  0 < length (dayOf participants) + length (nightOf participants) ->
  length (dayOf participants) <= bracketSize / 2 ->
  length (nightOf participants) <= bracketSize / 2 ->
  exists shuffledDay shuffledNight,
    shuffledDay ≡ₚ dayOf participants
    /\ shuffledNight ≡ₚ nightOf participants
    /\ placementEngine.placed r
       = seat 0 shuffledDay
         ++ byes (bracketSize / 2 - length (dayOf participants))
         ++ seat (bracketSize / 2) shuffledNight
         ++ byes (bracketSize / 2 - length (nightOf participants)).
Proof.
  intros Hr Hpos Hd Hn. apply placement_success in Hr as (_ & Hsize & ->).
  eexists _, _. split; [apply shuffle_perm|]. split; [apply shuffle_perm|].
  by apply layout_plain.
Qed.

(** Three Day and four Night entrants in a bracket of eight. *)
Lemma sections_without_overflow_witness :
  exists shuffledDay shuffledNight,
    shuffledDay ≡ₚ dayOf (take 7 threeDayFiveNight)
    /\ shuffledNight ≡ₚ nightOf (take 7 threeDayFiveNight)
    /\ placementEngine.placed
         (placementEngine.placeByAvailability (take 7 threeDayFiveNight) 8
            sampleTape).1
       = seat 0 shuffledDay
         ++ byes (8 / 2 - length (dayOf (take 7 threeDayFiveNight)))
         ++ seat (8 / 2) shuffledNight
         ++ byes (8 / 2 - length (nightOf (take 7 threeDayFiveNight))).
Proof.
  apply (sections_without_overflow (take 7 threeDayFiveNight) 8 sampleTape).
  - by vm_compute.
  - vm_compute. lia.
  - vm_compute. lia.
  - vm_compute. lia.
Defined.

(** X21.  More Day players than half the bracket, all players fitting in:
    the Day players stand in one row from the top, running over into the lower
    half, and the Night players in a row that ends with the bracket; the BYEs
    stand between the two. *)
Theorem day_overflow_layout (participants : list Participant)
    (bracketSize : nat) (t : tape) (r : placementEngine.Placement) :
  (placementEngine.seedParticipants participants bracketSize t).1
  = placementEngine.SeedSuccess r ->
  bracketSize / 2 < length (dayOf participants) ->
  length (dayOf participants) + length (nightOf participants) <= bracketSize ->
  exists shuffledDay shuffledNight,
    shuffledDay ≡ₚ dayOf participants
    /\ shuffledNight ≡ₚ nightOf participants
    /\ placementEngine.placed r
       = seat 0 shuffledDay
         ++ byes (bracketSize - length (dayOf participants)
                  - length (nightOf participants))
         ++ seat (bracketSize - length (nightOf participants)) shuffledNight.
Proof.
  intros Hr Hd Htotal. apply placement_success in Hr as (_ & Hsize & ->).
  eexists _, _. split; [apply shuffle_perm|]. split; [apply shuffle_perm|].
  by apply layout_day_overflow.
Qed.

(** Five Day and three Night entrants in a bracket of eight. *)
Lemma day_overflow_layout_witness :
  exists shuffledDay shuffledNight,
    shuffledDay ≡ₚ dayOf fiveDayThreeNight
    /\ shuffledNight ≡ₚ nightOf fiveDayThreeNight
    /\ placementEngine.placed
         (placementEngine.placeByAvailability fiveDayThreeNight 8
            sampleTape).1
       = seat 0 shuffledDay
         ++ byes (8 - length (dayOf fiveDayThreeNight)
                  - length (nightOf fiveDayThreeNight))
         ++ seat (8 - length (nightOf fiveDayThreeNight)) shuffledNight.
Proof.
  apply (day_overflow_layout fiveDayThreeNight 8 sampleTape).
  - by vm_compute.
  - vm_compute. lia.
  - vm_compute. lia.
Defined.

(** X22.  More Night players than half the bracket, all players fitting
    in: the Night section still starts at the half, with its first half-bracket
    of players in a row; the others fill upward from the cell above the half,
    toward the Day section, whose players stand from the top; the BYEs stand
    between the Day players and the Night overflow. *)
Theorem night_overflow_layout (participants : list Participant)
    (bracketSize : nat) (t : tape) (r : placementEngine.Placement) :
  (placementEngine.seedParticipants participants bracketSize t).1
  = placementEngine.SeedSuccess r ->
  bracketSize / 2 < length (nightOf participants) ->
  length (dayOf participants) + length (nightOf participants) <= bracketSize ->
  exists shuffledDay shuffledNight,
    shuffledDay ≡ₚ dayOf participants
    /\ shuffledNight ≡ₚ nightOf participants
    /\ placementEngine.placed r
       = seat 0 shuffledDay
         ++ byes (bracketSize - length (dayOf participants)
                  - length (nightOf participants))
         ++ seatUpward (bracketSize / 2) (drop (bracketSize / 2) shuffledNight)
         ++ seat (bracketSize / 2) (take (bracketSize / 2) shuffledNight).
Proof.
  intros Hr Hn Htotal. apply placement_success in Hr as (_ & Hsize & ->).
  eexists _, _. split; [apply shuffle_perm|]. split; [apply shuffle_perm|].
  by apply layout_night_overflow.
Qed.

(** Three Day and five Night entrants in a bracket of eight. *)
Lemma night_overflow_layout_witness :
  exists shuffledDay shuffledNight,
    shuffledDay ≡ₚ dayOf threeDayFiveNight
    /\ shuffledNight ≡ₚ nightOf threeDayFiveNight
    /\ placementEngine.placed
         (placementEngine.placeByAvailability threeDayFiveNight 8
            sampleTape).1
       = seat 0 shuffledDay
         ++ byes (8 - length (dayOf threeDayFiveNight)
                  - length (nightOf threeDayFiveNight))
         ++ seatUpward (8 / 2) (drop (8 / 2) shuffledNight)
         ++ seat (8 / 2) (take (8 / 2) shuffledNight).
Proof.
  apply (night_overflow_layout threeDayFiveNight 8 sampleTape).
  - by vm_compute.
  - vm_compute. lia.
  - vm_compute. lia.
Defined.

(** X23.  Placement by sections loses nobody it sets out to place: when
    the Day and Night players fit into the bracket, the real entries of the
    slot array are the Day and the Night players, each once (up to the seed
    field); the other cells are BYEs and none is [null].  Entrants with any
    other availability are not in the bracket, although [participantCount]
    counts them. *)
Theorem sections_conservation (participants : list Participant)
    (bracketSize : nat) (t : tape) (r : placementEngine.Placement) :
  (placementEngine.seedParticipants participants bracketSize t).1
  = placementEngine.SeedSuccess r ->
  allReal participants ->
  0 < length (dayOf participants) + length (nightOf participants) ->
  length (dayOf participants) + length (nightOf participants) <= bracketSize ->
  length (placementEngine.placed r) = bracketSize
  /\ unseeded <$> occupants (placementEngine.placed r)
       ≡ₚ unseeded <$> (dayOf participants ++ nightOf participants)
  /\ realCount (placementEngine.placed r)
     = length (dayOf participants) + length (nightOf participants)
  /\ byeCells (placementEngine.placed r)
     = bracketSize - length (dayOf participants)
       - length (nightOf participants)
  /\ nullCells (placementEngine.placed r) = 0
  /\ placementEngine.participantCount r = length participants.
Proof.
  intros Hr Hreal Hpos Htotal.
  apply placement_success in Hr as (_ & Hsize & ->).
  destruct (sections_tally participants bracketSize t Hsize Hreal Hpos Htotal)
    as [Hocc Hnull].
  pose proof (placement_length participants bracketSize t) as Hlen.
  set (s := placementEngine.placed _) in *.
  assert (Hcount : realCount s
                   = length (dayOf participants) + length (nightOf participants)).
  { rewrite realCount_occupants.
    apply Permutation_length in Hocc.
    by rewrite !length_fmap, length_app in Hocc. }
  destruct (cells_partition s (nullCells_zero s Hnull)) as [_ Hparts].
  repeat split; try done; try lia.
  unfold placementEngine.placeByAvailability.
  destruct (negb _); unfold placementEngine.pureRandomPlacement, bind, ret;
    repeat match goal with
      | |- context [shuffle ?l ?t] => destruct (shuffle l t)
      end; try done.
  by repeat match goal with
       | |- context [foldl ?f ?a ?l] => destruct (foldl f a l)
       end.
Qed.

(** Four Day entrants and one Night entrant in a bracket of eight. *)
Lemma sections_conservation_witness :
  realCount
    (placementEngine.placed
       (placementEngine.placeByAvailability fourDayOneNight 8 sampleTape).1)
  = length (dayOf fourDayOneNight) + length (nightOf fourDayOneNight).
Proof.
  refine (proj1 (proj2 (proj2
            (sections_conservation fourDayOneNight 8 sampleTape _ _ _ _ _)))).
  - by vm_compute.
  - unfold allReal, fourDayOneNight. by repeat constructor.
  - vm_compute. lia.
  - vm_compute. lia.
Defined.

(** X24.  The slot array has [bracketSize] cells unless more than
    [bracketSize] players are tagged Day: the Day loops then write past the end
    and the array returned has one cell for every Day player. *)
Theorem placement_array_length (participants : list Participant)
    (bracketSize : nat) (t : tape) (r : placementEngine.Placement) :
  (placementEngine.seedParticipants participants bracketSize t).1
  = placementEngine.SeedSuccess r ->
  length (placementEngine.placed r)
  = Nat.max bracketSize (length (dayOf participants)).
Proof.
  intros Hr. apply placement_success in Hr as (_ & _ & ->).
  apply placement_length.
Qed.

(** Fourteen Day entrants in a bracket of eight: fourteen cells. *)
Lemma placement_array_length_witness :
  length (placementEngine.placed
            (placementEngine.placeByAvailability (sevenDay ++ sevenDay) 8
               sampleTape).1)
  = Nat.max 8 (length (dayOf (sevenDay ++ sevenDay))).
Proof.
  apply (placement_array_length (sevenDay ++ sevenDay) 8 sampleTape).
  by vm_compute.
Defined.

(** X25.  Without a Day or Night tag among the participants the placement
    is random: the participants stand in a random order from the top, each
    with the seed of its position, and BYEs follow; participants beyond the
    bracket size are left out. *)
Theorem random_placement_layout (participants : list Participant)
    (bracketSize : nat) (t : tape) (r : placementEngine.Placement) :
  (placementEngine.seedParticipants participants bracketSize t).1
  = placementEngine.SeedSuccess r ->
  dayOf participants = [] -> nightOf participants = [] ->
  exists shuffled,
    shuffled ≡ₚ participants
    /\ placementEngine.placed r
       = seat 0 (take bracketSize shuffled)
         ++ byes (bracketSize - length participants).
Proof.
  intros Hr Hd Hn. apply placement_success in Hr as (_ & _ & ->).
  exists (shuffle participants t).1. split; [apply shuffle_perm|].
  rewrite no_availability by done. apply random_layout.
Qed.

(** Nine entrants without tags in a bracket of eight. *)
Lemma random_placement_layout_witness :
  exists shuffled,
    shuffled ≡ₚ nineEntrants
    /\ placementEngine.placed
         (placementEngine.placeByAvailability nineEntrants 8 sampleTape).1
       = seat 0 (take 8 shuffled) ++ byes (8 - length nineEntrants).
Proof.
  apply (random_placement_layout nineEntrants 8 sampleTape).
  - by vm_compute.
  - by vm_compute.
  - by vm_compute.
Defined.

(** X26.  The placement engine fails in two cases only: without
    participants, with the message of that case (whatever the bracket size),
    and with participants and a bracket size other than 8, 16, 32, 64 and
    128, with the bracket-size message; otherwise it succeeds, with the
    number of participants it was given and the bracket size in the result. *)
Theorem placement_failures (participants : list Participant)
    (bracketSize : nat) (t : tape) :
  (forall error,
     (placementEngine.seedParticipants participants bracketSize t).1
     = placementEngine.SeedFailure error
     <-> (participants = [] /\ error = placementEngine.noParticipantsError)
         \/ (participants <> [] /\ isAllowedSize bracketSize = false
             /\ error = invalidSizeError))
  /\ forall r,
       (placementEngine.seedParticipants participants bracketSize t).1
       = placementEngine.SeedSuccess r ->
       placementEngine.participantCount r = length participants
       /\ placementEngine.bracketSize r = bracketSize.
Proof.
  split.
  - intros error. destruct participants as [|p participants].
    + split; [intros [= <-]; by left|].
      intros [[_ ->]|[? _]]; done.
    + destruct (isAllowedSize bracketSize) eqn:Hsize.
      * rewrite placement_valid by done. split; [done|].
        intros [[? _]|(_ & ? & _)]; done.
      * unfold placementEngine.seedParticipants. cbn [length Nat.eqb].
        rewrite Hsize, orb_true_r. split; [intros [= <-]; by right|].
        intros [[? _]|(_ & _ & ->)]; done.
  - intros r Hr. apply placement_success in Hr as (_ & _ & ->).
    unfold placementEngine.placeByAvailability.
    destruct (negb _); unfold placementEngine.pureRandomPlacement, bind, ret;
      repeat match goal with
        | |- context [shuffle ?l ?t] => destruct (shuffle l t)
        end; try done.
    by repeat match goal with
         | |- context [foldl ?f ?a ?l] => destruct (foldl f a l)
         end.
Qed.

(** ** The full bracket of the seeding engine *)

Section FullBracket.

Implicit Types (players : list Participant) (result pre : slots).

Lemma seat_app pos players1 players2 :
  seat pos (players1 ++ players2)
  = seat pos players1 ++ seat (pos + length players1) players2.
Proof.
  unfold seat. rewrite imap_app. f_equal.
  apply imap_ext. intros i p _. simpl. do 2 f_equal. lia.
Qed.

Lemma seated_count pos players :
  allReal players -> length (occupants (seat pos players)) = length players.
Proof.
  intros Hreal. rewrite <- (length_fmap unseeded), occupants_seat by done.
  by rewrite length_fmap.
Qed.

(** Day overflow in front of a taken cell: nobody is placed. *)
Lemma dayOverflow_blocked players cursor result q :
  result !! cursor = Some (Some q) ->
  foldl dayOverflowStep (cursor, result) players = (cursor, result).
Proof.
  intros Hq. induction players as [|p players IH]; [done|].
  cbn [foldl dayOverflowStep]. by rewrite Hq.
Qed.

(** Day overflow in front of empty cells: a row of players. *)
Lemma dayOverflow_free players pre k :
  length players <= k ->
  foldl dayOverflowStep (length pre, pre ++ replicate k None) players
  = (length pre + length players,
     pre ++ seat (length pre) players ++ replicate (k - length players) None).
Proof.
  revert pre k. induction players as [|p players IH]; intros pre k Hk.
  - cbn [foldl length seat imap app]. by rewrite Nat.add_0_r, Nat.sub_0_r.
  - destruct k as [|k]; [simpl in Hk; lia|].
    cbn [foldl dayOverflowStep replicate].
    rewrite lookup_app_r, Nat.sub_diag by lia. cbn [lookup list_lookup].
    pose proof (placeRun_layout [p] pre (None :: replicate k None)) as Hrun.
    cbn [placeRun length drop] in Hrun. rewrite drop_0 in Hrun.
    rewrite Hrun. unfold seat at 1. cbn [imap app].
    replace (pre ++ Some (withSeed p (length pre + 0 + 1)) :: replicate k None)
      with ((pre ++ [Some (withSeed p (length pre + 0 + 1))])
            ++ replicate k None) by (by rewrite <- app_assoc).
    replace (length pre + 1)
      with (length (pre ++ [Some (withSeed p (length pre + 0 + 1))]))
      by (rewrite length_app; simpl; lia).
    rewrite IH by (simpl in Hk; lia).
    rewrite length_app. cbn [length]. f_equal; [lia|].
    rewrite seat_cons, <- app_assoc. cbn [app].
    repeat f_equal; lia.
Qed.

(** Night overflow below a lower half without an empty cell: nobody is
    placed. *)
Lemma nightOverflow_blocked bracketSize players result :
  (forall j, bracketSize / 2 <= j < bracketSize -> result !! j <> Some None) ->
  forall idx, bracketSize / 2 <= idx ->
    snd (foldl (nightOverflowStep bracketSize) (idx, result) players) = result.
Proof.
  intros Htaken. induction players as [|p players IH]; intros idx Hidx; [done|].
  cbn [foldl]. unfold nightOverflowStep at 2.
  destruct (skipTaken_stops bracketSize (bracketSize - idx) idx result)
    as (Hle & Hend & _); [lia|].
  set (idx' := skipTaken _ _ _ _) in *.
  case_decide as Hin.
  - destruct Hend as [Hout|Hnull]; [lia|].
    destruct (Htaken idx'); [lia|done].
  - apply IH. lia.
Qed.

Variables (participants : list Participant) (bracketSize : nat) (t : tape).
Hypothesis Hsize : isAllowedSize bracketSize = true.
Hypothesis Hfull : length participants = bracketSize.

Local Abbreviation half := (bracketSize / 2).
Local Abbreviation day := (dayOf participants).
Local Abbreviation night := (nightOf participants).
Local Abbreviation shuffledDay := (shuffle day t).1.
Local Abbreviation shuffledNight := (shuffle night (shuffle day t).2).1.

Lemma day_fits : length day <= bracketSize.
Proof.
  rewrite <- Hfull. unfold dayOf.
  pose proof (List.filter_length (hasTag "D") participants). lia.
Qed.

Ltac enter_full Hpos :=
  unfold placeByAvailability; rewrite decide_True by exact Hfull;
  unfold placeFullBracket; rewrite (has_availability participants Hpos);
  unfold bind, ret;
  pose proof (shuffle_length day t) as Hd;
  pose proof (shuffle_length night (shuffle day t).2) as Hn;
  destruct (shuffle day t) as [D t1];
  cbn [fst snd] in *;
  destruct (shuffle night t1) as [N t2];
  cbn [fst snd placed] in *.

(** Without Night players the Day players stand in one row. *)
Lemma full_day_only :
  0 < length day -> length night = 0 ->
  placed (placeByAvailability participants bracketSize t).1
  = seat 0 shuffledDay ++ replicate (bracketSize - length day) None.
Proof.
  intros Hday Hnight. pose proof (size_halves bracketSize Hsize) as Hbs.
  pose proof day_fits as Hfit.
  assert (Hpos : 0 < length day + length night) by lia. enter_full Hpos.
  destruct N; [|simpl in Hn; lia].
  rewrite take_nil, drop_nil. cbn [placeRun foldl snd].
  pose proof (placeRun_layout (take half D) [] (replicate bracketSize None))
    as Hrun.
  cbn [length app] in Hrun. rewrite Hrun, drop_replicate, length_take.
  destruct (Nat.ltb_spec (length D) half) as [Hlt|Hge].
  - rewrite drop_ge by lia. cbn [foldl snd].
    rewrite take_ge, Nat.min_r by lia. by rewrite Hd.
  - rewrite Nat.min_l by lia.
    replace (bracketSize - half) with half by lia.
    pose proof (dayOverflow_free (drop half D) (seat 0 (take half D)) half)
      as Hover.
    rewrite length_seat, length_take, length_drop, Nat.min_l in Hover by lia.
    rewrite Hover by lia. cbn [snd].
    rewrite app_assoc.
    pose proof (seat_app 0 (take half D) (drop half D)) as Happ.
    rewrite take_drop, length_take, Nat.min_l in Happ by lia.
    cbn [Nat.add] in Happ. rewrite <- Happ.
    f_equal. f_equal. lia.
Qed.

(** With Night players, each group has its own half and no more. *)
Lemma full_two_sections :
  0 < length night ->
  placed (placeByAvailability participants bracketSize t).1
  = seat 0 (take half shuffledDay)
    ++ replicate (half - length day) None
    ++ seat half (take half shuffledNight)
    ++ replicate (half - length night) None.
Proof.
  intros Hnight. pose proof (size_halves bracketSize Hsize) as Hbs.
  assert (H8 : 0 < half).
  { destruct half eqn:Hh; [|lia]. rewrite Hbs in Hsize. by vm_compute in Hsize. }
  assert (Hpos : 0 < length day + length night) by lia. enter_full Hpos.
  pose proof (placeRun_layout (take half D) [] (replicate bracketSize None))
    as Hrun.
  cbn [length app] in Hrun. rewrite Hrun, drop_replicate, length_take.
  replace (bracketSize - half `min` length D)
    with ((half - length D) + half) by lia.
  rewrite replicate_add, app_assoc.
  pose proof (placeRun_layout (take half N)
                (seat 0 (take half D) ++ replicate (half - length D) None)
                (replicate half None)) as Hrun'.
  rewrite length_app, length_seat, length_take, length_replicate in Hrun'.
  replace (half `min` length D + (half - length D)) with half in Hrun' by lia.
  rewrite Hrun', drop_replicate, length_take.
  replace (half - half `min` length N) with (half - length N) by lia.
  set (mains := (seat 0 (take half D) ++ replicate (half - length D) None)
                ++ seat half (take half N) ++ replicate (half - length N) None).
  assert (Hpre : length (seat 0 (take half D)
                         ++ replicate (half - length D) None) = half)
    by (rewrite length_app, length_seat, length_take, length_replicate; lia).
  assert (Hfirst : exists q, mains !! half = Some (Some q)).
  { destruct N as [|q N]; [simpl in Hn; lia|]. exists (withSeed q (half + 1)).
    unfold mains. rewrite lookup_app_r by lia. rewrite Hpre, Nat.sub_diag.
    destruct half; [lia|]. cbn [take]. rewrite seat_cons. done. }
  destruct Hfirst as [q Hq].
  assert (Hday : snd (foldl dayOverflowStep
                        (if length D <? half then length D else half, mains)
                        (drop half D)) = mains).
  { destruct (Nat.ltb_spec (length D) half) as [Hlt|Hge].
    - by rewrite drop_ge by lia.
    - by rewrite (dayOverflow_blocked _ _ _ q Hq). }
  rewrite Hday.
  assert (Hnone : snd (foldl (nightOverflowStep bracketSize) (half, mains)
                         (drop half N)) = mains).
  { destruct (decide (length N <= half)) as [Hle|Hgt].
    - by rewrite drop_ge by lia.
    - apply nightOverflow_blocked; [|done].
      intros j Hj Hnull. unfold mains in Hnull.
      rewrite lookup_app_r in Hnull by lia. rewrite Hpre in Hnull.
      replace (half - length N) with 0 in Hnull by lia.
      cbn [replicate] in Hnull. rewrite app_nil_r in Hnull.
      unfold seat in Hnull. rewrite list_lookup_imap in Hnull.
      by destruct (take half N !! (j - half)). }
  rewrite Hnone. unfold mains. rewrite <- app_assoc. by rewrite Hd, Hn.
Qed.

End FullBracket.
(** X27.  A full bracket with availability: without Night players the Day
    players stand in one row from the top; with Night players each group
    gets the first [bracketSize / 2] of its shuffled members into its own half
    and nobody else is placed: the overflow loops find the cell at the half
    taken, and no free cell below it.  The cells left over stay [null], so the
    array holds [min(d, half) + min(n, half)] of the participants. *)
Theorem full_bracket_layout (participants : list Participant)
    (bracketSize : nat) (t : tape) (r : Placement) :
  (seedParticipants participants bracketSize t).1 = SeedSuccess r ->
  length participants = bracketSize ->
  0 < length (dayOf participants) + length (nightOf participants) ->
  exists shuffledDay shuffledNight,
    shuffledDay ≡ₚ dayOf participants
    /\ shuffledNight ≡ₚ nightOf participants
    /\ (length (nightOf participants) = 0 ->
        placed r
        = seat 0 shuffledDay
          ++ replicate (bracketSize - length (dayOf participants)) None)
    /\ (0 < length (nightOf participants) ->
        placed r
        = seat 0 (take (bracketSize / 2) shuffledDay)
          ++ replicate (bracketSize / 2 - length (dayOf participants)) None
          ++ seat (bracketSize / 2) (take (bracketSize / 2) shuffledNight)
          ++ replicate (bracketSize / 2 - length (nightOf participants)) None)
    /\ (0 < length (nightOf participants) -> allReal participants ->
        realCount (placed r)
        = Nat.min (length (dayOf participants)) (bracketSize / 2)
          + Nat.min (length (nightOf participants)) (bracketSize / 2)).
Proof.
  intros Hr Hfull Hpos. apply seedParticipants_success in Hr as (_ & Hsize & ->).
  eexists _, _. split; [apply shuffle_perm|]. split; [apply shuffle_perm|].
  split; [|split].
  - intros Hn. apply full_day_only; (done || lia).
  - intros Hn. by apply full_two_sections.
  - intros Hn Hreal. rewrite full_two_sections by done.
    rewrite realCount_occupants, !occupants_app, !occupants_empty, !app_nil_r.
    cbn [app].
    pose proof (shuffledDay_real participants t Hreal) as HD.
    pose proof (shuffledNight_real participants t Hreal) as HN.
    destruct (allReal_parts _ (bracketSize / 2) HD) as [HD' _].
    destruct (allReal_parts _ (bracketSize / 2) HN) as [HN' _].
    rewrite length_app, !seated_count by done.
    rewrite !length_take, !shuffle_length. lia.
Qed.

(** Five Day and three Night entrants in a bracket of eight: the fifth Day
    entrant is left out. *)
Lemma full_bracket_layout_witness :
  exists shuffledDay shuffledNight,
    shuffledDay ≡ₚ dayOf fiveDayThreeNight
    /\ shuffledNight ≡ₚ nightOf fiveDayThreeNight
    /\ placed (placeByAvailability fiveDayThreeNight 8 sampleTape).1
       = seat 0 (take 4 shuffledDay) ++ seat 4 shuffledNight ++ [None].
Proof.
  destruct (full_bracket_layout fiveDayThreeNight 8 sampleTape
              (placeByAvailability fiveDayThreeNight 8 sampleTape).1)
    as (D & N & HD & HN & _ & Hlayout & _).
  - by vm_compute.
  - by vm_compute.
  - vm_compute. lia.
  - exists D, N. split; [exact HD|]. split; [exact HN|].
    rewrite Hlayout by (vm_compute; lia).
    pose proof (Permutation_length HN) as Hlen.
    change (length (nightOf fiveDayThreeNight)) with 3 in Hlen.
    change (length (dayOf fiveDayThreeNight)) with 5.
    change (length (nightOf fiveDayThreeNight)) with 3.
    change (8 / 2) with 4. rewrite (take_ge N) by lia. done.
Defined.
(** ** Entry validation *)

Section Validation.

Import validation.
Local Open Scope float_scope.

Lemma nan_compare_false h x :
  is_nan h = true -> num_lt h x = false /\ num_gt h x = false.
Proof.
  unfold is_nan, num_lt, num_gt. rewrite negb_true_iff.
  rewrite FloatAxioms.eqb_spec, !ltb_spec.
  unfold SFeqb, SFltb, SFcompare.
  destruct (Prim2SF h) as [s|s| |s m e]; destruct (Prim2SF x) as [s'|s'| |s' m' e'];
    try done; try (by destruct s).
  all: destruct s; rewrite Z.compare_refl;
    destruct (compare_cont_spec m m); simpl; try done; lia.
Qed.

Lemma report_sound test h range err lo hi :
  report test h range = Some err ->
  (test = true -> outsideRange h lo hi) ->
  (range, lo, hi) ∈ namedRanges ->
  exists range lo hi,
    err = OutOfRange h range /\ (range, lo, hi) ∈ namedRanges
    /\ outsideRange h lo hi.
Proof.
  unfold report. destruct test; [|done]. intros [= <-] Htest Hin.
  exists range, lo, hi. split; [done|]. split; [done|]. by apply Htest.
Qed.

Lemma two_sided h lo hi :
  num_lt h lo || num_gt h hi = true -> outsideRange h lo (Some hi).
Proof.
  unfold outsideRange. intros [Hlt|Hgt]%orb_true_iff; [by left|by right].
Qed.

Lemma one_sided h lo : num_lt h lo = true -> outsideRange h lo None.
Proof. intros Hlt. by left. Qed.

Lemma validateHandicapRange_reports h name err :
  validateHandicapRange h name = Some err ->
  exists range lo hi,
    err = OutOfRange h range /\ (range, lo, hi) ∈ namedRanges
    /\ outsideRange h lo hi.
Proof.
  unfold validateHandicapRange. cbv zeta.
  set (has := handicapRounding.includes (handicapRounding.toLowerCase name)).
  assert (Hin : forall x, In x namedRanges -> x ∈ namedRanges)
    by (intros x; apply list_elem_of_In).
  repeat match goal with
    | |- context [if has ?k then _ else _] => destruct (has k)
    end;
    repeat match goal with
      | |- context [report ?test h ?range] =>
          let H := fresh "Hrep" in
          destruct (report test h range) as [message|] eqn:H;
          [intros [= <-];
           first
             [ eapply (report_sound _ _ _ _ _ (Some _) H);
               [apply two_sided|apply Hin; simpl; tauto]
             | eapply (report_sound _ _ _ _ _ None H);
               [apply one_sided|apply Hin; simpl; tauto] ]
          |]
      end;
    done.
Qed.

Lemma validateHandicapRange_nan h name :
  is_nan h = true -> validateHandicapRange h name = None.
Proof.
  intros Hnan. unfold validateHandicapRange, report.
  assert (Hlt : forall x, num_lt h x = false)
    by (intros x; by destruct (nan_compare_false h x Hnan)).
  assert (Hgt : forall x, num_gt h x = false)
    by (intros x; by destruct (nan_compare_false h x Hnan)).
  rewrite !Hlt, !Hgt. cbn [orb].
  by repeat match goal with
       | |- context [if ?c then _ else _] => destruct c
       end.
Qed.

Lemma validateHandicapRange_other h name :
  handicapRounding.includes (handicapRounding.toLowerCase name) "court tennis"
  = false ->
  handicapRounding.includes (handicapRounding.toLowerCase name) "racquets"
  = false ->
  validateHandicapRange h name = None.
Proof. intros Hct Hr. unfold validateHandicapRange. by rewrite Hct, Hr. Qed.

End Validation.

(** X28.  The handicap range check reports only what it has tested: every
    message carries the handicap given and names a range that the handicap
    lies outside of, so no handicap inside the range named is ever reported
    (both ends of a range are inside).  A handicap that is not a number (NaN)
    is never reported, and no handicap is for an event whose name mentions
    neither court tennis nor racquets. *)
Theorem validateHandicapRange_sound (handicap : number) (name : string) :
  (forall message,
     validation.validateHandicapRange handicap name = Some message ->
     exists range lo hi,
       message = validation.OutOfRange handicap range
       /\ (range, lo, hi) ∈ namedRanges
       /\ outsideRange handicap lo hi)
  /\ (is_nan handicap = true ->
      validation.validateHandicapRange handicap name = None)
  /\ (handicapRounding.includes (handicapRounding.toLowerCase name)
        "court tennis" = false ->
      handicapRounding.includes (handicapRounding.toLowerCase name)
        "racquets" = false ->
      validation.validateHandicapRange handicap name = None)
  /\ validation.validateHandicapRange 20%float "Court Tennis Class 1 Singles"
     = None
  /\ validation.validateHandicapRange 20%float "Court Tennis Class 2 Singles"
     = None.
Proof.
  split; [apply validateHandicapRange_reports|].
  split; [apply validateHandicapRange_nan|].
  split; [apply validateHandicapRange_other|].
  split; by vm_compute.
Qed.
